(** * JSBackend: a shallow embedding of the asm.js code generator

    The definitions below follow [JSBackend.cpp] (the [JSWriter] module
    pass): the name mangler, the global address allocator, the
    function-pointer indexer, the constant resolver, and the expression
    generators for multiplication, loads, stores, phi preludes and the
    switch heuristic.  Machine integers are [Z] with their wrap-around
    written out, [std::string] is [string], [std::vector] is [list],
    [std::map]/[std::set] keyed by strings are [gmap]/[gset] except where
    iteration order is observable, in which case a sorted association list
    is used. *)

From Stdlib Require Import ZArith Lia Bool Ascii String List.
From stdpp Require Import base option list gmap strings pretty.

Local Open Scope Z_scope.

(** ** Machine arithmetic and support-library helpers *)

(** [unsigned] is a 32-bit integer. *)
Definition wrap32 (x : Z) : Z := x mod 2^32.

(** [int64_t] arithmetic, two's complement. *)
Definition wrap64s (x : Z) : Z := (x + 2^63) mod 2^64 - 2^63.

(** [utostr]: decimal rendering of an unsigned number. *)
Definition utostr (x : Z) : string := pretty (Z.to_N x).

(** [APInt::toString(10, true)] and [itostr]: signed decimal rendering. *)
Definition itostr (x : Z) : string := pretty x.

(** [std::string(1, c)]. *)
Definition str1 (c : ascii) : string := String c EmptyString.

(** The double-quote character, as a string. *)
Definition dquote : string := str1 (ascii_of_N 34).

(** ** Name mangler *)

Module Mangle.

(** [isalnum] in the "C" locale, on an [unsigned char]. *)
Definition isalnum (c : ascii) : bool :=
  let n := N_of_ascii c in
  ((48 <=? n) && (n <=? 57) || (65 <=? n) && (n <=? 90)
   || (97 <=? n) && (n <=? 122))%N.

Definition underscore : ascii := "_"%char.
Definition dollar : ascii := "$"%char.
Definition dot : ascii := "."%char.

(** The test [!isalnum(c) && c != '_'] shared by both sanitizers. *)
Definition illegal (c : ascii) : bool :=
  negb (isalnum c) && negb (Ascii.eqb c underscore).

(** [halfCharToHex]; its callers pass [c >> 4] and [c & 0xf], so the
    assertion [half <= 15] always holds. *)
Definition halfCharToHex (half : N) : ascii :=
  if (half <=? 9)%N then ascii_of_N (48 + half) else ascii_of_N (65 + half - 10).

(** The loop of [sanitizeGlobal] over positions [1 .. OriginalSize-1] of the
    prefixed string, i.e. over every byte of the original name. *)
Fixpoint sanitizeGlobal_loop (str : string) : string :=
  match str with
  | EmptyString => EmptyString
  | String c rest =>
      String (if illegal c then underscore else c) (sanitizeGlobal_loop rest)
  end.

Definition sanitizeGlobal (str : string) : string :=
  String underscore (sanitizeGlobal_loop str).

(** [Queued] copies of ['Z']. *)
Fixpoint queuedZ (Queued : nat) : string :=
  match Queued with
  | O => EmptyString
  | S q => String "Z"%char (queuedZ q)
  end.

(** The two hex digits appended for an illegal byte other than ['.']. *)
Definition hex2 (c : ascii) : string :=
  let n := N_of_ascii c in
  String (halfCharToHex (N.shiftr n 4))
         (String (halfCharToHex (N.land n 15)) EmptyString).

(** The loop of [sanitizeLocal].  The C++ code rewrites the string in place
    and resizes it to append; the loop only visits the original positions,
    so the result is the rewritten original bytes followed by everything
    that was appended.  [appended] is what has been appended so far; the
    function returns the rewritten bytes and the final appended text. *)
Fixpoint sanitizeLocal_loop (str : string) (Queued : nat) (appended : string)
  : string * string :=
  match str with
  | EmptyString => (EmptyString, appended)
  | String c rest =>
      if illegal c then
        if Ascii.eqb c dot then
          let '(body, app) := sanitizeLocal_loop rest (S Queued) appended in
          (String dollar body, app)
        else
          let '(body, app) :=
            sanitizeLocal_loop rest 0
              (appended +:+ queuedZ Queued +:+ hex2 c) in
          (String dollar body, app)
      else
        let '(body, app) := sanitizeLocal_loop rest Queued appended in
        (String c body, app)
  end.

Definition sanitizeLocal (str : string) : string :=
  let '(body, app) := sanitizeLocal_loop str 0 EmptyString in
  String dollar (body +:+ app).

(** Names made of ASCII letters, digits, ['_'] and ['.'] only. *)
Definition plain_char (c : ascii) : bool :=
  isalnum c || Ascii.eqb c underscore || Ascii.eqb c dot.

Fixpoint plain_name (s : string) : bool :=
  match s with
  | EmptyString => true
  | String c rest => plain_char c && plain_name rest
  end.

(** Inverse of the local mangling on plain names: drop the prefix and turn
    every ['$'] back into ['.']. *)
Fixpoint undollar (s : string) : string :=
  match s with
  | EmptyString => EmptyString
  | String c rest =>
      String (if Ascii.eqb c dollar then dot else c) (undollar rest)
  end.

Definition unsanitizeLocal (s : string) : string :=
  match s with
  | EmptyString => EmptyString
  | String _ rest => undollar rest
  end.

(** A name with every ['.'] replaced by ['_']. *)
Fixpoint dots_to_underscores (s : string) : string :=
  match s with
  | EmptyString => EmptyString
  | String c rest =>
      String (if Ascii.eqb c dot then underscore else c)
             (dots_to_underscores rest)
  end.

(** The text appended by the local mangling, described on its own: for each
    illegal byte other than ['.'], one ['Z'] per ['.'] queued since the last
    such byte, then the two hex digits of the byte. *)
Fixpoint local_suffix (s : string) (Queued : nat) : string :=
  match s with
  | EmptyString => EmptyString
  | String c rest =>
      if illegal c then
        if Ascii.eqb c dot then local_suffix rest (S Queued)
        else queuedZ Queued +:+ hex2 c +:+ local_suffix rest 0
      else local_suffix rest Queued
  end.

(** The bytes of the name after the local rewriting: illegal bytes are ['$']. *)
Fixpoint local_body (s : string) : string :=
  match s with
  | EmptyString => EmptyString
  | String c rest => String (if illegal c then dollar else c) (local_body rest)
  end.

End Mangle.

(** ** IR data model *)

(** LLVM types, as far as the code generator inspects them.  A vector type
    records whether its elements are integers; only vectors accepted by
    [checkVectorType] (at most four 32-bit lanes) are represented.
    [OtherTy] stands for the remaining types (functions, aggregates,
    labels). *)
Inductive Ty : Type :=
| VoidTy
| FloatTy
| DoubleTy
| IntegerTy (bits : Z)
| PointerTy (elem : Ty)
| VectorTy (intElems : bool)
| OtherTy.

Definition isFloatingPointTy (T : Ty) : bool :=
  match T with FloatTy | DoubleTy => true | _ => false end.
Definition isFloatTy (T : Ty) : bool :=
  match T with FloatTy => true | _ => false end.
Definition isIntegerTy (T : Ty) : bool :=
  match T with IntegerTy _ => true | _ => false end.
Definition isPointerTy (T : Ty) : bool :=
  match T with PointerTy _ => true | _ => false end.
Definition integerBitWidth (T : Ty) : Z :=
  match T with IntegerTy bits => bits | _ => 0 end.

(** A function of the module: its IR name, its type and its alignment. *)
Record Function : Type := {
  fn_name : string;
  fn_ret : Ty;
  fn_params : list Ty;
  fn_alignment : Z
}.

(** Opcodes of the constant expressions left by the upstream passes. *)
Inductive CEOpcode : Type :=
| CE_BitCast
| CE_PtrToInt
| CE_IntToPtr
| CE_Add (bits : Z) (addend : Z).

(** LLVM values, as far as the code generator tells them apart.  Arguments
    and instructions are known by their names (instructions also by the
    label of their block), so that values may refer to one another in
    cycles, as phi nodes do.  A [ConstantInt] holds its width and its
    zero-extended value. *)
Inductive Value : Type :=
| Argument (name : string) (ty : Ty)
| Instruction (name : string) (ty : Ty) (parent : string)
| IntToPtrInst (name : string) (ty : Ty) (parent : string) (op : Value)
| BitCastInst (name : string) (ty : Ty) (parent : string) (op : Value)
| ConstantInt (bits : Z) (val : Z)
| ConstantPointerNull (ty : Ty)
| UndefValue (ty : Ty)
| FunctionV (F : Function)
| BlockAddress (F : Function) (BB : string)
| GlobalVariable (name : string) (ty : Ty) (hasInitializer : bool)
| GlobalAlias (name : string) (ty : Ty) (aliasee : Value)
| ConstantExpr (opcode : CEOpcode) (ty : Ty) (op0 : Value).

(** [V->getType()]. *)
Definition typeOf (V : Value) : Ty :=
  match V with
  | Argument _ ty | Instruction _ ty _ | IntToPtrInst _ ty _ _
  | BitCastInst _ ty _ _ | ConstantPointerNull ty | UndefValue ty
  | GlobalVariable _ ty _ | GlobalAlias _ ty _ | ConstantExpr _ ty _ => ty
  | ConstantInt bits _ => IntegerTy bits
  | FunctionV _ => PointerTy OtherTy
  | BlockAddress _ _ => PointerTy (IntegerTy 8)
  end.

(** [isa<Constant>(V)]. *)
Definition isConstant (V : Value) : bool :=
  match V with
  | Argument _ _ | Instruction _ _ _ | IntToPtrInst _ _ _ _
  | BitCastInst _ _ _ _ => false
  | _ => true
  end.

(** [V->getName()]. *)
Definition getName (V : Value) : string :=
  match V with
  | Argument name _ | Instruction name _ _ | IntToPtrInst name _ _ _
  | BitCastInst name _ _ _ | GlobalVariable name _ _ | GlobalAlias name _ _ =>
      name
  | FunctionV F => fn_name F
  | _ => ""
  end.

(** The loop of [Value::stripPointerCasts]: bitcasts and aliases are
    looked through. *)
Fixpoint stripPointerCasts_loop (V : Value) : Value :=
  match V with
  | BitCastInst _ _ _ op => stripPointerCasts_loop op
  | ConstantExpr CE_BitCast _ op0 => stripPointerCasts_loop op0
  | GlobalAlias _ _ aliasee => stripPointerCasts_loop aliasee
  | _ => V
  end.

Definition stripPointerCasts (V : Value) : Value :=
  if isPointerTy (typeOf V) then stripPointerCasts_loop V else V.

(** Command-line options of the backend ([cl::opt]). *)
Record Options : Type := {
  PreciseF32 : bool;
  WarnOnUnaligned : bool;
  ReservedFunctionPointers : Z;
  EmscriptenAssertions : Z;
  NoAliasingFunctionPointers : bool;
  GlobalBase : Z
}.

(** The defaults given by [cl::init]. *)
Definition defaultOptions : Options :=
  {| PreciseF32 := false; WarnOnUnaligned := false;
     ReservedFunctionPointers := 0; EmscriptenAssertions := 0;
     NoAliasingFunctionPointers := false; GlobalBase := 8 |}.

(** ** The writer's state *)

(** [Address]: region-relative offset and element bit width. *)
Definition Address : Type := (Z * Z)%type.

Record JSWriter : Type := {
  NextFunctionIndex : Z;
  UsedVars : gmap string Ty;
  GlobalData8 : list Z;
  GlobalData32 : list Z;
  GlobalData64 : list Z;
  GlobalAddresses : gmap string Address;
  Externals : gset string;
  Declares : gset string;
  Redirects : gmap string string;
  PostSets : string;
  IndexedFunctions : gmap string Z;
  FunctionTables : gmap string (list string);
  BlockAddresses : gmap string (gmap string Z);
  UsesSIMD : bool
}.

(** The state built by the constructor. *)
Definition initialWriter : JSWriter :=
  {| NextFunctionIndex := 0; UsedVars := ∅;
     GlobalData8 := []; GlobalData32 := []; GlobalData64 := [];
     GlobalAddresses := ∅; Externals := ∅; Declares := ∅; Redirects := ∅;
     PostSets := ""; IndexedFunctions := ∅; FunctionTables := ∅;
     BlockAddresses := ∅; UsesSIMD := false |}.

(** Outcome of a step that may stop in [report_fatal_error], a failed
    [assert] or [llvm_unreachable]. *)
Inductive result (A : Type) : Type :=
| Ok (a : A)
| Fatal (msg : string).
Arguments Ok {A} a.
Arguments Fatal {A} msg.

(** Stateful, fallible computations of the writer. *)
Definition M (A : Type) : Type := JSWriter -> result (A * JSWriter).

Definition ret {A} (a : A) : M A := fun w => Ok (a, w).
Definition bind {A B} (c : M A) (k : A -> M B) : M B :=
  fun w => match c w with
           | Ok (a, w') => k a w'
           | Fatal msg => Fatal msg
           end.
Definition fatal {A} (msg : string) : M A := fun _ => Fatal msg.
Definition get : M JSWriter := fun w => Ok (w, w).
Definition modify (f : JSWriter -> JSWriter) : M unit := fun w => Ok (tt, f w).
Definition assert (b : bool) (msg : string) : M unit :=
  if b then ret tt else fatal msg.

Notation "'let*' x ':=' c 'in' k" := (bind c (fun x => k))
  (at level 10, x pattern, c at level 100, k at level 200, only parsing).

(** Field updates, one per member of the writer. *)
Definition with_NextFunctionIndex (x : Z) (w : JSWriter) : JSWriter :=
  {| NextFunctionIndex := x; UsedVars := UsedVars w;
     GlobalData8 := GlobalData8 w; GlobalData32 := GlobalData32 w;
     GlobalData64 := GlobalData64 w; GlobalAddresses := GlobalAddresses w;
     Externals := Externals w; Declares := Declares w;
     Redirects := Redirects w; PostSets := PostSets w;
     IndexedFunctions := IndexedFunctions w;
     FunctionTables := FunctionTables w; BlockAddresses := BlockAddresses w;
     UsesSIMD := UsesSIMD w |}.
Definition with_UsedVars (x : gmap string Ty) (w : JSWriter) : JSWriter :=
  {| NextFunctionIndex := NextFunctionIndex w; UsedVars := x;
     GlobalData8 := GlobalData8 w; GlobalData32 := GlobalData32 w;
     GlobalData64 := GlobalData64 w; GlobalAddresses := GlobalAddresses w;
     Externals := Externals w; Declares := Declares w;
     Redirects := Redirects w; PostSets := PostSets w;
     IndexedFunctions := IndexedFunctions w;
     FunctionTables := FunctionTables w; BlockAddresses := BlockAddresses w;
     UsesSIMD := UsesSIMD w |}.
Definition with_GlobalData8 (x : list Z) (w : JSWriter) : JSWriter :=
  {| NextFunctionIndex := NextFunctionIndex w; UsedVars := UsedVars w;
     GlobalData8 := x; GlobalData32 := GlobalData32 w;
     GlobalData64 := GlobalData64 w; GlobalAddresses := GlobalAddresses w;
     Externals := Externals w; Declares := Declares w;
     Redirects := Redirects w; PostSets := PostSets w;
     IndexedFunctions := IndexedFunctions w;
     FunctionTables := FunctionTables w; BlockAddresses := BlockAddresses w;
     UsesSIMD := UsesSIMD w |}.
Definition with_GlobalData32 (x : list Z) (w : JSWriter) : JSWriter :=
  {| NextFunctionIndex := NextFunctionIndex w; UsedVars := UsedVars w;
     GlobalData8 := GlobalData8 w; GlobalData32 := x;
     GlobalData64 := GlobalData64 w; GlobalAddresses := GlobalAddresses w;
     Externals := Externals w; Declares := Declares w;
     Redirects := Redirects w; PostSets := PostSets w;
     IndexedFunctions := IndexedFunctions w;
     FunctionTables := FunctionTables w; BlockAddresses := BlockAddresses w;
     UsesSIMD := UsesSIMD w |}.
Definition with_GlobalData64 (x : list Z) (w : JSWriter) : JSWriter :=
  {| NextFunctionIndex := NextFunctionIndex w; UsedVars := UsedVars w;
     GlobalData8 := GlobalData8 w; GlobalData32 := GlobalData32 w;
     GlobalData64 := x; GlobalAddresses := GlobalAddresses w;
     Externals := Externals w; Declares := Declares w;
     Redirects := Redirects w; PostSets := PostSets w;
     IndexedFunctions := IndexedFunctions w;
     FunctionTables := FunctionTables w; BlockAddresses := BlockAddresses w;
     UsesSIMD := UsesSIMD w |}.
Definition with_GlobalAddresses (x : gmap string Address) (w : JSWriter) : JSWriter :=
  {| NextFunctionIndex := NextFunctionIndex w; UsedVars := UsedVars w;
     GlobalData8 := GlobalData8 w; GlobalData32 := GlobalData32 w;
     GlobalData64 := GlobalData64 w; GlobalAddresses := x;
     Externals := Externals w; Declares := Declares w;
     Redirects := Redirects w; PostSets := PostSets w;
     IndexedFunctions := IndexedFunctions w;
     FunctionTables := FunctionTables w; BlockAddresses := BlockAddresses w;
     UsesSIMD := UsesSIMD w |}.
Definition with_Externals (x : gset string) (w : JSWriter) : JSWriter :=
  {| NextFunctionIndex := NextFunctionIndex w; UsedVars := UsedVars w;
     GlobalData8 := GlobalData8 w; GlobalData32 := GlobalData32 w;
     GlobalData64 := GlobalData64 w; GlobalAddresses := GlobalAddresses w;
     Externals := x; Declares := Declares w; Redirects := Redirects w;
     PostSets := PostSets w; IndexedFunctions := IndexedFunctions w;
     FunctionTables := FunctionTables w; BlockAddresses := BlockAddresses w;
     UsesSIMD := UsesSIMD w |}.
Definition with_Declares (x : gset string) (w : JSWriter) : JSWriter :=
  {| NextFunctionIndex := NextFunctionIndex w; UsedVars := UsedVars w;
     GlobalData8 := GlobalData8 w; GlobalData32 := GlobalData32 w;
     GlobalData64 := GlobalData64 w; GlobalAddresses := GlobalAddresses w;
     Externals := Externals w; Declares := x; Redirects := Redirects w;
     PostSets := PostSets w; IndexedFunctions := IndexedFunctions w;
     FunctionTables := FunctionTables w; BlockAddresses := BlockAddresses w;
     UsesSIMD := UsesSIMD w |}.
Definition with_Redirects (x : gmap string string) (w : JSWriter) : JSWriter :=
  {| NextFunctionIndex := NextFunctionIndex w; UsedVars := UsedVars w;
     GlobalData8 := GlobalData8 w; GlobalData32 := GlobalData32 w;
     GlobalData64 := GlobalData64 w; GlobalAddresses := GlobalAddresses w;
     Externals := Externals w; Declares := Declares w; Redirects := x;
     PostSets := PostSets w; IndexedFunctions := IndexedFunctions w;
     FunctionTables := FunctionTables w; BlockAddresses := BlockAddresses w;
     UsesSIMD := UsesSIMD w |}.
Definition with_PostSets (x : string) (w : JSWriter) : JSWriter :=
  {| NextFunctionIndex := NextFunctionIndex w; UsedVars := UsedVars w;
     GlobalData8 := GlobalData8 w; GlobalData32 := GlobalData32 w;
     GlobalData64 := GlobalData64 w; GlobalAddresses := GlobalAddresses w;
     Externals := Externals w; Declares := Declares w;
     Redirects := Redirects w; PostSets := x;
     IndexedFunctions := IndexedFunctions w;
     FunctionTables := FunctionTables w; BlockAddresses := BlockAddresses w;
     UsesSIMD := UsesSIMD w |}.
Definition with_IndexedFunctions (x : gmap string Z) (w : JSWriter) : JSWriter :=
  {| NextFunctionIndex := NextFunctionIndex w; UsedVars := UsedVars w;
     GlobalData8 := GlobalData8 w; GlobalData32 := GlobalData32 w;
     GlobalData64 := GlobalData64 w; GlobalAddresses := GlobalAddresses w;
     Externals := Externals w; Declares := Declares w;
     Redirects := Redirects w; PostSets := PostSets w; IndexedFunctions := x;
     FunctionTables := FunctionTables w; BlockAddresses := BlockAddresses w;
     UsesSIMD := UsesSIMD w |}.
Definition with_FunctionTables (x : gmap string (list string)) (w : JSWriter) : JSWriter :=
  {| NextFunctionIndex := NextFunctionIndex w; UsedVars := UsedVars w;
     GlobalData8 := GlobalData8 w; GlobalData32 := GlobalData32 w;
     GlobalData64 := GlobalData64 w; GlobalAddresses := GlobalAddresses w;
     Externals := Externals w; Declares := Declares w;
     Redirects := Redirects w; PostSets := PostSets w;
     IndexedFunctions := IndexedFunctions w; FunctionTables := x;
     BlockAddresses := BlockAddresses w; UsesSIMD := UsesSIMD w |}.
Definition with_BlockAddresses (x : gmap string (gmap string Z)) (w : JSWriter) : JSWriter :=
  {| NextFunctionIndex := NextFunctionIndex w; UsedVars := UsedVars w;
     GlobalData8 := GlobalData8 w; GlobalData32 := GlobalData32 w;
     GlobalData64 := GlobalData64 w; GlobalAddresses := GlobalAddresses w;
     Externals := Externals w; Declares := Declares w;
     Redirects := Redirects w; PostSets := PostSets w;
     IndexedFunctions := IndexedFunctions w;
     FunctionTables := FunctionTables w; BlockAddresses := x;
     UsesSIMD := UsesSIMD w |}.
Definition with_UsesSIMD (x : bool) (w : JSWriter) : JSWriter :=
  {| NextFunctionIndex := NextFunctionIndex w; UsedVars := UsedVars w;
     GlobalData8 := GlobalData8 w; GlobalData32 := GlobalData32 w;
     GlobalData64 := GlobalData64 w; GlobalAddresses := GlobalAddresses w;
     Externals := Externals w; Declares := Declares w;
     Redirects := Redirects w; PostSets := PostSets w;
     IndexedFunctions := IndexedFunctions w;
     FunctionTables := FunctionTables w; BlockAddresses := BlockAddresses w;
     UsesSIMD := x |}.

(** ** Function-pointer indexer, global addresses, constants *)

(** [while (Table.size() < n) Table.push_back("0")]. *)
Definition push_until (n : Z) (Table : list string) : list string :=
  Table ++ replicate (Z.to_nat (n - Z.of_nat (length Table))) "0".

(** [while (Table.size() % Alignment) Table.push_back("0")]. *)
Definition push_while_unaligned (Alignment : Z) (Table : list string)
  : list string :=
  Table ++ replicate
    (Z.to_nat ((Alignment - Z.of_nat (length Table) mod Alignment) mod Alignment))
    "0".

(** The loop [unsigned Size = 1; while (Size < n) Size <<= 1;] on a 32-bit
    [Size].  When [n] exceeds [2^31] the shift wraps to 0 and the loop never
    ends; [None] stands for that. *)
Fixpoint tableSize_loop (fuel : nat) (Size n : Z) : option Z :=
  if Size <? n then
    match fuel with
    | O => None
    | S fuel' => tableSize_loop fuel' (wrap32 (Z.shiftl Size 1)) n
    end
  else Some Size.

Definition tableSize (n : Z) : option Z := tableSize_loop 33 1 n.

(** The "ensure power of two" step of [printModuleBody] on one table. *)
Definition padTable (Table : list string) : option (list string) :=
  match tableSize (Z.of_nat (length Table)) with
  | Some Size => Some (push_until Size Table)
  | None => None
  end.

(** [Out << Table[i]] separated by commas. *)
Fixpoint commaSeparated (Table : list string) : string :=
  match Table with
  | [] => ""
  | [x] => x
  | x :: rest => x +:+ "," +:+ commaSeparated rest
  end.

(** What a call handler does when [getFunctionIndex] runs it without a call
    site.  Modelled from the spec: [CallHandlers.h] is not among the sources;
    a handler run in "indexed-only" mode registers declares and redirects,
    so it is a transformer of those two members only. *)
Definition Handler : Type :=
  gset string * gmap string string -> gset string * gmap string string.

Definition runHandler (h : Handler) (w : JSWriter) : JSWriter :=
  let '(d, r) := h (Declares w, Redirects w) in
  with_Redirects r (with_Declares d w).

Section Writer.

Context (opts : Options).
Context (CallHandlers : string -> option Handler).

(** [getJSName] of a named constant (function or global): the name is
    computed by [sanitizeGlobal] and cached, so every call gives the same
    string. *)
Definition getJSName_global (name : string) : string :=
  Mangle.sanitizeGlobal name.

(** [getJSName] of a named argument or instruction. *)
Definition getJSName_local (name : string) : string :=
  Mangle.sanitizeLocal name.

(** [checkVectorType] on a represented vector type: the assertions hold. *)
Definition checkVectorType (w : JSWriter) : JSWriter := with_UsesSIMD true w.

Definition getFunctionSignatureLetter (T : Ty) (w : JSWriter)
  : ascii * JSWriter :=
  match T with
  | VoidTy => ("v"%char, w)
  | FloatTy => (if PreciseF32 opts then "f"%char else "d"%char, w)
  | DoubleTy => ("d"%char, w)
  | VectorTy intElems =>
      (if intElems then "I"%char else "F"%char, checkVectorType w)
  | _ => ("i"%char, w)
  end.

Fixpoint getFunctionSignature_params (params : list Ty) (w : JSWriter)
  : string * JSWriter :=
  match params with
  | [] => ("", w)
  | T :: rest =>
      let '(c, w1) := getFunctionSignatureLetter T w in
      let '(s, w2) := getFunctionSignature_params rest w1 in
      (String c s, w2)
  end.

Definition getFunctionSignature (F : Function) (w : JSWriter)
  : string * JSWriter :=
  let '(c, w1) := getFunctionSignatureLetter (fn_ret F) w in
  let '(s, w2) := getFunctionSignature_params (fn_params F) w1 in
  (String c s, w2).

(** [MinSize] of [ensureFunctionTable]: an [int] expression converted to
    [unsigned]. *)
Definition MinSize : Z :=
  if ReservedFunctionPointers opts =? 0 then 1
  else wrap32 (2 * (ReservedFunctionPointers opts + 1)).

(** [ensureFunctionTable]; [FunctionTables[sig]] creates an empty table when
    there is none.  Returns the key of the table it ensured. *)
Definition ensureFunctionTable (F : Function) (w : JSWriter)
  : string * JSWriter :=
  let '(sig, w1) := getFunctionSignature F w in
  let Table := default [] (FunctionTables w1 !! sig) in
  (sig, with_FunctionTables
          (<[sig := push_until MinSize Table]> (FunctionTables w1)) w1).

Definition getFunctionIndex (F : Function) (w : JSWriter) : Z * JSWriter :=
  let Name := getJSName_global (fn_name F) in
  match IndexedFunctions w !! Name with
  | Some Index => (Index, w)
  | None =>
      let '(_, w1) := getFunctionSignature F w in
      let '(sig, w2) := ensureFunctionTable F w1 in
      let Table := default [] (FunctionTables w2 !! sig) in
      let Table1 :=
        if NoAliasingFunctionPointers opts
        then push_until (NextFunctionIndex w2) Table else Table in
      (* F->getAlignment() || 1 *)
      let Alignment := Z.b2z (negb (fn_alignment F =? 0) || true) in
      let Table2 := push_while_unaligned Alignment Table1 in
      let Index := wrap32 (Z.of_nat (length Table2)) in
      let w3 := with_FunctionTables
                  (<[sig := Table2 ++ [Name]]> (FunctionTables w2)) w2 in
      let w4 := with_IndexedFunctions
                  (<[Name := Index]> (IndexedFunctions w3)) w3 in
      let w5 := if NoAliasingFunctionPointers opts
                then with_NextFunctionIndex (wrap32 (Index + 1)) w4 else w4 in
      let w6 := match CallHandlers Name with
                | Some h => runHandler h w5
                | None => w5
                end in
      (Index, w6)
  end.

(** The table part of [printModuleBody] for one entry of [FunctionTables]:
    the table is padded in place and printed.  [None]: the sizing loop does
    not end. *)
Definition emitTable (sig : string) (Table : list string)
  : option (string * list string) :=
  match padTable Table with
  | Some Table' =>
      Some ("  " +:+ dquote +:+ sig +:+ dquote +:+ ": " +:+ dquote
              +:+ "var FUNCTION_TABLE_" +:+ sig +:+ " = ["
              +:+ commaSeparated Table' +:+ "];" +:+ dquote,
            Table')
  | None => None
  end.

(** The statements of the writer that read or write the dispatch tables:
    [ensureFunctionTable], [getFunctionIndex], the emission of a table, and
    everything else, which leaves the indexer's members alone. *)
Inductive table_step : JSWriter -> JSWriter -> Prop :=
| ts_ensure (F : Function) (w : JSWriter) :
    table_step w (ensureFunctionTable F w).2
| ts_index (F : Function) (w : JSWriter) :
    table_step w (getFunctionIndex F w).2
| ts_emit (sig : string) (Table Table' : list string) (text : string)
    (w : JSWriter) :
    FunctionTables w !! sig = Some Table ->
    emitTable sig Table = Some (text, Table') ->
    table_step w (with_FunctionTables (<[sig := Table']> (FunctionTables w)) w)
| ts_other (w w' : JSWriter) :
    FunctionTables w' = FunctionTables w ->
    IndexedFunctions w' = IndexedFunctions w ->
    NextFunctionIndex w' = NextFunctionIndex w ->
    table_step w w'.

(** States the writer can be in, as far as the tables are concerned. *)
Definition tables_reachable (w : JSWriter) : Prop :=
  rtc table_step initialWriter w.

(** No table has outgrown what an [unsigned] index can address. *)
Definition tables_bounded (w : JSWriter) : Prop :=
  forall sig Table,
    FunctionTables w !! sig = Some Table -> Z.of_nat (length Table) < 2^32.

(** *** Global addresses *)

(** The three heap regions a global can live in. *)
Inductive Region : Type := Heap8 | Heap32 | Heap64.

Definition regionData (r : Region) (w : JSWriter) : list Z :=
  match r with
  | Heap8 => GlobalData8 w
  | Heap32 => GlobalData32 w
  | Heap64 => GlobalData64 w
  end.

Definition with_regionData (r : Region) (data : list Z) (w : JSWriter)
  : JSWriter :=
  match r with
  | Heap8 => with_GlobalData8 data w
  | Heap32 => with_GlobalData32 data w
  | Heap64 => with_GlobalData64 data w
  end.

(** [GlobalData->push_back(b)] on the region [allocateAddress] returned. *)
Definition push_back (r : Region) (b : Z) (w : JSWriter) : JSWriter :=
  with_regionData r (regionData r w ++ [b]) w.

(** [while (GlobalData->size() % m != 0) GlobalData->push_back(0)]. *)
Definition pad_to_multiple (m : Z) (data : list Z) : list Z :=
  data ++ replicate (Z.to_nat ((m - Z.of_nat (length data) mod m) mod m)) 0.

Definition allocateAddress (Name : string) (Bits : Z) : M Region :=
  let* _ := assert (Bits =? 64) "Bits == 64" in
  let* r := (if Bits =? 8 then ret Heap8
             else if Bits =? 32 then ret Heap32
             else if Bits =? 64 then ret Heap64
             else fatal "Unsupported data element size") in
  let* w := get in
  let data := pad_to_multiple (Bits / 8) (regionData r w) in
  let* _ := modify (fun w =>
            with_GlobalAddresses
              (<[Name := (wrap32 (Z.of_nat (length data)), Bits)]>
                 (GlobalAddresses w))
              (with_regionData r data w)) in
  ret r.

(** The sizes of the regions emitted before the region of width [Bits]:
    nothing before HEAP64, HEAP64 before HEAP32, both before HEAP8. *)
Definition precedingRegions (Bits : Z) (w : JSWriter) : Z :=
  if Bits =? 64 then 0
  else if Bits =? 32 then Z.of_nat (length (GlobalData64 w))
  else Z.of_nat (length (GlobalData64 w)) + Z.of_nat (length (GlobalData32 w)).

(** [getGlobalAddress]: the absolute offset of a global.  Sums are taken in
    [unsigned] (with [size_t] operands where a size is added) and stored in
    an [unsigned]. *)
Definition getGlobalAddress (s : string) : M Z :=
  let* w := get in
  match GlobalAddresses w !! s with
  | None => fatal ("cannot find global address " +:+ s)
  | Some (first, second) =>
      let* _ := assert (second =? 64) "a.second == 64" in
      if second =? 64 then
        let* _ := assert (wrap32 (first + GlobalBase opts) mod 8 =? 0)
               "(a.first + GlobalBase)%8 == 0" in
        ret (wrap32 (first + GlobalBase opts))
      else if second =? 32 then
        let* _ := assert (wrap32 (first + GlobalBase opts) mod 4 =? 0)
               "(a.first + GlobalBase)%4 == 0" in
        ret (wrap32 (wrap32 (first + GlobalBase opts)
                     + Z.of_nat (length (GlobalData64 w))))
      else if second =? 8 then
        ret (wrap32 (wrap32 (first + GlobalBase opts)
                     + Z.of_nat (length (GlobalData64 w))
                     + Z.of_nat (length (GlobalData32 w))))
      else fatal ("bad global address " +:+ s)
  end.

(** [getRelativeGlobalAddress]: the offset inside the region. *)
Definition getRelativeGlobalAddress (s : string) : M Z :=
  let* w := get in
  match GlobalAddresses w !! s with
  | None => fatal ("cannot find global address " +:+ s)
  | Some (first, _) => ret first
  end.

(** The calculate phase of [parseConstant] for a constant whose bytes are
    known at once (a string, an integer, a float, zeros): the global is
    allocated with the default width and its bytes are pushed. *)
Definition allocateBytes (name : string) (bytes : list Z) : M unit :=
  let* r := allocateAddress name 64 in
  modify (fun w => foldl (fun w b => push_back r b w) w bytes).

(** The statements of the writer that touch the heap regions and the
    address map: an allocation, a [push_back] on a region, the in-place
    store [GlobalData64[Offset] = b] of the emit phase (guarded by its
    assertion), and everything else, which leaves them alone. *)
Inductive heap_step : JSWriter -> JSWriter -> Prop :=
| hs_allocate (Name : string) (Bits : Z) (r : Region) (w w' : JSWriter) :
    allocateAddress Name Bits w = Ok (r, w') -> heap_step w w'
| hs_push (r : Region) (b : Z) (w : JSWriter) :
    heap_step w (push_back r b w)
| hs_store (Offset : nat) (b : Z) (w : JSWriter) :
    (Offset < length (GlobalData64 w))%nat ->
    heap_step w (with_GlobalData64 (<[Offset := b]> (GlobalData64 w)) w)
| hs_other (w w' : JSWriter) :
    GlobalData8 w' = GlobalData8 w ->
    GlobalData32 w' = GlobalData32 w ->
    GlobalData64 w' = GlobalData64 w ->
    GlobalAddresses w' = GlobalAddresses w ->
    heap_step w w'.

Definition heap_reachable (w : JSWriter) : Prop :=
  rtc heap_step initialWriter w.

(** What every recorded address satisfies. *)
Definition addresses_ok (w : JSWriter) : Prop :=
  forall G first second,
    GlobalAddresses w !! G = Some (first, second) ->
    second = 64 /\ first mod 8 = 0 /\ 0 <= first < 2^32.

(** *** Constants written into globals *)

(** [getBlockAddress]: blocks are numbered from 0 in the order in which
    their addresses are first asked for. *)
Definition getBlockAddress (F : Function) (BB : string) : M Z :=
  let* w := get in
  let Blocks := default ∅ (BlockAddresses w !! fn_name F) in
  match Blocks !! BB with
  | Some Index => ret Index
  | None =>
      let Index := wrap32 (Z.of_nat (size Blocks)) in
      let* _ := modify (with_BlockAddresses
                (<[fn_name F := <[BB := Index]> Blocks]> (BlockAddresses w))) in
      ret Index
  end.

(** [resolveFully]: aliases are replaced by their aliasee and constant
    expressions by their first operand, until neither applies. *)
Fixpoint resolveFully (V : Value) : Value :=
  match V with
  | GlobalAlias _ _ aliasee => resolveFully aliasee
  | ConstantExpr _ _ op0 => resolveFully op0
  | _ => V
  end.

(** [getOpName], i.e. [getJSName]: constants are mangled as globals, other
    values as locals. *)
Definition getOpName (V : Value) : string :=
  if isConstant V then getJSName_global (getName V)
  else getJSName_local (getName V).

Definition getConstAsOffset (V : Value) (AbsoluteTarget : Z) : M Z :=
  let V := resolveFully V in
  match V with
  | FunctionV F => fun w => Ok (getFunctionIndex F w)
  | BlockAddress F BB => getBlockAddress F BB
  | GlobalVariable _ _ false =>
      let Name := getOpName V in
      let* _ := modify (fun w => with_Externals ({[Name]} ∪ Externals w) w) in
      let* _ := modify (fun w =>
                with_PostSets
                  (PostSets w +:+ "HEAP32["
                     +:+ utostr (Z.shiftr AbsoluteTarget 2) +:+ "] = "
                     +:+ Name +:+ ";") w) in
      ret 0
  | _ => getGlobalAddress (getName V)
  end.

(** *** Casts and the lowering of values *)

(** [AsmCast] flags. *)
Definition AsmCast : Type := Z.
Definition ASM_SIGNED : AsmCast := 0.
Definition ASM_UNSIGNED : AsmCast := 1.
Definition ASM_NONSPECIFIC : AsmCast := 2.
Definition ASM_FFI_IN : AsmCast := 4.
Definition ASM_FFI_OUT : AsmCast := 8.
Definition ASM_MUST_CAST : AsmCast := 16.

(** [sign & flag] as a condition. *)
Definition has_flag (sign flag : AsmCast) : bool :=
  negb (Z.land sign flag =? 0).

(** The 32-bit case of [getCast], shared with pointers. *)
Definition getCast32 (s : string) (sign : AsmCast) : string :=
  if (sign =? ASM_SIGNED) || has_flag sign ASM_NONSPECIFIC
  then s +:+ "|0" else s +:+ ">>>0".

(** [getCast].  The integer cases fall through to the 32-bit case when the
    cast is nonspecific. *)
Definition getCast (s : string) (t : Ty) (sign : AsmCast) : result string :=
  match t with
  | VectorTy intElems =>
      Ok (if intElems then "SIMD_int32x4_check(" +:+ s +:+ ")"
          else "SIMD_float32x4_check(" +:+ s +:+ ")")
  | FloatTy =>
      if PreciseF32 opts && negb (has_flag sign ASM_FFI_OUT) then
        if has_flag sign ASM_FFI_IN
        then Ok ("Math_fround(+(" +:+ s +:+ "))")
        else Ok ("Math_fround(" +:+ s +:+ ")")
      else Ok ("+" +:+ s)
  | DoubleTy => Ok ("+" +:+ s)
  | IntegerTy bits =>
      if bits =? 1 then
        if negb (has_flag sign ASM_NONSPECIFIC) then
          Ok (if sign =? ASM_UNSIGNED then s +:+ "&1" else s +:+ "<<31>>31")
        else Ok (getCast32 s sign)
      else if bits =? 8 then
        if negb (has_flag sign ASM_NONSPECIFIC) then
          Ok (if sign =? ASM_UNSIGNED then s +:+ "&255" else s +:+ "<<24>>24")
        else Ok (getCast32 s sign)
      else if bits =? 16 then
        if negb (has_flag sign ASM_NONSPECIFIC) then
          Ok (if sign =? ASM_UNSIGNED then s +:+ "&65535" else s +:+ "<<16>>16")
        else Ok (getCast32 s sign)
      else if bits =? 32 then Ok (getCast32 s sign)
      else Fatal "Unsupported integer cast bitwidth"
  | PointerTy _ => Ok (getCast32 s sign)
  | _ => Fatal "Unsupported type"
  end.

Definition getParenCast (s : string) (t : Ty) (sign : AsmCast)
  : result string :=
  getCast ("(" +:+ s +:+ ")") t sign.

(** A fallible step inside the writer's computations. *)
Definition liftR {A} (r : result A) : M A :=
  fun w => match r with Ok a => Ok (a, w) | Fatal msg => Fatal msg end.

(** [APInt::getSExtValue] of a [bits]-wide integer held zero-extended. *)
Definition getSExtValue (bits val : Z) : Z :=
  if val <? 2^(bits - 1) then val else val - 2^bits.

(** [APInt::toString(10, Signed)]. *)
Definition APInt_toString (bits val : Z) (Signed : bool) : string :=
  if Signed then itostr (getSExtValue bits val) else utostr val.

(** The [ConstantInt] case of [getConstant]. *)
Definition getConstantInt (bits val : Z) (sign : AsmCast) : string :=
  let sign := if negb (sign =? ASM_UNSIGNED) && (bits =? 1)
              then ASM_UNSIGNED else sign in
  APInt_toString bits val (negb (sign =? ASM_UNSIGNED)).

(** The [UndefValue] case of [getConstant]. *)
Definition getConstantUndef (ty : Ty) (sign : AsmCast) : M string :=
  match ty with
  | VectorTy intElems =>
      let* _ := modify checkVectorType in
      ret (if intElems then "SIMD_int32x4_splat(0)"
           else "SIMD_float32x4_splat(Math_fround(0))")
  | _ =>
      let Str := if isFloatingPointTy ty then "+0" else "0" in
      if PreciseF32 opts && isFloatTy ty && negb (has_flag sign ASM_FFI_OUT)
      then ret ("Math_fround(" +:+ Str +:+ ")") else ret Str
  end.

(** The check at the head of [generateExpression]. *)
Definition checkLegal (T : Ty) : M unit :=
  match T with
  | IntegerTy bits =>
      if 32 <? bits then fatal "legalization problem" else ret tt
  | _ => ret tt
  end.

(** [getValueAsStr], with [getConstant] and the constant-expression cases of
    [generateExpression] it reaches.  [stripPointerCasts] is folded into
    the recursion: a pointer-typed bitcast or an alias is lowered as its
    operand (the operand of a pointer cast is itself a pointer).  Values
    are named, so [getJSName] is the mangling of the name. *)
Fixpoint getValueAsStr (V : Value) (sign : AsmCast) {struct V} : M string :=
  match V with
  | Argument name _ | Instruction name _ _ | IntToPtrInst name _ _ _ =>
      ret (getJSName_local name)
  | BitCastInst name ty _ op =>
      if isPointerTy ty then getValueAsStr op sign
      else ret (getJSName_local name)
  | ConstantPointerNull _ => ret "0"
  | FunctionV F =>
      let* Index := (fun w => Ok (getFunctionIndex F w)) in
      ret (utostr Index)
  | GlobalVariable name _ hasInitializer =>
      if negb hasInitializer then
        let Name := getJSName_global name in
        let* _ := modify (fun w => with_Externals ({[Name]} ∪ Externals w) w) in
        ret Name
      else
        let* Addr := getGlobalAddress name in
        ret (utostr Addr)
  | GlobalAlias _ _ aliasee => getValueAsStr aliasee sign
  | ConstantInt bits val => ret (getConstantInt bits val sign)
  | UndefValue ty => getConstantUndef ty sign
  | BlockAddress F BB =>
      let* Index := getBlockAddress F BB in
      ret (utostr Index)
  | ConstantExpr opcode ty op0 =>
      match opcode with
      | CE_BitCast =>
          if isPointerTy ty then getValueAsStr op0 sign
          else
            let* _ := checkLegal ty in
            let InType := typeOf op0 in
            let* V := getValueAsStr op0 ASM_SIGNED in
            if isIntegerTy InType && isFloatingPointTy ty then
              let* _ := assert (integerBitWidth InType =? 32)
                          "InType->getIntegerBitWidth() == 32" in
              let* c := liftR (getCast "HEAPF32[tempDoublePtr>>2]" FloatTy
                                 ASM_SIGNED) in
              ret ("((HEAP32[tempDoublePtr>>2]=" +:+ V +:+ "," +:+ c +:+ "))")
            else if isIntegerTy ty && isFloatingPointTy InType then
              let* _ := assert (integerBitWidth ty =? 32)
                          "OutType->getIntegerBitWidth() == 32" in
              ret ("((HEAPF32[tempDoublePtr>>2]=" +:+ V
                     +:+ ",HEAP32[tempDoublePtr>>2]|0))")
            else ret ("(" +:+ V +:+ ")")
      | CE_PtrToInt | CE_IntToPtr =>
          let* _ := checkLegal ty in
          let* V := getValueAsStr op0 ASM_SIGNED in
          ret ("(" +:+ V +:+ ")")
      | CE_Add bits addend =>
          let* _ := checkLegal ty in
          let* V0 := getValueAsStr op0 ASM_SIGNED in
          let P0 := if isConstant (stripPointerCasts op0) then V0
                    else "(" +:+ V0 +:+ ")" in
          let P1 := getConstantInt bits addend ASM_SIGNED in
          let* c := liftR (getParenCast (P0 +:+ " + " +:+ P1) ty ASM_SIGNED) in
          ret ("(" +:+ c +:+ ")")
      end
  end.

(** [isa<ConstantInt>(V) || isa<ConstantFP>(V)] (no [ConstantFP] is
    represented). *)
Definition isConstantInt (V : Value) : bool :=
  match V with ConstantInt _ _ => true | _ => false end.

Definition isUndefValue (V : Value) : bool :=
  match V with UndefValue _ => true | _ => false end.


Definition getValueAsParenStr (V : Value) : M string :=
  let V := stripPointerCasts V in
  if isConstant V then getValueAsStr V ASM_SIGNED
  else
    let* Str := getValueAsStr V ASM_SIGNED in
    ret ("(" +:+ Str +:+ ")").

Definition getValueAsCastParenStr (V : Value) (sign : AsmCast) : M string :=
  let V := stripPointerCasts V in
  if isConstantInt V || isUndefValue V then getValueAsStr V sign
  else
    let* Str := getValueAsStr V ASM_SIGNED in
    let* c := liftR (getCast Str (typeOf V) sign) in
    ret ("(" +:+ c +:+ ")").

(** [getAdHocAssign]: the variable is recorded as used. *)
Definition getAdHocAssign (s : string) (t : Ty) : M string :=
  let* _ := modify (fun w => with_UsedVars (<[s := t]> (UsedVars w)) w) in
  ret (s +:+ " = ").

(** [getAssign] of an instruction. *)
Definition getAssign (I : Value) : M string :=
  getAdHocAssign (getJSName_local (getName I)) (typeOf I).

(** *** Multiplication *)

(** The loop of [getIMul] over the bits of a non-zero constant [C], from the
    lowest: each turn shifts [C] right and counts.  It stops at a set bit:
    if that is the only bit left the constant is a power of two and the
    count is the shift to emit, otherwise the loop breaks. *)
Fixpoint getIMul_loop (C : positive) (Shifts : Z) : option Z :=
  match C with
  | xH => Some Shifts
  | xO C' => getIMul_loop C' (Shifts + 1)
  | xI _ => None
  end.

(** The choice of the constant operand: the first operand if it is a
    [ConstantInt], else the second if that one is. *)
Definition getIMul_constant (V1 V2 : Value) : option (Z * Z * Value) :=
  match V1 with
  | ConstantInt bits val => Some (bits, val, V2)
  | _ =>
      match V2 with
      | ConstantInt bits val => Some (bits, val, V1)
      | _ => None
      end
  end.

(** The last line of [getIMul]. *)
Definition getIMul_imul (V1 V2 : Value) : M string :=
  let* S1 := getValueAsStr V1 ASM_SIGNED in
  let* S2 := getValueAsStr V2 ASM_SIGNED in
  ret ("Math_imul(" +:+ S1 +:+ ", " +:+ S2 +:+ ")|0").

Definition getIMul (V1 V2 : Value) : M string :=
  match getIMul_constant V1 V2 with
  | Some (_, val, Other) =>
      let* OtherStr := getValueAsStr Other ASM_SIGNED in
      let C := wrap32 val in
      if C =? 0 then ret "0"
      else if C =? 1 then ret OtherStr
      else
        match C with
        | Zpos p =>
            match getIMul_loop p 0 with
            | Some Shifts => ret (OtherStr +:+ "<<" +:+ utostr Shifts)
            | None =>
                if C <? Z.shiftl 1 20
                then ret ("(" +:+ OtherStr +:+ "*" +:+ utostr C +:+ ")|0")
                else getIMul_imul V1 V2
            end
        | _ => getIMul_imul V1 V2
        end
  | None => getIMul_imul V1 V2
  end.

(** *** Loads and stores *)

Context (DL : Ty -> Z).

(** [isAbsolute]. *)
Definition isAbsolute (P : Value) : bool :=
  match P with
  | IntToPtrInst _ _ _ op => isConstantInt op
  | ConstantPointerNull _ | UndefValue _ => true
  | _ => false
  end.

(** [cast<PointerType>(Ptr->getType())->getElementType()]. *)
Definition elementType (Ptr : Value) : M Ty :=
  match typeOf Ptr with
  | PointerTy elem => ret elem
  | _ => fatal "cast<PointerType>"
  end.

Definition getHeapAccess (Name : string) (Bytes : Z) (Integer : bool)
  : result string :=
  if Bytes =? 8 then Ok ("HEAPF64[" +:+ Name +:+ ">>3]")
  else if Bytes =? 4 then
    if Integer then Ok ("HEAP32[" +:+ Name +:+ ">>2]")
    else Ok ("HEAPF32[" +:+ Name +:+ ">>2]")
  else if Bytes =? 2 then Ok ("HEAP16[" +:+ Name +:+ ">>1]")
  else if Bytes =? 1 then Ok ("HEAP8[" +:+ Name +:+ ">>0]")
  else Fatal "Unsupported type".

Definition getPtrUse (Ptr : Value) : M string :=
  let* t := elementType Ptr in
  let Bytes := DL t in
  match Ptr with
  | GlobalVariable name _ _ =>
      let* Addr := getGlobalAddress name in
      if Bytes =? 8 then ret ("HEAPF64[" +:+ utostr (Z.shiftr Addr 3) +:+ "]")
      else if Bytes =? 4 then
        if isIntegerTy t || isPointerTy t
        then ret ("HEAP32[" +:+ utostr (Z.shiftr Addr 2) +:+ "]")
        else
          let* _ := assert (isFloatingPointTy t) "t->isFloatingPointTy()" in
          ret ("HEAPF32[" +:+ utostr (Z.shiftr Addr 2) +:+ "]")
      else if Bytes =? 2
      then ret ("HEAP16[" +:+ utostr (Z.shiftr Addr 1) +:+ "]")
      else if Bytes =? 1 then ret ("HEAP8[" +:+ utostr Addr +:+ "]")
      else fatal "Unsupported type"
  | _ =>
      let* PS := getValueAsStr Ptr ASM_SIGNED in
      liftR (getHeapAccess PS Bytes (isIntegerTy t || isPointerTy t))
  end.

Definition getPtrLoad (Ptr : Value) : M string :=
  let* t := elementType Ptr in
  let* use := getPtrUse Ptr in
  liftR (getCast use t ASM_NONSPECIFIC).

(** The aligned branch of [getLoad]: a single heap access. *)
Definition getLoad_aligned (Assign : string) (P : Value) : M string :=
  let* load := getPtrLoad P in
  let text := Assign +:+ load in
  if isAbsolute P
  then ret (text +:+ "; abort() /* segfault, load from absolute addr */")
  else ret text.

(** The unaligned branch of [getLoad].  The warning printed under
    [WarnOnUnaligned] goes to the error stream and is not represented. *)
Definition getLoad_unaligned (Assign : string) (P : Value) (T : Ty)
  (Bytes Alignment : Z) (sep : string) : M string :=
  let* PS := getValueAsStr P ASM_SIGNED in
  if Bytes =? 8 then
    let* text :=
      (if Alignment =? 4 then
         ret ("HEAP32[tempDoublePtr>>2]=HEAP32[" +:+ PS +:+ ">>2]" +:+ sep +:+
              "HEAP32[tempDoublePtr+4>>2]=HEAP32[" +:+ PS +:+ "+4>>2]")
       else if Alignment =? 2 then
         ret ("HEAP16[tempDoublePtr>>1]=HEAP16[" +:+ PS +:+ ">>1]" +:+ sep +:+
              "HEAP16[tempDoublePtr+2>>1]=HEAP16[" +:+ PS +:+ "+2>>1]" +:+ sep +:+
              "HEAP16[tempDoublePtr+4>>1]=HEAP16[" +:+ PS +:+ "+4>>1]" +:+ sep +:+
              "HEAP16[tempDoublePtr+6>>1]=HEAP16[" +:+ PS +:+ "+6>>1]")
       else if Alignment =? 1 then
         ret ("HEAP8[tempDoublePtr>>0]=HEAP8[" +:+ PS +:+ ">>0]" +:+ sep +:+
              "HEAP8[tempDoublePtr+1>>0]=HEAP8[" +:+ PS +:+ "+1>>0]" +:+ sep +:+
              "HEAP8[tempDoublePtr+2>>0]=HEAP8[" +:+ PS +:+ "+2>>0]" +:+ sep +:+
              "HEAP8[tempDoublePtr+3>>0]=HEAP8[" +:+ PS +:+ "+3>>0]" +:+ sep +:+
              "HEAP8[tempDoublePtr+4>>0]=HEAP8[" +:+ PS +:+ "+4>>0]" +:+ sep +:+
              "HEAP8[tempDoublePtr+5>>0]=HEAP8[" +:+ PS +:+ "+5>>0]" +:+ sep +:+
              "HEAP8[tempDoublePtr+6>>0]=HEAP8[" +:+ PS +:+ "+6>>0]" +:+ sep +:+
              "HEAP8[tempDoublePtr+7>>0]=HEAP8[" +:+ PS +:+ "+7>>0]")
       else fatal "bad 8 store") in
    ret (text +:+ sep +:+ Assign +:+ "+HEAPF64[tempDoublePtr>>3]")
  else if Bytes =? 4 then
    if isIntegerTy T || isPointerTy T then
      if Alignment =? 2 then
        ret (Assign +:+ "HEAPU16[" +:+ PS +:+ ">>1]|" +:+
             "(HEAPU16[" +:+ PS +:+ "+2>>1]<<16)")
      else if Alignment =? 1 then
        ret (Assign +:+ "HEAPU8[" +:+ PS +:+ ">>0]|" +:+
             "(HEAPU8[" +:+ PS +:+ "+1>>0]<<8)|" +:+
             "(HEAPU8[" +:+ PS +:+ "+2>>0]<<16)|" +:+
             "(HEAPU8[" +:+ PS +:+ "+3>>0]<<24)")
      else fatal "bad 4i store"
    else
      let* _ := assert (isFloatingPointTy T) "T->isFloatingPointTy()" in
      let* text :=
        (if Alignment =? 2 then
           ret ("HEAP16[tempDoublePtr>>1]=HEAP16[" +:+ PS +:+ ">>1]" +:+ sep +:+
                "HEAP16[tempDoublePtr+2>>1]=HEAP16[" +:+ PS +:+ "+2>>1]")
         else if Alignment =? 1 then
           ret ("HEAP8[tempDoublePtr>>0]=HEAP8[" +:+ PS +:+ ">>0]" +:+ sep +:+
                "HEAP8[tempDoublePtr+1>>0]=HEAP8[" +:+ PS +:+ "+1>>0]" +:+ sep +:+
                "HEAP8[tempDoublePtr+2>>0]=HEAP8[" +:+ PS +:+ "+2>>0]" +:+ sep +:+
                "HEAP8[tempDoublePtr+3>>0]=HEAP8[" +:+ PS +:+ "+3>>0]")
         else fatal "bad 4f store") in
      let* c := liftR (getCast "HEAPF32[tempDoublePtr>>2]" FloatTy ASM_SIGNED) in
      ret (text +:+ sep +:+ Assign +:+ c)
  else if Bytes =? 2 then
    ret (Assign +:+ "HEAPU8[" +:+ PS +:+ ">>0]|" +:+
         "(HEAPU8[" +:+ PS +:+ "+1>>0]<<8)")
  else fatal "bad store".

Definition getLoad (I P : Value) (T : Ty) (Alignment : Z) (sep : string)
  : M string :=
  let* Assign := getAssign I in
  let Bytes := DL T in
  if (Bytes <=? Alignment) || (Alignment =? 0)
  then getLoad_aligned Assign P
  else getLoad_unaligned Assign P T Bytes Alignment sep.

(** The aligned branch of [getStore]. *)
Definition getStore_aligned (P : Value) (VS : string) (Alignment : Z)
  : M string :=
  let* use := getPtrUse P in
  let text := use +:+ " = " +:+ VS in
  if Alignment =? 536870912 then ret (text +:+ "; abort() /* segfault */")
  else ret text.

(** The unaligned branch of [getStore]. *)
Definition getStore_unaligned (P : Value) (T : Ty) (VS : string)
  (Bytes Alignment : Z) : M string :=
  let* PS := getValueAsStr P ASM_SIGNED in
  if Bytes =? 8 then
    let text := "HEAPF64[tempDoublePtr>>3]=" +:+ VS +:+ ";" in
    if Alignment =? 4 then
      ret (text +:+
           "HEAP32[" +:+ PS +:+ ">>2]=HEAP32[tempDoublePtr>>2];" +:+
           "HEAP32[" +:+ PS +:+ "+4>>2]=HEAP32[tempDoublePtr+4>>2]")
    else if Alignment =? 2 then
      ret (text +:+
           "HEAP16[" +:+ PS +:+ ">>1]=HEAP16[tempDoublePtr>>1];" +:+
           "HEAP16[" +:+ PS +:+ "+2>>1]=HEAP16[tempDoublePtr+2>>1];" +:+
           "HEAP16[" +:+ PS +:+ "+4>>1]=HEAP16[tempDoublePtr+4>>1];" +:+
           "HEAP16[" +:+ PS +:+ "+6>>1]=HEAP16[tempDoublePtr+6>>1]")
    else if Alignment =? 1 then
      ret (text +:+
           "HEAP8[" +:+ PS +:+ ">>0]=HEAP8[tempDoublePtr>>0];" +:+
           "HEAP8[" +:+ PS +:+ "+1>>0]=HEAP8[tempDoublePtr+1>>0];" +:+
           "HEAP8[" +:+ PS +:+ "+2>>0]=HEAP8[tempDoublePtr+2>>0];" +:+
           "HEAP8[" +:+ PS +:+ "+3>>0]=HEAP8[tempDoublePtr+3>>0];" +:+
           "HEAP8[" +:+ PS +:+ "+4>>0]=HEAP8[tempDoublePtr+4>>0];" +:+
           "HEAP8[" +:+ PS +:+ "+5>>0]=HEAP8[tempDoublePtr+5>>0];" +:+
           "HEAP8[" +:+ PS +:+ "+6>>0]=HEAP8[tempDoublePtr+6>>0];" +:+
           "HEAP8[" +:+ PS +:+ "+7>>0]=HEAP8[tempDoublePtr+7>>0]")
    else fatal "bad 8 store"
  else if Bytes =? 4 then
    if isIntegerTy T || isPointerTy T then
      if Alignment =? 2 then
        ret ("HEAP16[" +:+ PS +:+ ">>1]=" +:+ VS +:+ "&65535;" +:+
             "HEAP16[" +:+ PS +:+ "+2>>1]=" +:+ VS +:+ ">>>16")
      else if Alignment =? 1 then
        ret ("HEAP8[" +:+ PS +:+ ">>0]=" +:+ VS +:+ "&255;" +:+
             "HEAP8[" +:+ PS +:+ "+1>>0]=(" +:+ VS +:+ ">>8)&255;" +:+
             "HEAP8[" +:+ PS +:+ "+2>>0]=(" +:+ VS +:+ ">>16)&255;" +:+
             "HEAP8[" +:+ PS +:+ "+3>>0]=" +:+ VS +:+ ">>24")
      else fatal "bad 4i store"
    else
      let* _ := assert (isFloatingPointTy T) "T->isFloatingPointTy()" in
      let text := "HEAPF32[tempDoublePtr>>2]=" +:+ VS +:+ ";" in
      if Alignment =? 2 then
        ret (text +:+
             "HEAP16[" +:+ PS +:+ ">>1]=HEAP16[tempDoublePtr>>1];" +:+
             "HEAP16[" +:+ PS +:+ "+2>>1]=HEAP16[tempDoublePtr+2>>1]")
      else if Alignment =? 1 then
        ret (text +:+
             "HEAP8[" +:+ PS +:+ ">>0]=HEAP8[tempDoublePtr>>0];" +:+
             "HEAP8[" +:+ PS +:+ "+1>>0]=HEAP8[tempDoublePtr+1>>0];" +:+
             "HEAP8[" +:+ PS +:+ "+2>>0]=HEAP8[tempDoublePtr+2>>0];" +:+
             "HEAP8[" +:+ PS +:+ "+3>>0]=HEAP8[tempDoublePtr+3>>0]")
      else fatal "bad 4f store"
  else if Bytes =? 2 then
    ret ("HEAP8[" +:+ PS +:+ ">>0]=" +:+ VS +:+ "&255;" +:+
         "HEAP8[" +:+ PS +:+ "+1>>0]=" +:+ VS +:+ ">>8")
  else fatal "bad store".

Definition getStore (I P : Value) (T : Ty) (VS : string) (Alignment : Z)
  (sep : string) : M string :=
  let* _ := assert (String.eqb sep ";") "sep == ';'" in
  let Bytes := DL T in
  if (Bytes <=? Alignment) || (Alignment =? 0)
  then getStore_aligned P VS Alignment
  else getStore_unaligned P T VS Bytes Alignment.

(** The [Load] case of [generateExpression] for a pointer that is not a
    nativized variable, with the statement terminator appended after the
    switch.  Debug locations are not represented. *)
Definition generateLoad (LI P : Value) (Alignment : Z) : M string :=
  let* _ := checkLegal (typeOf LI) in
  let* text := getLoad LI P (typeOf LI) Alignment ";" in
  ret (text +:+ ";" +:+ str1 (ascii_of_N 10)).

(** *** The unaligned lowering, described on its own *)

(** [l] joined by [sepr]. *)
Fixpoint joinWith (sepr : string) (l : list string) : string :=
  match l with
  | [] => ""
  | [x] => x
  | x :: rest => x +:+ sepr +:+ joinWith sepr rest
  end.

(** The offset text of the [i]-th piece of width [A]: nothing for the first
    piece, [+i*A] for the others. *)
Definition pieceOffset (A i : Z) : string :=
  if i =? 0 then "" else "+" +:+ utostr (i * A).

(** The [i]-th of the accesses of width [A] that an unaligned integer load
    is assembled from: an unsigned view access, shifted into place. *)
Definition intAccess (A : Z) (PS : string) (i : Z) : string :=
  let access := "HEAPU" +:+ utostr (8 * A) +:+ "[" +:+ PS +:+ pieceOffset A i
                  +:+ ">>" +:+ utostr (Z.log2 A) +:+ "]" in
  if i =? 0 then access
  else "(" +:+ access +:+ "<<" +:+ utostr (8 * A * i) +:+ ")".

(** [B/A] accesses of width [A] joined by bitwise OR. *)
Definition orOfAccesses (B A : Z) (PS : string) : string :=
  joinWith "|" (map (intAccess A PS) (seqZ 0 (B / A))).

(** The [i]-th of the copies of width [A] that stage an unaligned float
    load in the scratch area. *)
Definition stageCopy (A : Z) (PS : string) (i : Z) : string :=
  "HEAP" +:+ utostr (8 * A) +:+ "[tempDoublePtr" +:+ pieceOffset A i
    +:+ ">>" +:+ utostr (Z.log2 A) +:+ "]=HEAP" +:+ utostr (8 * A) +:+ "["
    +:+ PS +:+ pieceOffset A i +:+ ">>" +:+ utostr (Z.log2 A) +:+ "]".

(** [B/A] copies of width [A] into the scratch area. *)
Definition stagedCopies (B A : Z) (PS sepr : string) : string :=
  joinWith sepr (map (stageCopy A PS) (seqZ 0 (B / A))).

(** *** Phi preludes *)

(** An instruction of a block, as far as [getPhiCode] looks at it: a phi
    node with its incoming blocks and values, or anything else. *)
Inductive BlockInst : Type :=
| PHINode (name : string) (ty : Ty) (incoming : list (string * Value))
| OtherInst (name : string) (ty : Ty).

Record BasicBlock : Type := {
  bb_label : string;
  bb_insts : list BlockInst
}.

(** The phi nodes at the head of a block; both loops of [getPhiCode] stop
    at the first instruction that is not one. *)
Fixpoint leadingPhis (insts : list BlockInst)
  : list (string * Ty * list (string * Value)) :=
  match insts with
  | PHINode name ty incoming :: rest => (name, ty, incoming) :: leadingPhis rest
  | _ => []
  end.

(** [P->getIncomingValue(P->getBasicBlockIndex(From))]: the value of the
    first incoming edge from [From], if there is one. *)
Fixpoint incomingFrom (From : string) (incoming : list (string * Value))
  : option Value :=
  match incoming with
  | [] => None
  | (BB, V) :: rest => if String.eqb BB From then Some V else incomingFrom From rest
  end.

(** [isa<Instruction>(V) && V->getParent() == To]. *)
Definition isInstructionIn (To : string) (V : Value) : bool :=
  match V with
  | Instruction _ _ parent | IntToPtrInst _ _ parent _
  | BitCastInst _ _ parent _ => String.eqb parent To
  | _ => false
  end.

(** [std::map<std::string, A>] where its iteration order matters: an
    association list kept sorted by key. [m[k] = v]: *)
Fixpoint smap_insert {A : Type} (k : string) (v : A) (m : list (string * A))
  : list (string * A) :=
  match m with
  | [] => [(k, v)]
  | (k', v') :: rest =>
      match String.compare k k' with
      | Lt => (k, v) :: m
      | Eq => (k, v) :: rest
      | Gt => (k', v') :: smap_insert k v rest
      end
  end.

(** The [PhiVars] set of [getPhiCode]. *)
Definition phiVars (To : BasicBlock) : gset string :=
  list_to_set (map (fun P => getJSName_local P.1.1) (leadingPhis (bb_insts To))).

(** The test under which [getPhiCode] records a dependency for an incoming
    value [V] that lowers to [CV]: [V] is an instruction of [To] and [CV]
    is one of the phi variables. *)
Definition phiDependency (To : BasicBlock) (V : Value) (CV : string) : bool :=
  isInstructionIn (bb_label To) V && bool_decide (CV ∈ phiVars To).

(** The first loop of [getPhiCode] that fills [assigns], [values] and
    [deps].  [assigns] and [values] have the same keys and are kept together:
    a phi's entry holds its assignment text and its incoming value.  The
    [undeps] map is written but never read and is left out. *)
Fixpoint getPhiCode_collect (From : string) (To : BasicBlock)
  (phis : list (string * Ty * list (string * Value)))
  (assigns : list (string * (string * Value))) (deps : gmap string string)
  : M (list (string * (string * Value)) * gmap string string) :=
  match phis with
  | [] => ret (assigns, deps)
  | (pname, pty, incoming) :: rest =>
      match incomingFrom From incoming with
      | None => getPhiCode_collect From To rest assigns deps
      | Some V0 =>
          let name := getJSName_local pname in
          let* a := getAdHocAssign name pty in
          let V := stripPointerCasts V0 in
          let* vname := getValueAsStr V ASM_SIGNED in
          let deps :=
            if phiDependency To V vname
            then <[name := vname]> deps else deps in
          getPhiCode_collect From To rest
            (smap_insert name (a, V) assigns) deps
      end
  end.

(** One turn of the [while] loop: the [for] loop over the entries still in
    [assigns], in key order.  An entry is emitted if it has no dependency,
    or if nothing was emitted in this turn and it is the last entry, in
    which case a temporary breaks the cycle.  Returns the entries that
    remain, [deps], [emitted], [pre] and [post]. *)
Fixpoint getPhiCode_pass (assigns : list (string * (string * Value)))
  (deps : gmap string string) (emitted : bool) (pre post : string)
  : M (list (string * (string * Value)) * gmap string string * bool
       * string * string) :=
  match assigns with
  | [] => ret ([], deps, emitted, pre, post)
  | (curr, (a, V)) :: rest =>
      let* CV := getValueAsStr V ASM_SIGNED in
      match deps !! curr with
      | None =>
          getPhiCode_pass rest deps true pre (post +:+ a +:+ CV +:+ ";")
      | Some depString =>
          if negb emitted && bool_decide (rest = []) then
            let temp := curr +:+ "$phi" in
            let* t := getAdHocAssign temp (typeOf V) in
            getPhiCode_pass rest (delete curr deps) true
              (pre +:+ t +:+ CV +:+ ";") (post +:+ a +:+ temp +:+ ";")
          else
            let* r := getPhiCode_pass rest deps emitted pre post in
            let '(rest', deps', emitted', pre', post') := r in
            ret ((curr, (a, V)) :: rest', deps', emitted', pre', post')
      end
  end.

(** The [while (assigns.size() > 0)] loop.  Every turn emits at least one
    entry, so as many turns as there are entries suffice; [fuel] counts
    them. *)
Fixpoint getPhiCode_loop (fuel : nat)
  (assigns : list (string * (string * Value))) (deps : gmap string string)
  (pre post : string) : M string :=
  match assigns with
  | [] => ret (pre +:+ post)
  | _ =>
      match fuel with
      | O => fatal "getPhiCode: the loop did not end"
      | S fuel' =>
          let* r := getPhiCode_pass assigns deps false pre post in
          let '(assigns', deps', _, pre', post') := r in
          getPhiCode_loop fuel' assigns' deps' pre' post'
      end
  end.

Definition getPhiCode (From : string) (To : BasicBlock) : M string :=
  let* r := getPhiCode_collect From To (leadingPhis (bb_insts To)) [] ∅ in
  let '(assigns, deps) := r in
  getPhiCode_loop (length assigns) assigns deps "" "".

(** [t] has [s] as a segment. *)
Definition contains (s t : string) : Prop :=
  exists before after, t = before +:+ s +:+ after.









(** *** Switches *)

(** Block terminators.  A switch holds its condition, its default
    destination and its cases: the zero-extended case value (of the
    condition's width) and the label of the successor. *)
Inductive Terminator : Type :=
| BranchInst (Condition : option Value) (Successors : list string)
| IndirectBrInst (Address : Value) (Destinations : list string)
| SwitchInst (Condition : Value) (DefaultDest : string)
    (Cases : list (Z * string))
| ReturnInst
| UnreachableInst.

Definition INT64_MAX : Z := 2^63 - 1.
Definition INT64_MIN : Z := - 2^63.

(** The loop of [considerConditionVar] over the case values. *)
Fixpoint considerConditionVar_loop (bits : Z) (Cases : list (Z * string))
  (Minn Maxx : Z) : Z * Z :=
  match Cases with
  | [] => (Minn, Maxx)
  | (val, _) :: rest =>
      let Curr := getSExtValue bits val in
      let Minn := if Curr <? Minn then Curr else Minn in
      let Maxx := if Maxx <? Curr then Curr else Maxx in
      considerConditionVar_loop bits rest Minn Maxx
  end.

(** [considerConditionVar]: the condition value handed to the relooper, if
    any.  [Range] is an [int64_t]; the division is C's, and is only
    evaluated when there are at least five cases. *)
Definition considerConditionVar (I : Terminator) : option Value :=
  match I with
  | IndirectBrInst Address _ => Some Address
  | SwitchInst Condition _ Cases =>
      let '(Minn, Maxx) :=
        considerConditionVar_loop (integerBitWidth (typeOf Condition)) Cases
          INT64_MAX INT64_MIN in
      let Range := wrap64s (Maxx - Minn) in
      let Num := Z.of_nat (length Cases) in
      if (Num <? 5) || (10 * 1024 <? Range) || (1024 <? Z.quot Range Num)
      then None else Some Condition
  | _ => None
  end.


(** The loop of the [Switch] case of [printFunctionBody] that builds
    [BlocksToConditions]: per successor, the conditions of its cases. *)
Fixpoint switchConditions_loop (UseSwitch : bool) (Condition : Value)
  (bits : Z) (Cases : list (Z * string))
  (BlocksToConditions : gmap string string) : M (gmap string string) :=
  match Cases with
  | [] => ret BlocksToConditions
  | (val, BB) :: rest =>
      let Curr := APInt_toString bits val true in
      let* Cond :=
        (if UseSwitch then ret ("case " +:+ Curr +:+ ": ")
         else
           let* c := getValueAsCastParenStr Condition ASM_SIGNED in
           ret ("(" +:+ c +:+ " == " +:+ Curr +:+ ")")) in
      let old := default "" (BlocksToConditions !! BB) in
      let sepr := if negb UseSwitch && negb (String.eqb old "")
                  then " | " else "" in
      switchConditions_loop UseSwitch Condition bits rest
        (<[BB := Cond +:+ sepr +:+ old]> BlocksToConditions)
  end.

Definition switchConditions (Condition : Value) (DefaultDest : string)
  (Cases : list (Z * string)) : M (gmap string string) :=
  let UseSwitch :=
    match considerConditionVar (SwitchInst Condition DefaultDest Cases) with
    | Some _ => true
    | None => false
    end in
  switchConditions_loop UseSwitch Condition
    (integerBitWidth (typeOf Condition)) Cases ∅.


(** What every dispatch table satisfies: it has at least [MinSize] entries
    and its first [MinSize] entries are the placeholder. *)
Definition table_ok (Table : list string) : Prop :=
  MinSize <= Z.of_nat (length Table)
  /\ forall i : nat, Z.of_nat i < MinSize -> Table !! i = Some "0".

Definition tables_ok (w : JSWriter) : Prop :=
  forall sig Table, FunctionTables w !! sig = Some Table -> table_ok Table.


End Writer.

(** ** Sample inputs *)

(** One reserved runtime slot per table. *)
Definition reservedOptions : Options :=
  {| PreciseF32 := false; WarnOnUnaligned := false;
     ReservedFunctionPointers := 1; EmscriptenAssertions := 0;
     NoAliasingFunctionPointers := false; GlobalBase := 8 |}.

(** No call handler registered. *)
Definition noHandlers : string -> option Handler := fun _ => None.

(** [define i32 @f(i32)]. *)
Definition sample_f : Function :=
  {| fn_name := "f"; fn_ret := IntegerTy 32; fn_params := [IntegerTy 32];
     fn_alignment := 0 |}.

(** A heap holding [@s = c"hello\00"] and then an 8-byte global [@t]. *)
Definition sample_heap : JSWriter :=
  match allocateBytes "s" [104; 101; 108; 108; 111; 0] initialWriter with
  | Ok (_, w) =>
      match allocateBytes "t" [1; 0; 0; 0; 0; 0; 0; 0] w with
      | Ok (_, w') => w'
      | Fatal _ => w
      end
  | Fatal _ => initialWriter
  end.

(** Allocation sizes under the data layout of the asm.js target: 32-bit
    pointers, naturally sized scalars, 128-bit vectors. *)
Definition sampleDataLayout (T : Ty) : Z :=
  match T with
  | IntegerTy bits => (bits + 7) / 8
  | FloatTy | PointerTy _ => 4
  | DoubleTy => 8
  | VectorTy _ => 16
  | _ => 0
  end.

(** [%r = load i32, i32* %p] in block [entry], and its pointer operand. *)
Definition sample_load : Value := Instruction "r" (IntegerTy 32) "entry".
Definition sample_pointer : Value := Argument "p" (PointerTy (IntegerTy 32)).

(** The line the spec expects for [load i32, i32* %p, align 1]. *)
Definition spec_load_line : string :=
  "$r = HEAPU8[$p>>0] | (HEAPU8[$p+1>>0]<<8) | (HEAPU8[$p+2>>0]<<16) | (HEAPU8[$p+3>>0]<<24);".

(** [switch i32 %x] over the cases 0..4, and over the cases 0 and 1000000. *)
Definition sample_condition : Value := Argument "x" (IntegerTy 32).
Definition sparse_cases : list (Z * string) := [(0, "a"); (1000000, "b")].

(** A block with two phi nodes that swap their values around a loop:
    [%a = phi [%b, %loop], [0, %entry]] and [%b = phi [%a, %loop],
    [1, %entry]]. *)
Definition swap_block : BasicBlock :=
  {| bb_label := "loop";
     bb_insts :=
       [PHINode "a" (IntegerTy 32)
          [("entry", ConstantInt 32 0);
           ("loop", Instruction "b" (IntegerTy 32) "loop")];
        PHINode "b" (IntegerTy 32)
          [("entry", ConstantInt 32 1);
           ("loop", Instruction "a" (IntegerTy 32) "loop")];
        OtherInst "c" (IntegerTy 32)] |}.


Module MangleMore.
Import Mangle.

(** The value of a hex digit as [halfCharToHex] writes them. *)
Definition hexToHalf (c : ascii) : option N :=
  let n := N_of_ascii c in
  if ((48 <=? n) && (n <=? 57))%N then Some (n - 48)%N
  else if ((65 <=? n) && (n <=? 70))%N then Some (n - 55)%N
  else None.

(** The byte two hex digits stand for. *)
Definition unhex2 (s : string) : option ascii :=
  match s with
  | String hi (String lo EmptyString) =>
      match hexToHalf hi, hexToHalf lo with
      | Some h, Some l => Some (ascii_of_N (16 * h + l))
      | _, _ => None
      end
  | _ => None
  end.

(** The characters of a JavaScript identifier, and identifiers that do not
    start with a digit. *)
Definition identChar (c : ascii) : bool :=
  isalnum c || Ascii.eqb c underscore || Ascii.eqb c dollar.

Fixpoint identChars (s : string) : bool :=
  match s with
  | EmptyString => true
  | String c rest => identChar c && identChars rest
  end.

Definition isDigit (c : ascii) : bool :=
  let n := N_of_ascii c in ((48 <=? n) && (n <=? 57))%N.

Definition isIdentifier (s : string) : bool :=
  match s with
  | EmptyString => false
  | String c rest => negb (isDigit c) && identChars s
  end.

End MangleMore.

(** The dispatch tables and the index map agree: an indexed function sits
    at its index in some table, and a slot that does not hold the
    placeholder holds a function indexed at that slot. *)
Definition tables_agree (w : JSWriter) : Prop :=
  (forall name Index, IndexedFunctions w !! name = Some Index ->
     exists sig Table,
       FunctionTables w !! sig = Some Table
       /\ Table !! Z.to_nat Index = Some name)
  /\ (forall sig Table (i : nat) name,
        FunctionTables w !! sig = Some Table ->
        Table !! i = Some name -> name <> "0" ->
        IndexedFunctions w !! name = Some (Z.of_nat i)).

(** The indices handed out so far are below [NextFunctionIndex] and no two
    functions share one. *)
Definition indices_distinct (w : JSWriter) : Prop :=
  (forall name Index, IndexedFunctions w !! name = Some Index ->
     0 <= Index < NextFunctionIndex w)
  /\ (forall name1 name2 Index,
        IndexedFunctions w !! name1 = Some Index ->
        IndexedFunctions w !! name2 = Some Index -> name1 = name2).

(** Function pointers that may not alias. *)
Definition noAliasingOptions : Options :=
  {| PreciseF32 := false; WarnOnUnaligned := false;
     ReservedFunctionPointers := 0; EmscriptenAssertions := 0;
     NoAliasingFunctionPointers := true; GlobalBase := 8 |}.

(** [define void @g()]. *)
Definition sample_g : Function :=
  {| fn_name := "g"; fn_ret := VoidTy; fn_params := []; fn_alignment := 0 |}.

(** [define i32 @x.a(i32)] and [define void @x_a()]: two functions whose
    names have the same global mangling. *)
Definition sample_x_dot_a : Function :=
  {| fn_name := "x.a"; fn_ret := IntegerTy 32; fn_params := [IntegerTy 32];
     fn_alignment := 0 |}.
Definition sample_x_under_a : Function :=
  {| fn_name := "x_a"; fn_ret := VoidTy; fn_params := []; fn_alignment := 0 |}.

(** The statements of the writer that touch the block numbering: a call of
    [getBlockAddress], and everything else, which leaves it alone. *)
Inductive block_step : JSWriter -> JSWriter -> Prop :=
| bs_address (F : Function) (BB : string) (Index : Z) (w w' : JSWriter) :
    getBlockAddress F BB w = Ok (Index, w') -> block_step w w'
| bs_other (w w' : JSWriter) :
    BlockAddresses w' = BlockAddresses w -> block_step w w'.

Definition blocks_reachable (w : JSWriter) : Prop :=
  rtc block_step initialWriter w.

(** No function has more numbered blocks than an [unsigned] can count. *)
Definition blocks_bounded (w : JSWriter) : Prop :=
  forall F Blocks,
    BlockAddresses w !! F = Some Blocks -> Z.of_nat (size Blocks) < 2^32.

(** The numbering of the blocks of one function is a one-to-one
    correspondence with the numbers below the count of numbered blocks. *)
Definition numbering_ok (Blocks : gmap string Z) : Prop :=
  (forall BB i, Blocks !! BB = Some i -> 0 <= i < Z.of_nat (size Blocks))
  /\ (forall BB1 BB2 i,
        Blocks !! BB1 = Some i -> Blocks !! BB2 = Some i -> BB1 = BB2)
  /\ (forall i, 0 <= i < Z.of_nat (size Blocks) ->
        exists BB, Blocks !! BB = Some i).

Definition blocks_ok (w : JSWriter) : Prop :=
  forall F Blocks, BlockAddresses w !! F = Some Blocks -> numbering_ok Blocks.

(** The numbering after the addresses of the blocks [then] and [else] of
    [@f] have been asked for, in that order. *)
Definition sample_blocks : JSWriter :=
  with_BlockAddresses {[ "f" := {[ "then" := 0; "else" := 1 ]} ]}
    initialWriter.

(** ** Global initializers *)

(** The bytes of an integer read through a [union] with a byte array, on a
    little-endian host (the code assumes one): the [n] low bytes, lowest
    first. *)
Definition bytesLE (n : nat) (x : Z) : list Z :=
  map (fun i => Z.land (Z.shiftr x (8 * Z.of_nat i)) 255) (seq 0 n).

(** The integer a little-endian byte sequence stands for. *)
Fixpoint valueLE (bytes : list Z) : Z :=
  match bytes with
  | [] => 0
  | b :: rest => b + 256 * valueLE rest
  end.

(** The operands of a packed struct initializer, as the emit phase of
    [parseConstant] tells them apart: zeros with their store size, a
    constant expression, a byte string, or anything else. *)
Inductive StructElem : Type :=
| ElemAggregateZero (Bytes : Z)
| ElemExpr (opcode : CEOpcode) (op0 : Value)
| ElemDataSequential (isString : bool) (Str : list Z)
| ElemOther.

(** The initializers of globals, as [parseConstant] tells them apart.
    Store sizes are those of the data layout.  Floating-point constants,
    constant arrays and constant expressions as whole initializers are not
    represented. *)
Inductive Initializer : Type :=
| InitGlobalValue
| InitDataSequential (isString : bool) (Str : list Z)
| InitInt (raw : Z)
| InitPointerNull
| InitAggregateZero (Bytes : Z)
| InitStruct (isPacked : bool) (Bytes : Z) (elems : list StructElem)
| InitVector
| InitBlockAddress
| InitUndef.

(** [for (i = 0; i < n; ++i) GlobalData64[Offset++] = bytes[i]] with an
    [unsigned] offset. *)
Fixpoint storeBytes (Offset : Z) (bytes : list Z) (data : list Z) : list Z :=
  match bytes with
  | [] => data
  | b :: rest =>
      storeBytes (wrap32 (Offset + 1)) rest (<[Z.to_nat Offset := b]> data)
  end.

Section Constants.

Context (opts : Options) (CallHandlers : string -> option Handler).

(** The loop over the operands of a packed struct in the emit phase. *)
Fixpoint emitStruct_loop (OffsetStart Absolute : Z) (elems : list StructElem)
  (Offset : Z) : M unit :=
  match elems with
  | [] => ret tt
  | ElemAggregateZero Bytes :: rest =>
      emitStruct_loop OffsetStart Absolute rest (wrap32 (Offset + wrap32 Bytes))
  | ElemExpr opcode op0 :: rest =>
      let Target := wrap32 (Absolute + Offset - OffsetStart) in
      let* Data :=
        match opcode with
        | CE_PtrToInt => getConstAsOffset opts CallHandlers op0 Target
        | CE_Add _ addend =>
            match op0 with
            | ConstantExpr _ _ V =>
                let* Data := getConstAsOffset opts CallHandlers V Target in
                ret (wrap32 (Data + addend))
            | _ => fatal "cast<ConstantExpr>"
            end
        | _ => fatal "Unexpected constant expr kind"
        end in
      let* w := get in
      let* _ := assert (wrap32 (Offset + 4)
                        <=? Z.of_nat (length (GlobalData64 w)))
                  "Offset+4 <= GlobalData64.size()" in
      let* _ := modify (fun w =>
                  with_GlobalData64
                    (storeBytes Offset (bytesLE 4 Data) (GlobalData64 w)) w) in
      emitStruct_loop OffsetStart Absolute rest (wrap32 (Offset + 4))
  | ElemDataSequential isString Str :: rest =>
      let* _ := assert isString "CDS->isString()" in
      let* w := get in
      let* _ := assert (Offset + Z.of_nat (length Str)
                        <=? Z.of_nat (length (GlobalData64 w)))
                  "Offset+Str.size() <= GlobalData64.size()" in
      let* _ := modify (fun w =>
                  with_GlobalData64
                    (storeBytes Offset Str (GlobalData64 w)) w) in
      emitStruct_loop OffsetStart Absolute rest
        (wrap32 (Offset + Z.of_nat (length Str)))
  | ElemOther :: _ => fatal "Unexpected constant kind"
  end.

(** [parseConstant] on the initializers that are represented.  The names
    pushed to [GlobalInitializers] for [__init_array_start] are not
    represented. *)
Definition parseConstant (name : string) (CV : Initializer) (calculate : bool)
  : M unit :=
  match CV with
  | InitGlobalValue => ret tt
  | InitDataSequential isString Str =>
      let* _ := assert isString "CDS->isString()" in
      if calculate then allocateBytes name Str else ret tt
  | InitInt raw =>
      if calculate then allocateBytes name (bytesLE 8 raw) else ret tt
  | InitPointerNull => fatal "Unlowered ConstantPointerNull"
  | InitAggregateZero Bytes =>
      if calculate
      then allocateBytes name (replicate (Z.to_nat (wrap32 Bytes)) 0)
      else ret tt
  | InitStruct isPacked Bytes elems =>
      if String.eqb name "__init_array_start" then ret tt
      else if calculate
      then allocateBytes name (replicate (Z.to_nat (wrap32 Bytes)) 0)
      else
        let* _ := assert isPacked "CS->getType()->isPacked()" in
        let* Offset := getRelativeGlobalAddress name in
        let* Absolute := getGlobalAddress opts name in
        emitStruct_loop Offset Absolute elems Offset
  | InitVector => fatal "Unlowered ConstantVector"
  | InitBlockAddress => fatal "Unlowered BlockAddress"
  | InitUndef => fatal "Unlowered UndefValue"
  end.

(** One of the two loops of [processConstants] over the globals of the
    module; a global has an initializer or none. *)
Fixpoint processConstants_loop (globals : list (string * option Initializer))
  (calculate : bool) : M unit :=
  match globals with
  | [] => ret tt
  | (name, init) :: rest =>
      let* _ := match init with
             | Some CV => parseConstant name CV calculate
             | None => ret tt
             end in
      processConstants_loop rest calculate
  end.

Definition processConstants (globals : list (string * option Initializer))
  : M unit :=
  let* _ := processConstants_loop globals true in
  processConstants_loop globals false.

(** The bytes the calculate phase pushes for an initializer, if it
    allocates the global. *)
Definition calculatedBytes (name : string) (CV : Initializer)
  : option (list Z) :=
  match CV with
  | InitDataSequential _ Str => Some Str
  | InitInt raw => Some (bytesLE 8 raw)
  | InitAggregateZero Bytes => Some (replicate (Z.to_nat (wrap32 Bytes)) 0)
  | InitStruct _ Bytes _ =>
      if String.eqb name "__init_array_start" then None
      else Some (replicate (Z.to_nat (wrap32 Bytes)) 0)
  | _ => None
  end.

End Constants.

(** The globals [@s = c"hi\00"], [@n = i32 258], an external [@e] and
    [@z = zeroinitializer] of 5 bytes. *)
Definition sample_globals : list (string * option Initializer) :=
  [("s", Some (InitDataSequential true [104; 105; 0]));
   ("n", Some (InitInt 258));
   ("e", None);
   ("z", Some (InitAggregateZero 5))].

(** The bytes an operand of a packed struct takes. *)
Definition elemSize (e : StructElem) : Z :=
  match e with
  | ElemAggregateZero Bytes => wrap32 Bytes
  | ElemExpr _ _ => 4
  | ElemDataSequential _ Str => Z.of_nat (length Str)
  | ElemOther => 0
  end.

Definition structSize (elems : list StructElem) : Z :=
  foldr (fun e n => elemSize e + n) 0 elems.

(** The bytes of a struct after the emit phase, given the bytes before it:
    zeros are left as they were, a constant expression is four
    little-endian bytes, a string is its bytes. *)
Inductive struct_image : list StructElem -> list Z -> list Z -> Prop :=
| image_nil : struct_image [] [] []
| image_zero (Bytes : Z) (rest : list StructElem) (old1 old2 new2 : list Z) :
    Z.of_nat (length old1) = wrap32 Bytes ->
    struct_image rest old2 new2 ->
    struct_image (ElemAggregateZero Bytes :: rest) (old1 ++ old2)
      (old1 ++ new2)
| image_expr (opcode : CEOpcode) (op0 : Value) (Data : Z)
    (rest : list StructElem) (old1 old2 new2 : list Z) :
    length old1 = 4%nat ->
    struct_image rest old2 new2 ->
    struct_image (ElemExpr opcode op0 :: rest) (old1 ++ old2)
      (bytesLE 4 Data ++ new2)
| image_string (Str : list Z) (rest : list StructElem)
    (old1 old2 new2 : list Z) :
    length old1 = length Str ->
    struct_image rest old2 new2 ->
    struct_image (ElemDataSequential true Str :: rest) (old1 ++ old2)
      (Str ++ new2).

(** A step that leaves the heap regions and the address map alone. *)
Definition heap_frame (w w' : JSWriter) : Prop :=
  GlobalData8 w' = GlobalData8 w /\ GlobalData32 w' = GlobalData32 w
  /\ GlobalData64 w' = GlobalData64 w
  /\ GlobalAddresses w' = GlobalAddresses w.

(** [@t = <{ i32 ptrtoint @f, [3 x i8] zeroinitializer, c"ok" }>], a packed
    struct of 9 bytes that holds a function pointer, and the module that
    holds it after a string. *)
Definition sample_struct : Initializer :=
  InitStruct true 9
    [ElemExpr CE_PtrToInt (FunctionV sample_f);
     ElemAggregateZero 3;
     ElemDataSequential true [111; 107]].

Definition struct_globals : list (string * option Initializer) :=
  [("s", Some (InitDataSequential true [104; 105; 0]));
   ("t", Some sample_struct)].

(** The packed structs among the globals have the store size of their
    operands taken together. *)
Definition well_sized (globals : list (string * option Initializer)) : Prop :=
  forall name isPacked Bytes elems,
    (name, Some (InitStruct isPacked Bytes elems)) ∈ globals ->
    wrap32 Bytes = structSize elems.

(** Every global that the calculate phase allocated lies within the
    heap. *)
Definition globals_in_heap (globals : list (string * option Initializer))
  (w : JSWriter) : Prop :=
  forall name CV bytes,
    (name, Some CV) ∈ globals -> calculatedBytes name CV = Some bytes ->
    exists first,
      GlobalAddresses w !! name = Some (first, 64)
      /\ 0 <= first
      /\ first + Z.of_nat (length bytes) <= Z.of_nat (length (GlobalData64 w)).

(** ** More on loads and stores *)

(** The sizes and alignments for which an unaligned access is lowered. *)
Definition supportedUnaligned (B A : Z) : Prop :=
  (B = 8 /\ (A = 4 \/ A = 2 \/ A = 1))
  \/ (B = 4 /\ (A = 2 \/ A = 1))
  \/ (B = 2 /\ A = 1).

(** The [i]-th copy of width [A] from the address [src] to the address
    [dst]. *)
Definition heapCopy (A : Z) (dst src : string) (i : Z) : string :=
  "HEAP" +:+ utostr (8 * A) +:+ "[" +:+ dst +:+ pieceOffset A i
    +:+ ">>" +:+ utostr (Z.log2 A) +:+ "]=HEAP" +:+ utostr (8 * A) +:+ "["
    +:+ src +:+ pieceOffset A i +:+ ">>" +:+ utostr (Z.log2 A) +:+ "]".

(** [B/A] copies of width [A] out of the scratch area, as an unaligned
    store of a float or of an 8-byte value makes them. *)
Definition unstagedCopies (B A : Z) (PS : string) : string :=
  joinWith ";" (map (heapCopy A PS "tempDoublePtr") (seqZ 0 (B / A))).



Section Atomics.

Context (opts : Options) (CallHandlers : string -> option Handler)
  (DL : Ty -> Z).


End Atomics.


(** A pointer to a double, and a store of a double through it. *)
Definition sample_double_pointer : Value := Argument "q" (PointerTy DoubleTy).
Definition sample_double_store : Value := Instruction "" VoidTy "entry".

(** ** Branchings *)

(** A call [AddBranchTo(Target, Condition, Code)] on the relooper block of
    the branching block: the label of the target block, and the condition
    and the code, [None] for a null pointer. *)
Definition Branching : Type := (string * option string * option string)%type.

Definition branchTarget (b : Branching) : string := b.1.1.
Definition branchCondition (b : Branching) : option string := b.1.2.

(** [s.size() > 0 ? s.c_str() : NULL]. *)
Definition optText (s : string) : option string :=
  if String.eqb s "" then None else Some s.

Section Branchings.

Context (opts : Options) (CallHandlers : string -> option Handler).

(** The blocks of the function, by label. *)
Context (blockOf : string -> BasicBlock).

(** The [Br] case of the branchings loop of [printFunctionBody], for the
    block [From]: the calls to [AddBranchTo], in order.  A conditional
    branch has three operands, an unconditional one has one. *)
Definition brBranchings (From : string) (Condition : option Value)
  (Successors : list string) : M (list Branching) :=
  match Condition, Successors with
  | Some C, [S0; S1] =>
      let* P0 := getPhiCode opts CallHandlers From (blockOf S0) in
      let* P1 := getPhiCode opts CallHandlers From (blockOf S1) in
      let* c := getValueAsStr opts CallHandlers C ASM_SIGNED in
      ret [(S0, Some c, optText P0); (S1, None, optText P1)]
  | None, [S0] =>
      let* P := getPhiCode opts CallHandlers From (blockOf S0) in
      ret [(S0, None, optText P)]
  | _, _ => fatal "Branch with 2 operands?"
  end.

(** The loop of the [IndirectBr] case over the destinations. *)
Fixpoint indirectBr_loop (F : Function) (From : string)
  (Destinations : list string) (Seen : gset string) (SetDefault : bool)
  (branches : list Branching) : M (list Branching) :=
  match Destinations with
  | [] => ret branches
  | S0 :: rest =>
      if bool_decide (S0 ∈ Seen)
      then indirectBr_loop F From rest Seen SetDefault branches
      else
        let* P := getPhiCode opts CallHandlers From (blockOf S0) in
        let* Target :=
          (if negb SetDefault then ret ""
           else
             let* a := getBlockAddress F S0 in
             ret ("case " +:+ utostr a +:+ ": ")) in
        indirectBr_loop F From rest ({[S0]} ∪ Seen) true
          (branches ++ [(S0, optText Target, optText P)])
  end.

(** The [IndirectBr] case of the branchings loop. *)
Definition indirectBrBranchings (F : Function) (From : string)
  (Destinations : list string) : M (list Branching) :=
  indirectBr_loop F From Destinations ∅ false [].

End Branchings.

(** A computation moves the block numbering only by steps of the
    writer. *)
Definition block_stepping {A : Type} (c : M A) : Prop :=
  forall w a w', c w = Ok (a, w') -> rtc block_step w w'.

(** The number of the block [BB] of the function [F], if it has one. *)
Definition blockNumber (w : JSWriter) (F BB : string) : option Z :=
  Blocks ← BlockAddresses w !! F; Blocks !! BB.

(** Blocks without phi nodes, whatever their label. *)
Definition plainBlocks (label : string) : BasicBlock :=
  {| bb_label := label; bb_insts := [] |}.

(** ** Conditions of a switch *)

(** The condition of one case, as the [Switch] case of
    [printFunctionBody] writes it: a case label when the relooper is given
    the condition, a comparison with the lowered condition [c]
    otherwise. *)
Definition caseCondition (UseSwitch : bool) (c : string) (bits val : Z)
  : string :=
  if UseSwitch then "case " +:+ APInt_toString bits val true +:+ ": "
  else "(" +:+ c +:+ " == " +:+ APInt_toString bits val true +:+ ")".

(** The cases that lead to the block [BB], in the order of the switch. *)
Definition casesTo (BB : string) (Cases : list (Z * string))
  : list (Z * string) :=
  filter (fun cs => cs.2 = BB) Cases.

(** The conditions of the cases that lead to [BB], the last case first,
    joined by [sepr]. *)
Definition joinedConditions (UseSwitch : bool) (c : string) (bits : Z)
  (sepr BB : string) (Cases : list (Z * string)) : option string :=
  match casesTo BB Cases with
  | [] => None
  | l => Some (joinWith sepr
                 (rev (map (fun cs => caseCondition UseSwitch c bits cs.1) l)))
  end.

(** [switch i32 %x, label %d [1, label %a  2, label %b  3, label %a]]. *)
Definition sample_switch_cases : list (Z * string) :=
  [(1, "a"); (2, "b"); (3, "a")].

(** ** Declarations of the local variables *)

Definition STACK_ALIGN : Z := 16.

(** The entries of [UsedVars] in the order of their keys, as the iteration
    over a [std::map] gives them. *)
Definition usedVarsInOrder (w : JSWriter) : list (string * Ty) :=
  foldr (fun e vars => smap_insert e.1 e.2 vars) []
    (map_to_list (UsedVars w)).

(** The initial value a local variable of a given type is declared
    with. *)
Definition varInitializer (opts : Options) (T : Ty) : result string :=
  match T with
  | PointerTy _ | IntegerTy _ => Ok "0"
  | FloatTy => if PreciseF32 opts then Ok "Math_fround(0)" else Ok "+0"
  | DoubleTy => Ok "+0"
  | VectorTy intElems =>
      Ok (if intElems then "SIMD_int32x4(0,0,0,0)"
          else "SIMD_float32x4(0,0,0,0)")
  | _ => Fatal "unsupported variable initializer type"
  end.

(** The loop of [printFunctionBody] that declares the local variables:
    [Count] declarations have been written on the current line. *)
Fixpoint emitVars_loop (opts : Options) (vars : list (string * Ty))
  (Count : Z) (Out : string) : result string :=
  match vars with
  | [] => Ok Out
  | (name, T) :: rest =>
      let Out1 := if Count =? 20
                  then Out +:+ ";" +:+ str1 (ascii_of_N 10) else Out in
      let Count1 := if Count =? 20 then 0 else Count in
      let Out2 := if Count1 =? 0 then Out1 +:+ " var " else Out1 in
      let Out3 := if 0 <? Count1 then Out2 +:+ ", " else Out2 in
      match varInitializer opts T with
      | Ok init =>
          emitVars_loop opts rest (Count1 + 1)
            (Out3 +:+ name +:+ " = " +:+ init)
      | Fatal msg => Fatal msg
      end
  end.

(** The part of [printFunctionBody] that emits the local variables, after
    the relooper has rendered the code.  [MaxAlignment] is the greatest
    alignment of the function's allocas. *)
Definition emitLocalVariables (opts : Options) (MaxAlignment : Z) : M string :=
  let* _ := modify (fun w =>
              with_UsedVars (<["sp" := IntegerTy 32]> (UsedVars w)) w) in
  let* _ := (if STACK_ALIGN <? MaxAlignment
             then modify (fun w =>
                    with_UsedVars (<["sp_a" := IntegerTy 32]> (UsedVars w)) w)
             else ret tt) in
  let* _ := modify (fun w =>
              with_UsedVars (<["label" := IntegerTy 32]> (UsedVars w)) w) in
  let* w := get in
  if bool_decide (UsedVars w = ∅) then ret ""
  else
    let* text := liftR (emitVars_loop opts (usedVarsInOrder w) 0 "") in
    ret (text +:+ ";" +:+ str1 (ascii_of_N 10)).

(** The declaration of one variable, and a line of declarations. *)
Definition declaration (opts : Options) (e : string * Ty) : string :=
  e.1 +:+ " = " +:+
    match varInitializer opts e.2 with Ok init => init | Fatal _ => "" end.

Definition declarationLine (opts : Options) (line : list (string * Ty))
  : string :=
  " var " +:+ joinWith ", " (map (declaration opts) line).

Definition declarationLines (opts : Options)
  (lines : list (list (string * Ty))) : string :=
  joinWith (";" +:+ str1 (ascii_of_N 10)) (map (declarationLine opts) lines).

(** The variables have types a declaration can initialize. *)
Definition initializable (opts : Options) (vars : list (string * Ty)) : Prop :=
  Forall (fun e => exists init, varInitializer opts e.2 = Ok init) vars.

(** A writer that has used 21 integer variables and one double. *)
Definition sample_vars : JSWriter :=
  with_UsedVars
    (<["$d" := DoubleTy]>
       (list_to_map
          (map (fun i => ("$" +:+ pretty i, IntegerTy 32)) (seq 0 21))))
    initialWriter.


(** * Properties *)

(** ** Strings *)

Lemma sapp_nil_l (s : string) : "" +:+ s = s.
Proof. reflexivity. Qed.

Lemma sapp_cons (c : ascii) (s t : string) :
  String c s +:+ t = String c (s +:+ t).
Proof. reflexivity. Qed.

Lemma sapp_nil_r (s : string) : s +:+ "" = s.
Proof. induction s as [|c s IH]; [done|]. by rewrite sapp_cons, IH. Qed.

Lemma sapp_assoc (s t u : string) : (s +:+ t) +:+ u = s +:+ t +:+ u.
Proof. induction s as [|c s IH]; [done|]. by rewrite !sapp_cons, IH. Qed.

Lemma slength_app (s t : string) :
  String.length (s +:+ t) = (String.length s + String.length t)%nat.
Proof. induction s as [|c s IH]; [done|]. rewrite sapp_cons. simpl. by rewrite IH. Qed.

(** ** Name mangler *)

Section MangleFacts.
Import Mangle.

Lemma sanitizeLocal_loop_spec (s : string) :
  forall Queued appended,
    sanitizeLocal_loop s Queued appended
    = (local_body s, appended +:+ local_suffix s Queued).
Proof.
  induction s as [|c rest IH]; intros Queued appended; simpl.
  - by rewrite sapp_nil_r.
  - destruct (illegal c); [destruct (Ascii.eqb c dot)|]; rewrite IH; try done.
    by rewrite !sapp_assoc.
Qed.

Lemma sanitizeLocal_spec (s : string) :
  sanitizeLocal s = String dollar (local_body s +:+ local_suffix s 0).
Proof. unfold sanitizeLocal. by rewrite sanitizeLocal_loop_spec. Qed.

Lemma plain_char_cases (c : ascii) :
  plain_char c = true ->
  c <> dollar /\ (illegal c = true -> c = dot).
Proof.
  unfold plain_char, illegal. intros H. split.
  - intros ->. by vm_compute in H.
  - destruct (isalnum c); [done|]. destruct (Ascii.eqb c underscore); [done|].
    simpl in *. intros _. by apply Ascii.eqb_eq.
Qed.

Lemma plain_local_suffix (s : string) :
  plain_name s = true -> forall Queued, local_suffix s Queued = "".
Proof.
  induction s as [|c rest IH]; simpl; [done|].
  intros [Hc Hrest]%andb_prop Queued.
  destruct (plain_char_cases c Hc) as [_ Hdot].
  destruct (illegal c); [|by apply IH].
  rewrite (Hdot eq_refl). simpl. by apply IH.
Qed.

Lemma plain_undollar (s : string) :
  plain_name s = true -> undollar (local_body s) = s.
Proof.
  induction s as [|c rest IH]; simpl; [done|].
  intros [Hc Hrest]%andb_prop. rewrite (IH Hrest). f_equal.
  destruct (plain_char_cases c Hc) as [Hnd Hdot].
  destruct (illegal c).
  - by rewrite (Hdot eq_refl).
  - destruct (Ascii.eqb_spec c dollar); [done|done].
Qed.

Lemma unsanitizeLocal_sanitizeLocal (s : string) :
  plain_name s = true -> unsanitizeLocal (sanitizeLocal s) = s.
Proof.
  intros H. rewrite sanitizeLocal_spec, (plain_local_suffix s H).
  simpl. rewrite sapp_nil_r. by apply plain_undollar.
Qed.

End MangleFacts.

Section MangleClaim.
Import Mangle.

Lemma sanitizeGlobal_get (s : string) :
  forall i c, String.get i s = Some c ->
    String.get (S i) (sanitizeGlobal s)
    = Some (if illegal c then underscore else c).
Proof.
  unfold sanitizeGlobal. simpl.
  induction s as [|a rest IH]; intros i c; simpl; [done|].
  destruct i as [|i]; [by intros [= ->]|]. apply IH.
Qed.

Lemma local_body_get (s : string) :
  forall i c, String.get i s = Some c ->
    String.get i (local_body s) = Some (if illegal c then dollar else c).
Proof.
  induction s as [|a rest IH]; intros i c; simpl; [done|].
  destruct i as [|i]; [by intros [= ->]|]. apply IH.
Qed.

Lemma local_body_length (s : string) :
  String.length (local_body s) = String.length s.
Proof. induction s as [|a rest IH]; simpl; [done|]. by rewrite IH. Qed.

Lemma sanitizeGlobal_plain (s : string) :
  plain_name s = true ->
  sanitizeGlobal s = String underscore (dots_to_underscores s).
Proof.
  unfold sanitizeGlobal. intros H. f_equal.
  induction s as [|c rest IH]; simpl; [done|].
  apply andb_prop in H as [Hc Hrest]. rewrite (IH Hrest). f_equal.
  destruct (plain_char_cases c Hc) as [_ Hdot].
  destruct (illegal c) eqn:Hill.
  - by rewrite (Hdot eq_refl).
  - destruct (Ascii.eqb_spec c dot) as [->|]; [by vm_compute in Hill|done].
Qed.

(** C4 (as amended).  For names made of ASCII letters, digits, ['_'] and
    ['.'] only: the local mangling sends distinct names to distinct outputs
    and is inverted by [unsanitizeLocal]; the global mangling sends two
    names to the same output exactly when they agree once every ['.'] is
    read as ['_'].  For every name, the global mangling prepends ['_'] and
    replaces each byte that is neither alphanumeric nor ['_'] by ['_']; the
    local mangling prepends ['$'], replaces each such byte by ['$'], and
    appends, for each such byte other than ['.'], one ['Z'] per ['.'] queued
    before it and the two hex digits of the byte. *)
Theorem mangle_plain_names (s1 s2 : string)
  (H1 : plain_name s1 = true) (H2 : plain_name s2 = true) :
  (s1 <> s2 -> sanitizeLocal s1 <> sanitizeLocal s2)
  /\ unsanitizeLocal (sanitizeLocal s1) = s1
  /\ (sanitizeGlobal s1 = sanitizeGlobal s2
      <-> dots_to_underscores s1 = dots_to_underscores s2)
  /\ (forall s : string,
        String.get 0 (sanitizeGlobal s) = Some underscore
        /\ String.length (sanitizeGlobal s) = S (String.length s)
        /\ (forall i c, String.get i s = Some c ->
              String.get (S i) (sanitizeGlobal s)
              = Some (if illegal c then underscore else c)))
  /\ (forall s : string,
        sanitizeLocal s = String dollar (local_body s +:+ local_suffix s 0)
        /\ String.length (local_body s) = String.length s
        /\ (forall i c, String.get i s = Some c ->
              String.get i (local_body s)
              = Some (if illegal c then dollar else c))).
Proof.
  split; [|split; [|split; [|split]]].
  - intros Hne Heq. apply Hne.
    rewrite <- (unsanitizeLocal_sanitizeLocal s1 H1).
    rewrite <- (unsanitizeLocal_sanitizeLocal s2 H2). by rewrite Heq.
  - by apply unsanitizeLocal_sanitizeLocal.
  - rewrite (sanitizeGlobal_plain s1 H1), (sanitizeGlobal_plain s2 H2).
    split; [by intros [= ->]|by intros ->].
  - intros s. split; [done|]. split; [|apply sanitizeGlobal_get].
    unfold sanitizeGlobal. simpl. f_equal.
    induction s as [|c rest IH]; simpl; [done|]. by rewrite IH.
  - intros s. split; [apply sanitizeLocal_spec|].
    split; [apply local_body_length|apply local_body_get].
Qed.

Lemma mangle_plain_names_witness :
  plain_name "x.a" = true /\ plain_name "y_b" = true
  /\ sanitizeLocal "x.a" <> sanitizeLocal "y_b".
Proof.
  split; [reflexivity|]. split; [reflexivity|].
  apply (mangle_plain_names "x.a" "y_b"); [reflexivity|reflexivity|].
  intros H. discriminate H.
Defined.

(** C4 as stated fails for the global mangling: two distinct names made of
    letters, ['_'] and ['.'] have the same mangled form. *)
Lemma sanitizeGlobal_collision :
  ~ (forall s1 s2 : string,
       plain_name s1 = true -> plain_name s2 = true -> s1 <> s2 ->
       sanitizeGlobal s1 <> sanitizeGlobal s2).
Proof.
  intros H. apply (H "x.a" "x_a"); [reflexivity|reflexivity| |reflexivity].
  intros Heq. discriminate Heq.
Qed.

End MangleClaim.

(** ** Dispatch tables *)

Lemma tableSize_loop_spec (n : Z) (Hn : n <= 2^31) (fuel : nat) :
  forall k : Z,
    0 <= k -> 32 <= k + Z.of_nat fuel -> (0 < k -> 2^(k-1) < n) ->
    exists k', tableSize_loop fuel (2^k) n = Some (2^k')
      /\ 0 <= k' <= 31 /\ n <= 2^k' /\ (0 < k' -> 2^(k'-1) < n).
Proof.
  induction fuel as [|fuel IH]; intros k Hk Hfuel Hmin; simpl.
  - destruct (Z.ltb_spec (2^k) n) as [Hlt|Hge].
    + exfalso. assert (2^31 <= 2^k) by (apply Z.pow_le_mono_r; lia). lia.
    + exfalso. assert (2^31 <= 2^k) by (apply Z.pow_le_mono_r; lia).
      assert (2^(k-1) < n) by (apply Hmin; lia).
      assert (2^31 <= 2^(k-1)) by (apply Z.pow_le_mono_r; lia). lia.
  - destruct (Z.ltb_spec (2^k) n) as [Hlt|Hge].
    + assert (k < 31) as Hk31.
      { destruct (Z.lt_ge_cases k 31); [done|].
        assert (2^31 <= 2^k) by (apply Z.pow_le_mono_r; lia). lia. }
      assert (wrap32 (Z.shiftl (2^k) 1) = 2^(k+1)) as ->.
      { rewrite Z.shiftl_mul_pow2 by lia. unfold wrap32.
        rewrite Z.pow_add_r by lia. rewrite Z.mod_small; [lia|].
        assert (2^k <= 2^30) by (apply Z.pow_le_mono_r; lia). lia. }
      destruct (IH (k+1)) as (k' & Heq & Hk' & Hle & Hmin'); [lia|lia| |].
      { intros _. by replace (k + 1 - 1) with k by lia. }
      exists k'. done.
    + exists k. repeat split; try done; try lia.
      destruct (Z.le_gt_cases k 31) as [|Hgt]; [done|].
      assert (2^(k-1) < n) by (apply Hmin; lia).
      assert (2^31 <= 2^(k-1)) by (apply Z.pow_le_mono_r; lia). lia.
Qed.

Lemma tableSize_spec (n : Z) :
  n <= 2^31 ->
  exists k, tableSize n = Some (2^k) /\ 0 <= k <= 31 /\ n <= 2^k
    /\ (forall j, 0 <= j -> n <= 2^j -> 2^k <= 2^j).
Proof.
  intros Hn.
  destruct (tableSize_loop_spec n Hn 33 0) as (k & Heq & Hk & Hle & Hmin);
    [lia|lia|lia|].
  exists k. repeat split; try done; try lia.
  intros j Hj Hnj. apply Z.pow_le_mono_r; [lia|].
  destruct (Z.eq_dec k 0) as [->|]; [lia|].
  destruct (Z.le_gt_cases k j) as [|Hgt]; [done|].
  assert (2^j <= 2^(k-1)) by (apply Z.pow_le_mono_r; lia).
  assert (2^(k-1) < n) by (apply Hmin; lia). lia.
Qed.

Lemma push_until_length (n : Z) (Table : list string) :
  Z.of_nat (length (push_until n Table)) = Z.max n (Z.of_nat (length Table)).
Proof. unfold push_until. rewrite length_app, length_replicate. lia. Qed.

Lemma push_until_id (n : Z) (Table : list string) :
  n <= Z.of_nat (length Table) -> push_until n Table = Table.
Proof.
  intros H. unfold push_until.
  replace (Z.to_nat (n - Z.of_nat (length Table))) with 0%nat by lia.
  apply app_nil_r.
Qed.

Section TableFrames.

Context (opts : Options) (CallHandlers : string -> option Handler).

Lemma getFunctionSignatureLetter_frame (T : Ty) (w : JSWriter) :
  let w' := (getFunctionSignatureLetter opts T w).2 in
  FunctionTables w' = FunctionTables w
  /\ IndexedFunctions w' = IndexedFunctions w
  /\ NextFunctionIndex w' = NextFunctionIndex w.
Proof. by destruct T. Qed.

Lemma getFunctionSignature_params_frame (params : list Ty) :
  forall w,
    let w' := (getFunctionSignature_params opts params w).2 in
    FunctionTables w' = FunctionTables w
    /\ IndexedFunctions w' = IndexedFunctions w
    /\ NextFunctionIndex w' = NextFunctionIndex w.
Proof.
  induction params as [|T rest IH]; intros w; simpl; [done|].
  pose proof (getFunctionSignatureLetter_frame T w) as HT.
  destruct (getFunctionSignatureLetter opts T w) as [c w1]. simpl in HT.
  pose proof (IH w1) as Hrest.
  destruct (getFunctionSignature_params opts rest w1) as [s w2].
  simpl in *. intuition congruence.
Qed.

Lemma getFunctionSignature_frame (F : Function) (w : JSWriter) :
  let w' := (getFunctionSignature opts F w).2 in
  FunctionTables w' = FunctionTables w
  /\ IndexedFunctions w' = IndexedFunctions w
  /\ NextFunctionIndex w' = NextFunctionIndex w.
Proof.
  unfold getFunctionSignature.
  pose proof (getFunctionSignatureLetter_frame (fn_ret F) w) as HT.
  destruct (getFunctionSignatureLetter opts (fn_ret F) w) as [c w1].
  pose proof (getFunctionSignature_params_frame (fn_params F) w1) as Hrest.
  destruct (getFunctionSignature_params opts (fn_params F) w1) as [s w2].
  simpl in *. intuition congruence.
Qed.

(** What [ensureFunctionTable] does to the tables. *)
Lemma ensureFunctionTable_tables (F : Function) (w : JSWriter) :
  let sig := (ensureFunctionTable opts F w).1 in
  let w' := (ensureFunctionTable opts F w).2 in
  FunctionTables w'
  = <[sig := push_until (MinSize opts) (default [] (FunctionTables w !! sig))]>
      (FunctionTables w)
  /\ IndexedFunctions w' = IndexedFunctions w
  /\ NextFunctionIndex w' = NextFunctionIndex w.
Proof.
  unfold ensureFunctionTable.
  pose proof (getFunctionSignature_frame F w) as Hs.
  destruct (getFunctionSignature opts F w) as [sig w1]. simpl in *.
  destruct Hs as (Ht & Hi & Hn). by rewrite Ht, Hi, Hn.
Qed.

Lemma runHandler_frame (h : Handler) (w : JSWriter) :
  FunctionTables (runHandler h w) = FunctionTables w
  /\ IndexedFunctions (runHandler h w) = IndexedFunctions w
  /\ NextFunctionIndex (runHandler h w) = NextFunctionIndex w.
Proof. unfold runHandler. by destruct (h _). Qed.

(** What [getFunctionIndex] does: either the function is already indexed
    and nothing changes, or its name is appended at the end of its table. *)
Lemma getFunctionIndex_cases (F : Function) (w : JSWriter) :
  let Name := Mangle.sanitizeGlobal (fn_name F) in
  let '(Index, w') := getFunctionIndex opts CallHandlers F w in
  (IndexedFunctions w !! Name = Some Index /\ w' = w)
  \/ (IndexedFunctions w !! Name = None
      /\ exists sig Table2,
          (exists extra,
             Table2 = push_until (MinSize opts)
                        (default [] (FunctionTables w !! sig)) ++ extra)
          /\ Index = wrap32 (Z.of_nat (length Table2))
          /\ FunctionTables w' = <[sig := Table2 ++ [Name]]>
               (<[sig := push_until (MinSize opts)
                           (default [] (FunctionTables w !! sig))]>
                  (FunctionTables w))
          /\ IndexedFunctions w' = <[Name := Index]> (IndexedFunctions w)).
Proof.
  intros Name. unfold getFunctionIndex, getJSName_global. fold Name.
  destruct (IndexedFunctions w !! Name) as [Index|] eqn:Hidx; [by left|].
  pose proof (getFunctionSignature_frame F w) as Hs.
  destruct (getFunctionSignature opts F w) as [sig0 w1]. simpl in Hs.
  destruct Hs as (Ht1 & Hi1 & Hn1).
  pose proof (ensureFunctionTable_tables F w1) as He.
  destruct (ensureFunctionTable opts F w1) as [sig w2]. simpl in He.
  destruct He as (Ht2 & Hi2 & Hn2).
  cbv beta iota zeta. right. split; [done|].
  assert (default [] (FunctionTables w2 !! sig)
          = push_until (MinSize opts) (default [] (FunctionTables w !! sig)))
    as HTable.
  { rewrite Ht2, lookup_insert_eq. simpl. by rewrite Ht1. }
  rewrite HTable.
  set (Table2 := push_while_unaligned _ _).
  exists sig, Table2.
  split.
  { unfold Table2, push_while_unaligned.
    destruct (NoAliasingFunctionPointers opts); unfold push_until at 1.
    - eexists. by rewrite <- (assoc_L (++)).
    - by eexists. }
  split; [done|].
  assert (forall w5 : JSWriter,
            FunctionTables
              match CallHandlers Name with
              | Some h => runHandler h w5 | None => w5 end = FunctionTables w5
            /\ IndexedFunctions
              match CallHandlers Name with
              | Some h => runHandler h w5 | None => w5 end = IndexedFunctions w5)
    as Hh.
  { intros w5. destruct (CallHandlers Name) as [h|]; [|done].
    destruct (runHandler_frame h w5) as (-> & -> & _). done. }
  match goal with
  | |- FunctionTables match _ with Some h => _ h ?w5 | None => _ end = _ /\ _ =>
      destruct (Hh w5) as [-> ->]
  end.
  destruct (NoAliasingFunctionPointers opts); simpl;
    rewrite Ht2, Ht1, Hi2, Hi1; done.
Qed.

End TableFrames.

Section TableFacts.

Context (opts : Options) (CallHandlers : string -> option Handler).
Hypothesis HR : 0 <= ReservedFunctionPointers opts < 2^30.

Lemma MinSize_eq :
  MinSize opts = if ReservedFunctionPointers opts =? 0 then 1
                 else 2 * (ReservedFunctionPointers opts + 1).
Proof.
  unfold MinSize. destruct (_ =? 0); [done|].
  unfold wrap32. apply Z.mod_small. lia.
Qed.

Lemma MinSize_pos : 1 <= MinSize opts.
Proof. rewrite MinSize_eq. destruct (_ =? 0); lia. Qed.

Lemma table_ok_app (Table extra : list string) :
  table_ok opts Table -> table_ok opts (Table ++ extra).
Proof.
  intros [Hlen Hzero]. split.
  - rewrite length_app. lia.
  - intros i Hi. rewrite lookup_app_l by lia. by apply Hzero.
Qed.

Lemma table_ok_fresh : table_ok opts (push_until (MinSize opts) []).
Proof.
  pose proof MinSize_pos. split.
  - rewrite push_until_length. simpl. lia.
  - intros i Hi. unfold push_until. simpl.
    apply lookup_replicate_2. lia.
Qed.

Lemma table_ok_ensure (o : option (list string)) :
  (forall Table, o = Some Table -> table_ok opts Table) ->
  table_ok opts (push_until (MinSize opts) (default [] o)).
Proof.
  destruct o as [Table|]; simpl; intros H.
  - by apply table_ok_app, H.
  - apply table_ok_fresh.
Qed.

Lemma padTable_spec (Table Table' : list string) :
  padTable Table = Some Table' ->
  exists Size, tableSize (Z.of_nat (length Table)) = Some Size
    /\ Table' = push_until Size Table.
Proof.
  unfold padTable. destruct (tableSize _) as [Size|]; [|done].
  intros [= <-]. by exists Size.
Qed.

Lemma emitTable_spec (sig text : string) (Table Table' : list string) :
  emitTable sig Table = Some (text, Table') -> padTable Table = Some Table'.
Proof.
  unfold emitTable. destruct (padTable Table); [|done]. by intros [= _ <-].
Qed.

Lemma table_step_tables_ok (w w' : JSWriter) :
  table_step opts CallHandlers w w' -> tables_ok opts w -> tables_ok opts w'.
Proof.
  intros Hstep Hok. destruct Hstep as [F w|F w|sig Table Table' text w HT He|w w' Ht _ _].
  - destruct (ensureFunctionTable_tables opts CallHandlers F w) as (Ht & _ & _).
    intros sig' Table. rewrite Ht.
    destruct (decide ((ensureFunctionTable opts F w).1 = sig')) as [<-|Hne].
    + rewrite lookup_insert_eq. intros [= <-].
      apply table_ok_ensure. intros T HT. by eapply Hok.
    + rewrite lookup_insert_ne by done. apply Hok.
  - pose proof (getFunctionIndex_cases opts CallHandlers F w) as Hc.
    destruct (getFunctionIndex opts CallHandlers F w) as [Index w'].
    simpl in *. destruct Hc as [[_ ->]|(_ & sig & Table2 & [extra ->] & _ & Ht & _)];
      [done|].
    intros sig' Table. rewrite Ht.
    destruct (decide (sig = sig')) as [<-|Hne].
    + rewrite lookup_insert_eq. intros [= <-].
      apply table_ok_app, table_ok_app, table_ok_ensure.
      intros T HT. by eapply Hok.
    + rewrite !lookup_insert_ne by done. apply Hok.
  - apply emitTable_spec, padTable_spec in He as (Size & _ & ->).
    intros sig' T. simpl.
    destruct (decide (sig = sig')) as [<-|Hne].
    + rewrite lookup_insert_eq. intros [= <-].
      apply table_ok_app. by eapply Hok.
    + rewrite lookup_insert_ne by done. apply Hok.
  - intros sig' T. rewrite Ht. apply Hok.
Qed.

(** Tables only grow: a step keeps every table and extends it at its end. *)
Lemma table_step_grows (w w' : JSWriter) :
  table_step opts CallHandlers w w' ->
  forall sig Table, FunctionTables w !! sig = Some Table ->
    exists extra, FunctionTables w' !! sig = Some (Table ++ extra).
Proof.
  intros Hstep sig' T HT.
  destruct Hstep as [F w|F w|sig Table Table' text w HTable He|w w' Ht _ _].
  - destruct (ensureFunctionTable_tables opts CallHandlers F w) as (Ht & _ & _). rewrite Ht.
    destruct (decide ((ensureFunctionTable opts F w).1 = sig')) as [<-|Hne].
    + rewrite lookup_insert_eq, HT. by eexists.
    + rewrite lookup_insert_ne by done. exists []. by rewrite app_nil_r.
  - pose proof (getFunctionIndex_cases opts CallHandlers F w) as Hc.
    destruct (getFunctionIndex opts CallHandlers F w) as [Index w'].
    simpl in *. destruct Hc as [[_ ->]|(_ & sig & Table2 & [extra ->] & _ & Ht & _)].
    { exists []. by rewrite app_nil_r. }
    rewrite Ht. destruct (decide (sig = sig')) as [<-|Hne].
    + rewrite lookup_insert_eq, HT. simpl. unfold push_until.
      rewrite <- !(assoc_L (++)). by eexists.
    + rewrite !lookup_insert_ne by done. exists []. by rewrite app_nil_r.
  - apply emitTable_spec, padTable_spec in He as (Size & _ & ->). simpl.
    destruct (decide (sig = sig')) as [<-|Hne].
    + rewrite lookup_insert_eq. rewrite HTable in HT. injection HT as <-.
      by eexists.
    + rewrite lookup_insert_ne by done. exists []. by rewrite app_nil_r.
  - rewrite Ht. exists []. by rewrite app_nil_r.
Qed.

Lemma table_step_bounded (w w' : JSWriter) :
  table_step opts CallHandlers w w' -> tables_bounded w' -> tables_bounded w.
Proof.
  intros Hstep Hb sig Table HT.
  destruct (table_step_grows w w' Hstep sig Table HT) as [extra Hw'].
  apply Hb in Hw'. rewrite length_app in Hw'. lia.
Qed.


Lemma reachable_tables_ok (w : JSWriter) :
  tables_reachable opts CallHandlers w -> tables_ok opts w.
Proof.
  unfold tables_reachable. revert w.
  apply rtc_ind_r; [|intros y z Hxy Hyz IH].
  - intros sig Table. simpl. by rewrite lookup_empty.
  - by eapply table_step_tables_ok.
Qed.


(** C1 (as amended).  In every state of the writer, a dispatch table has at
    least [MinSize] entries, which is [2*(R+1)] when [R] reserved slots are
    asked for and 1 when none are; when the reserved-pointers option is set
    every entry in slots [0, 2*R) is the placeholder; and the emitted table
    is the table padded with placeholders to the smallest power of two that
    is at least its length. *)
Theorem dispatch_table_invariant (w : JSWriter) (sig : string)
  (Table : list string)
  (Hreach : tables_reachable opts CallHandlers w)
  (HTable : FunctionTables w !! sig = Some Table) :
  (if ReservedFunctionPointers opts =? 0 then 1
   else 2 * (ReservedFunctionPointers opts + 1)) <= Z.of_nat (length Table)
  /\ (ReservedFunctionPointers opts <> 0 ->
      forall i : nat, Z.of_nat i < 2 * ReservedFunctionPointers opts ->
        Table !! i = Some "0")
  /\ (Z.of_nat (length Table) <= 2^31 ->
      exists text Table' k,
        emitTable sig Table = Some (text, Table')
        /\ 0 <= k /\ Z.of_nat (length Table') = 2^k
        /\ Z.of_nat (length Table) <= 2^k
        /\ (forall j, 0 <= j -> Z.of_nat (length Table) <= 2^j -> 2^k <= 2^j)
        /\ (exists n, Table' = Table ++ replicate n "0")
        /\ (ReservedFunctionPointers opts <> 0 ->
            forall i : nat, Z.of_nat i < 2 * ReservedFunctionPointers opts ->
              Table' !! i = Some "0")).
Proof.
  destruct (reachable_tables_ok w Hreach sig Table HTable) as [Hmin Hzero].
  rewrite MinSize_eq in Hmin, Hzero.
  assert (ReservedFunctionPointers opts <> 0 ->
          forall i : nat, Z.of_nat i < 2 * ReservedFunctionPointers opts ->
            Table !! i = Some "0") as Hres.
  { intros HR0 i Hi. apply Hzero.
    destruct (Z.eqb_spec (ReservedFunctionPointers opts) 0); [done|lia]. }
  split; [done|]. split; [done|].
  intros Hlen.
  destruct (tableSize_spec _ Hlen) as (k & Hsize & Hk & Hle & Hleast).
  exists ("  " +:+ dquote +:+ sig +:+ dquote +:+ ": " +:+ dquote
            +:+ "var FUNCTION_TABLE_" +:+ sig +:+ " = ["
            +:+ commaSeparated (push_until (2^k) Table) +:+ "];" +:+ dquote),
    (push_until (2^k) Table), k.
  split; [by unfold emitTable, padTable; rewrite Hsize|].
  split; [lia|]. split; [rewrite push_until_length; lia|].
  split; [done|]. split; [done|]. split; [by eexists|].
  intros HR0 i Hi. unfold push_until.
  rewrite lookup_app_l; [by apply Hres|].
  destruct (Z.eqb_spec (ReservedFunctionPointers opts) 0); [done|lia].
Qed.


End TableFacts.

Lemma tables_bounded_dec (w : JSWriter) :
  map_Forall (fun _ Table => Z.of_nat (length Table) < 2^32) (FunctionTables w) ->
  tables_bounded w.
Proof. intros H sig Table HT. by apply (H sig Table). Qed.

Lemma dispatch_table_invariant_witness :
  let w := (getFunctionIndex reservedOptions noHandlers sample_f initialWriter).2 in
  0 <= ReservedFunctionPointers reservedOptions < 2^30
  /\ tables_reachable reservedOptions noHandlers w
  /\ FunctionTables w !! "ii" = Some ["0"; "0"; "0"; "0"; "_f"]
  /\ 2 * (ReservedFunctionPointers reservedOptions + 1) <= 5.
Proof.
  assert (0 <= ReservedFunctionPointers reservedOptions < 2^30) as HR
    by (simpl; lia).
  assert (tables_reachable reservedOptions noHandlers
            (getFunctionIndex reservedOptions noHandlers sample_f initialWriter).2)
    as Hreach by (apply rtc_once, ts_index).
  assert (FunctionTables
            (getFunctionIndex reservedOptions noHandlers sample_f initialWriter).2
            !! "ii" = Some ["0"; "0"; "0"; "0"; "_f"]) as HT
    by (vm_compute; reflexivity).
  split; [exact HR|]. split; [exact Hreach|]. split; [exact HT|].
  exact (proj1 (dispatch_table_invariant reservedOptions noHandlers HR _ _ _
                  Hreach HT)).
Defined.

(** C1 as stated fails when no slot is reserved: a table that was only
    ensured has a single entry, fewer than [2*(0+1)]. *)
Lemma dispatch_table_min_size_counterexample :
  ~ (forall (opts : Options) (handlers : string -> option Handler)
       (w : JSWriter) (sig : string) (Table : list string),
       0 <= ReservedFunctionPointers opts < 2^30 ->
       tables_reachable opts handlers w ->
       FunctionTables w !! sig = Some Table ->
       2 * (ReservedFunctionPointers opts + 1) <= Z.of_nat (length Table)).
Proof.
  intros H.
  assert (2 * (ReservedFunctionPointers defaultOptions + 1)
          <= Z.of_nat (length ["0"])) as Hle; [|simpl in Hle; lia].
  apply (H defaultOptions noHandlers
           (ensureFunctionTable defaultOptions sample_f initialWriter).2 "ii").
  - simpl. lia.
  - apply rtc_once, ts_ensure.
  - vm_compute. reflexivity.
Qed.


(** ** Global addresses *)

(** Unfolds the monad operations in a hypothesis or in the goal. *)
Ltac unfold_M :=
  unfold bind, ret, fatal, get, modify, assert in *.

Lemma pad_to_multiple_length (data : list Z) :
  Z.of_nat (length (pad_to_multiple 8 data)) mod 8 = 0
  /\ Z.of_nat (length data) <= Z.of_nat (length (pad_to_multiple 8 data)).
Proof.
  unfold pad_to_multiple. rewrite length_app, length_replicate.
  rewrite Nat2Z.inj_add.
  assert (0 <= (8 - Z.of_nat (length data) mod 8) mod 8)
    by (apply Z.mod_pos_bound; lia).
  rewrite Z2Nat.id by done. split; [|lia].
  generalize (Z.of_nat (length data)). intros l.
  Z.div_mod_to_equations. lia.
Qed.

Lemma allocateAddress_ok (Name : string) (Bits : Z) (r : Region)
  (w w' : JSWriter) :
  allocateAddress Name Bits w = Ok (r, w') ->
  Bits = 64 /\ r = Heap64
  /\ w' = with_GlobalAddresses
            (<[Name := (wrap32 (Z.of_nat
                                  (length (pad_to_multiple 8 (GlobalData64 w)))),
                        64)]> (GlobalAddresses w))
            (with_GlobalData64 (pad_to_multiple 8 (GlobalData64 w)) w).
Proof.
  unfold allocateAddress. unfold_M.
  destruct (Z.eqb_spec Bits 64) as [->|]; [|done]. simpl.
  by intros [= <- <-].
Qed.

Lemma wrap32_mod8 (x : Z) : wrap32 x mod 8 = x mod 8.
Proof.
  unfold wrap32. change (2^32) with 4294967296.
  Z.div_mod_to_equations. lia.
Qed.

Lemma heap_step_addresses_ok (w w' : JSWriter) :
  heap_step w w' -> addresses_ok w -> addresses_ok w'.
Proof.
  intros Hstep Hok.
  destruct Hstep as [Name Bits r w w' Ha|r b w|Offset b w _|w w' _ _ _ Ha].
  - apply allocateAddress_ok in Ha as (-> & -> & ->).
    intros G first second. simpl.
    destruct (decide (Name = G)) as [<-|Hne].
    + rewrite lookup_insert_eq. intros [= <- <-].
      split; [done|]. split.
      * rewrite wrap32_mod8. apply pad_to_multiple_length.
      * unfold wrap32. apply Z.mod_pos_bound. lia.
    + rewrite lookup_insert_ne by done. apply Hok.
  - intros G first second HG. apply (Hok G). by destruct r.
  - done.
  - intros G first second. rewrite Ha. apply Hok.
Qed.

Lemma heap_reachable_addresses_ok (w : JSWriter) :
  heap_reachable w -> addresses_ok w.
Proof.
  unfold heap_reachable. revert w.
  apply rtc_ind_r; [|intros y z Hxy Hyz IH].
  - intros G first second. simpl. by rewrite lookup_empty.
  - by eapply heap_step_addresses_ok.
Qed.

Lemma push_bytes_reachable (r : Region) (bytes : list Z) :
  forall w, rtc heap_step w (foldl (fun w b => push_back r b w) w bytes).
Proof.
  induction bytes as [|b rest IH]; intros w; simpl; [done|].
  eapply rtc_l; [apply (hs_push r b)|apply IH].
Qed.

Lemma allocateBytes_reachable (name : string) (bytes : list Z)
  (w w' : JSWriter) :
  allocateBytes name bytes w = Ok (tt, w') -> rtc heap_step w w'.
Proof.
  unfold allocateBytes. unfold bind at 1.
  destruct (allocateAddress name 64 w) as [[r w1]|] eqn:Ha; [|done].
  unfold modify. intros [= <-].
  eapply rtc_l; [by eapply hs_allocate|apply push_bytes_reachable].
Qed.

(** C2.  For a global that has been allocated, the recorded offset is a
    multiple of the width in bytes; whatever [getGlobalAddress] returns is
    a multiple of it too and equals, in 32-bit arithmetic, the offset plus
    [GlobalBase] plus the sizes of the regions emitted before the global's
    region; and [getGlobalAddress] does return when [GlobalBase] is a
    multiple of 8 (its default is 8). *)
Theorem global_address_aligned (opts : Options) (w : JSWriter) (G : string)
  (first second : Z)
  (Hreach : heap_reachable w)
  (HG : GlobalAddresses w !! G = Some (first, second)) :
  first mod (second / 8) = 0
  /\ (forall a w', getGlobalAddress opts G w = Ok (a, w') ->
        w' = w
        /\ a mod (second / 8) = 0
        /\ a = wrap32 (first + GlobalBase opts + precedingRegions second w)
        /\ (0 <= first + GlobalBase opts + precedingRegions second w < 2^32 ->
            a = first + GlobalBase opts + precedingRegions second w))
  /\ (GlobalBase opts mod 8 = 0 ->
      exists a, getGlobalAddress opts G w = Ok (a, w)).
Proof.
  destruct (heap_reachable_addresses_ok w Hreach G first second HG)
    as (-> & Hmod & Hrange).
  change (64 / 8) with 8. unfold precedingRegions. simpl.
  rewrite Z.add_0_r.
  split; [done|]. split.
  - intros a w'. unfold getGlobalAddress. unfold_M. rewrite HG. simpl.
    destruct (Z.eqb_spec (wrap32 (first + GlobalBase opts) mod 8) 0)
      as [Ha|]; [|done].
    intros [= <- <-]. split; [done|]. split; [done|]. split; [done|].
    intros Hsmall. unfold wrap32. by apply Z.mod_small.
  - intros Hbase. exists (wrap32 (first + GlobalBase opts)).
    unfold getGlobalAddress. unfold_M. rewrite HG. simpl.
    assert (wrap32 (first + GlobalBase opts) mod 8 = 0) as ->; [|done].
    rewrite wrap32_mod8, Z.add_mod, Hmod, Hbase by lia. done.
Qed.

Lemma sample_heap_reachable : heap_reachable sample_heap.
Proof.
  unfold heap_reachable, sample_heap.
  destruct (allocateBytes "s" _ initialWriter) as [[[] w1]|] eqn:H1; [|done].
  destruct (allocateBytes "t" _ w1) as [[[] w2]|] eqn:H2.
  - etrans; by eapply allocateBytes_reachable.
  - by eapply allocateBytes_reachable.
Qed.

Lemma global_address_aligned_witness :
  heap_reachable sample_heap
  /\ GlobalAddresses sample_heap !! "t" = Some (8, 64)
  /\ getGlobalAddress defaultOptions "t" sample_heap = Ok (16, sample_heap)
  /\ 8 mod (64 / 8) = 0.
Proof.
  assert (GlobalAddresses sample_heap !! "t" = Some (8, 64)) as HG
    by (vm_compute; reflexivity).
  split; [exact sample_heap_reachable|]. split; [exact HG|].
  split; [vm_compute; reflexivity|].
  exact (proj1 (global_address_aligned defaultOptions sample_heap "t" 8 64
                  sample_heap_reachable HG)).
Defined.

(** ** Constants written into globals *)

(** C3.  [getConstAsOffset] looks through aliases and constant expressions
    and then: for a global variable without initializer it returns 0,
    records the external and appends [HEAP32[a] = name;] to [PostSets],
    where [a] is the absolute target shifted right by 2 and [name] is the
    mangled name of the external; for a function it returns the function's
    dispatch index; for a block address the block's index; for a defined
    global its absolute address. *)
Theorem getConstAsOffset_cases (opts : Options)
  (handlers : string -> option Handler) (V : Value) (AbsoluteTarget : Z)
  (w : JSWriter) :
  match resolveFully V with
  | GlobalVariable name _ false =>
      exists w',
        getConstAsOffset opts handlers V AbsoluteTarget w = Ok (0, w')
        /\ PostSets w'
           = PostSets w +:+ "HEAP32[" +:+ utostr (Z.shiftr AbsoluteTarget 2)
               +:+ "] = " +:+ Mangle.sanitizeGlobal name +:+ ";"
        /\ Externals w' = {[Mangle.sanitizeGlobal name]} ∪ Externals w
        /\ GlobalData64 w' = GlobalData64 w
        /\ GlobalAddresses w' = GlobalAddresses w
        /\ FunctionTables w' = FunctionTables w
        /\ IndexedFunctions w' = IndexedFunctions w
  | GlobalVariable name _ true =>
      getConstAsOffset opts handlers V AbsoluteTarget w
      = getGlobalAddress opts name w
  | FunctionV F =>
      getConstAsOffset opts handlers V AbsoluteTarget w
      = Ok (getFunctionIndex opts handlers F w)
  | BlockAddress F BB =>
      getConstAsOffset opts handlers V AbsoluteTarget w
      = getBlockAddress F BB w
      /\ (forall Blocks Index,
            BlockAddresses w !! fn_name F = Some Blocks ->
            Blocks !! BB = Some Index ->
            getBlockAddress F BB w = Ok (Index, w))
  | _ => True
  end.
Proof.
  unfold getConstAsOffset.
  destruct (resolveFully V) as [| | | | | | | | F BB|name ty [] | |]; try done.
  - split; [done|]. intros Blocks Index HB HI.
    unfold getBlockAddress. unfold_M. rewrite HB. simpl. by rewrite HI.
  - unfold_M. simpl. by eexists.
Qed.

Example getConstAsOffset_external :
  match getConstAsOffset defaultOptions noHandlers
          (ConstantExpr CE_BitCast (PointerTy (IntegerTy 8))
             (GlobalVariable "environ" (PointerTy (IntegerTy 8)) false))
          24 sample_heap with
  | Ok (r, w') => r = 0 /\ PostSets w' = "HEAP32[6] = _environ;"
  | Fatal _ => False
  end.
Proof. vm_compute. split; reflexivity. Qed.

Example getConstAsOffset_defined :
  getConstAsOffset defaultOptions noHandlers
    (GlobalVariable "t" (IntegerTy 32) true) 0 sample_heap
  = Ok (16, sample_heap).
Proof. vm_compute. reflexivity. Qed.

(** ** The switch heuristic *)







Example switch_sparse_cases :
  considerConditionVar (SwitchInst sample_condition "dflt" sparse_cases) = None.
Proof. reflexivity. Qed.

(** ** Multiplication *)



Example getIMul_power_of_two :
  getIMul defaultOptions noHandlers (Argument "a" (IntegerTy 32))
    (ConstantInt 32 8) initialWriter
  = Ok ("$a<<3", initialWriter).
Proof. reflexivity. Qed.

Example getIMul_small_constant :
  getIMul defaultOptions noHandlers (ConstantInt 32 10)
    (Argument "a" (IntegerTy 32)) initialWriter
  = Ok ("($a*10)|0", initialWriter).
Proof. reflexivity. Qed.

Example getIMul_no_constant :
  getIMul defaultOptions noHandlers (Argument "a" (IntegerTy 32))
    (Argument "b" (IntegerTy 32)) initialWriter
  = Ok ("Math_imul($a, $b)|0", initialWriter).
Proof. reflexivity. Qed.

(** ** Loads and stores *)

(** Evaluates the decimal renderings in the goal and reassociates the
    concatenations to the right. *)
Ltac string_norm :=
  repeat match goal with
         | |- context [utostr ?n] =>
             let s := eval vm_compute in (utostr n) in
             change (utostr n) with s
         end;
  cbn [Z.eqb Pos.eqb]; rewrite ?sapp_assoc; cbn [String.append].

Section LoadFacts.

Context (opts : Options) (handlers : string -> option Handler) (DL : Ty -> Z).

Lemma getAssign_ok (I : Value) (w : JSWriter) :
  getAssign I w
  = Ok (Mangle.sanitizeLocal (getName I) +:+ " = ",
        with_UsedVars
          (<[Mangle.sanitizeLocal (getName I) := typeOf I]> (UsedVars w)) w).
Proof. reflexivity. Qed.

Lemma getLoad_unfold (I P : Value) (T : Ty) (A : Z) (sep : string)
  (w : JSWriter) :
  getLoad opts handlers DL I P T A sep w
  = (if (DL T <=? A) || (A =? 0)
     then getLoad_aligned opts handlers DL
            (Mangle.sanitizeLocal (getName I) +:+ " = ") P
     else getLoad_unaligned opts handlers
            (Mangle.sanitizeLocal (getName I) +:+ " = ") P T (DL T) A sep)
      (with_UsedVars
         (<[Mangle.sanitizeLocal (getName I) := typeOf I]> (UsedVars w)) w).
Proof. reflexivity. Qed.

Lemma orOfAccesses_4_2 (PS : string) :
  "HEAPU16[" +:+ PS +:+ ">>1]|" +:+ "(HEAPU16[" +:+ PS +:+ "+2>>1]<<16)"
  = orOfAccesses 4 2 PS.
Proof.
  unfold orOfAccesses, intAccess, pieceOffset.
  vm_compute (seqZ _ _). cbn [map joinWith]. by string_norm.
Qed.

Lemma orOfAccesses_4_1 (PS : string) :
  "HEAPU8[" +:+ PS +:+ ">>0]|" +:+ "(HEAPU8[" +:+ PS +:+ "+1>>0]<<8)|" +:+
  "(HEAPU8[" +:+ PS +:+ "+2>>0]<<16)|" +:+ "(HEAPU8[" +:+ PS +:+ "+3>>0]<<24)"
  = orOfAccesses 4 1 PS.
Proof.
  unfold orOfAccesses, intAccess, pieceOffset.
  vm_compute (seqZ _ _). cbn [map joinWith]. by string_norm.
Qed.

Lemma orOfAccesses_2_1 (PS : string) :
  "HEAPU8[" +:+ PS +:+ ">>0]|" +:+ "(HEAPU8[" +:+ PS +:+ "+1>>0]<<8)"
  = orOfAccesses 2 1 PS.
Proof.
  unfold orOfAccesses, intAccess, pieceOffset.
  vm_compute (seqZ _ _). cbn [map joinWith]. by string_norm.
Qed.

Lemma stagedCopies_8_4 (PS sep : string) :
  "HEAP32[tempDoublePtr>>2]=HEAP32[" +:+ PS +:+ ">>2]" +:+ sep +:+
  "HEAP32[tempDoublePtr+4>>2]=HEAP32[" +:+ PS +:+ "+4>>2]"
  = stagedCopies 8 4 PS sep.
Proof.
  unfold stagedCopies, stageCopy, pieceOffset.
  vm_compute (seqZ _ _). cbn [map joinWith]. by string_norm.
Qed.

Lemma stagedCopies_8_2 (PS sep : string) :
  "HEAP16[tempDoublePtr>>1]=HEAP16[" +:+ PS +:+ ">>1]" +:+ sep +:+
  "HEAP16[tempDoublePtr+2>>1]=HEAP16[" +:+ PS +:+ "+2>>1]" +:+ sep +:+
  "HEAP16[tempDoublePtr+4>>1]=HEAP16[" +:+ PS +:+ "+4>>1]" +:+ sep +:+
  "HEAP16[tempDoublePtr+6>>1]=HEAP16[" +:+ PS +:+ "+6>>1]"
  = stagedCopies 8 2 PS sep.
Proof.
  unfold stagedCopies, stageCopy, pieceOffset.
  vm_compute (seqZ _ _). cbn [map joinWith]. by string_norm.
Qed.

Lemma stagedCopies_8_1 (PS sep : string) :
  "HEAP8[tempDoublePtr>>0]=HEAP8[" +:+ PS +:+ ">>0]" +:+ sep +:+
  "HEAP8[tempDoublePtr+1>>0]=HEAP8[" +:+ PS +:+ "+1>>0]" +:+ sep +:+
  "HEAP8[tempDoublePtr+2>>0]=HEAP8[" +:+ PS +:+ "+2>>0]" +:+ sep +:+
  "HEAP8[tempDoublePtr+3>>0]=HEAP8[" +:+ PS +:+ "+3>>0]" +:+ sep +:+
  "HEAP8[tempDoublePtr+4>>0]=HEAP8[" +:+ PS +:+ "+4>>0]" +:+ sep +:+
  "HEAP8[tempDoublePtr+5>>0]=HEAP8[" +:+ PS +:+ "+5>>0]" +:+ sep +:+
  "HEAP8[tempDoublePtr+6>>0]=HEAP8[" +:+ PS +:+ "+6>>0]" +:+ sep +:+
  "HEAP8[tempDoublePtr+7>>0]=HEAP8[" +:+ PS +:+ "+7>>0]"
  = stagedCopies 8 1 PS sep.
Proof.
  unfold stagedCopies, stageCopy, pieceOffset.
  vm_compute (seqZ _ _). cbn [map joinWith]. by string_norm.
Qed.

Lemma stagedCopies_4_2 (PS sep : string) :
  "HEAP16[tempDoublePtr>>1]=HEAP16[" +:+ PS +:+ ">>1]" +:+ sep +:+
  "HEAP16[tempDoublePtr+2>>1]=HEAP16[" +:+ PS +:+ "+2>>1]"
  = stagedCopies 4 2 PS sep.
Proof.
  unfold stagedCopies, stageCopy, pieceOffset.
  vm_compute (seqZ _ _). cbn [map joinWith]. by string_norm.
Qed.

Lemma stagedCopies_4_1 (PS sep : string) :
  "HEAP8[tempDoublePtr>>0]=HEAP8[" +:+ PS +:+ ">>0]" +:+ sep +:+
  "HEAP8[tempDoublePtr+1>>0]=HEAP8[" +:+ PS +:+ "+1>>0]" +:+ sep +:+
  "HEAP8[tempDoublePtr+2>>0]=HEAP8[" +:+ PS +:+ "+2>>0]" +:+ sep +:+
  "HEAP8[tempDoublePtr+3>>0]=HEAP8[" +:+ PS +:+ "+3>>0]"
  = stagedCopies 4 1 PS sep.
Proof.
  unfold stagedCopies, stageCopy, pieceOffset.
  vm_compute (seqZ _ _). cbn [map joinWith]. by string_norm.
Qed.

End LoadFacts.

Section LoadClaims.

Context (opts : Options) (handlers : string -> option Handler) (DL : Ty -> Z).

(** The two branches of [getLoad], with the text each one produces. *)
Lemma getLoad_cases (I P : Value) (T : Ty) (A : Z) (sep : string)
  (w : JSWriter) :
  let Assign := Mangle.sanitizeLocal (getName I) +:+ " = " in
  let w1 := with_UsedVars
              (<[Mangle.sanitizeLocal (getName I) := typeOf I]> (UsedVars w))
              w in
  let B := DL T in
  ((B <= A \/ A = 0) ->
     forall load w2,
       getPtrLoad opts handlers DL P w1 = Ok (load, w2) ->
       getLoad opts handlers DL I P T A sep w
       = Ok (Assign +:+ load +:+
               (if isAbsolute P
                then "; abort() /* segfault, load from absolute addr */"
                else ""), w2))
  /\ (A < B -> A <> 0 ->
      forall PS w2,
        getValueAsStr opts handlers P ASM_SIGNED w1 = Ok (PS, w2) ->
        (B = 4 -> isIntegerTy T || isPointerTy T = true -> A = 2 \/ A = 1 ->
           getLoad opts handlers DL I P T A sep w
           = Ok (Assign +:+ orOfAccesses B A PS, w2))
        /\ (B = 2 -> A = 1 ->
              getLoad opts handlers DL I P T A sep w
              = Ok (Assign +:+ orOfAccesses B A PS, w2))
        /\ (B = 8 -> A = 4 \/ A = 2 \/ A = 1 ->
              getLoad opts handlers DL I P T A sep w
              = Ok (stagedCopies B A PS sep +:+ sep +:+ Assign
                      +:+ "+HEAPF64[tempDoublePtr>>3]", w2))
        /\ (B = 4 -> isIntegerTy T || isPointerTy T = false ->
            isFloatingPointTy T = true -> A = 2 \/ A = 1 ->
            forall c,
              getCast opts "HEAPF32[tempDoublePtr>>2]" FloatTy ASM_SIGNED
              = Ok c ->
              getLoad opts handlers DL I P T A sep w
              = Ok (stagedCopies B A PS sep +:+ sep +:+ Assign +:+ c, w2))).
Proof.
  intros Assign w1 B. rewrite getLoad_unfold. fold Assign w1 B. split.
  - intros Hal load w2 Hload.
    assert ((B <=? A) || (A =? 0) = true) as ->.
    { destruct Hal as [Hle| ->]; [|by rewrite orb_true_r].
      by destruct (Z.leb_spec B A); [|lia]. }
    unfold getLoad_aligned, bind. rewrite Hload.
    destruct (isAbsolute P); unfold ret; [by rewrite sapp_assoc|].
    by rewrite sapp_nil_r.
  - intros Hlt Hnz PS w2 HPS.
    assert ((B <=? A) || (A =? 0) = false) as ->.
    { destruct (Z.leb_spec B A); [lia|]. by destruct (Z.eqb_spec A 0). }
    assert (forall body : string -> M string,
              bind (getValueAsStr opts handlers P ASM_SIGNED) body w1
              = body PS w2) as Hbind.
    { intros body. unfold bind. by rewrite HPS. }
    unfold getLoad_unaligned. rewrite !Hbind. clear Hbind.
    split; [|split; [|split]].
    + intros -> -> [-> | ->]; simpl; unfold ret.
      * by rewrite <- orOfAccesses_4_2.
      * by rewrite <- orOfAccesses_4_1.
    + intros -> ->. simpl. unfold ret. by rewrite <- orOfAccesses_2_1.
    + intros -> [-> | [-> | ->]]; simpl; unfold bind, ret.
      * by rewrite <- stagedCopies_8_4, ?sapp_assoc.
      * by rewrite <- stagedCopies_8_2, ?sapp_assoc.
      * by rewrite <- stagedCopies_8_1, ?sapp_assoc.
    + intros -> -> Hfp HA c Hc. cbn [Z.eqb Pos.eqb].
      unfold bind, assert, ret, liftR.
      rewrite Hfp, Hc. destruct HA as [-> | ->]; cbn [Z.eqb Pos.eqb].
      * by rewrite <- stagedCopies_4_2, ?sapp_assoc.
      * by rewrite <- stagedCopies_4_1, ?sapp_assoc.
Qed.

(** C9.  With alignment 0 a load and a store take the aligned path,
    whatever the size of the access: the load is the assignment of a single
    heap-view access and the store is a single assignment to one. *)
Theorem alignment_zero_is_aligned (I P : Value) (T : Ty) (VS sep : string)
  (w : JSWriter) :
  let Assign := Mangle.sanitizeLocal (getName I) +:+ " = " in
  let w1 := with_UsedVars
              (<[Mangle.sanitizeLocal (getName I) := typeOf I]> (UsedVars w))
              w in
  getLoad opts handlers DL I P T 0 sep w
  = getLoad_aligned opts handlers DL Assign P w1
  /\ getStore opts handlers DL I P T VS 0 ";" w
     = getStore_aligned opts handlers DL P VS 0 w
  /\ (forall load w2,
        getPtrLoad opts handlers DL P w1 = Ok (load, w2) ->
        getLoad opts handlers DL I P T 0 sep w
        = Ok (Assign +:+ load +:+
                (if isAbsolute P
                 then "; abort() /* segfault, load from absolute addr */"
                 else ""), w2))
  /\ (forall use w2,
        getPtrUse opts handlers DL P w = Ok (use, w2) ->
        getStore opts handlers DL I P T VS 0 ";" w
        = Ok (use +:+ " = " +:+ VS, w2)).
Proof.
  intros Assign w1.
  assert (getLoad opts handlers DL I P T 0 sep w
          = getLoad_aligned opts handlers DL Assign P w1) as HL.
  { rewrite getLoad_unfold. by rewrite orb_true_r. }
  assert (getStore opts handlers DL I P T VS 0 ";" w
          = getStore_aligned opts handlers DL P VS 0 w) as HS.
  { unfold getStore, bind, assert. simpl. by rewrite orb_true_r. }
  split; [done|]. split; [done|]. split.
  - intros load w2 Hload. rewrite HL.
    unfold getLoad_aligned, bind. rewrite Hload.
    destruct (isAbsolute P); unfold ret; [by rewrite sapp_assoc|].
    by rewrite sapp_nil_r.
  - intros use w2 Huse. rewrite HS.
    unfold getStore_aligned, bind. by rewrite Huse.
Qed.

End LoadClaims.

(** The line emitted for [%r = load i32, i32* %p, align 1]. *)
Lemma load_i32_align1 :
  generateLoad defaultOptions noHandlers sampleDataLayout sample_load
    sample_pointer 1 initialWriter
  = Ok ("$r = HEAPU8[$p>>0]|(HEAPU8[$p+1>>0]<<8)|(HEAPU8[$p+2>>0]<<16)|(HEAPU8[$p+3>>0]<<24);"
          +:+ str1 (ascii_of_N 10),
        with_UsedVars {["$r" := IntegerTy 32]} initialWriter).
Proof. vm_compute. reflexivity. Qed.

(** C6 (as amended).  For a load of type [T] of [B] bytes with alignment
    [A]: if [A >= B] or [A] is 0, a single heap-view access is emitted;
    otherwise, for the sizes and alignments the backend supports, the load
    is decomposed into [B/A] view accesses, assembled by bitwise OR for
    4-byte integers and pointers and for 2-byte values, or staged through
    [tempDoublePtr] for 8-byte values and 4-byte floats.  In particular the
    line emitted for a load of [i32] from [%p] with alignment 1 is the OR of
    four byte accesses, written without blanks around the bars. *)
Theorem load_lowering (opts : Options) (handlers : string -> option Handler)
  (DL : Ty -> Z) (I P : Value) (T : Ty) (A : Z) (sep : string)
  (w : JSWriter) :
  let Assign := Mangle.sanitizeLocal (getName I) +:+ " = " in
  let w1 := with_UsedVars
              (<[Mangle.sanitizeLocal (getName I) := typeOf I]> (UsedVars w))
              w in
  let B := DL T in
  ((B <= A \/ A = 0) ->
     forall load w2,
       getPtrLoad opts handlers DL P w1 = Ok (load, w2) ->
       getLoad opts handlers DL I P T A sep w
       = Ok (Assign +:+ load +:+
               (if isAbsolute P
                then "; abort() /* segfault, load from absolute addr */"
                else ""), w2))
  /\ (A < B -> A <> 0 ->
      forall PS w2,
        getValueAsStr opts handlers P ASM_SIGNED w1 = Ok (PS, w2) ->
        (B = 4 -> isIntegerTy T || isPointerTy T = true -> A = 2 \/ A = 1 ->
           getLoad opts handlers DL I P T A sep w
           = Ok (Assign +:+ orOfAccesses B A PS, w2))
        /\ (B = 2 -> A = 1 ->
              getLoad opts handlers DL I P T A sep w
              = Ok (Assign +:+ orOfAccesses B A PS, w2))
        /\ (B = 8 -> A = 4 \/ A = 2 \/ A = 1 ->
              getLoad opts handlers DL I P T A sep w
              = Ok (stagedCopies B A PS sep +:+ sep +:+ Assign
                      +:+ "+HEAPF64[tempDoublePtr>>3]", w2))
        /\ (B = 4 -> isIntegerTy T || isPointerTy T = false ->
            isFloatingPointTy T = true -> A = 2 \/ A = 1 ->
            forall c,
              getCast opts "HEAPF32[tempDoublePtr>>2]" FloatTy ASM_SIGNED
              = Ok c ->
              getLoad opts handlers DL I P T A sep w
              = Ok (stagedCopies B A PS sep +:+ sep +:+ Assign +:+ c, w2)))
  /\ generateLoad defaultOptions noHandlers sampleDataLayout sample_load
       sample_pointer 1 initialWriter
     = Ok ("$r = HEAPU8[$p>>0]|(HEAPU8[$p+1>>0]<<8)|(HEAPU8[$p+2>>0]<<16)|(HEAPU8[$p+3>>0]<<24);"
             +:+ str1 (ascii_of_N 10),
           with_UsedVars {["$r" := IntegerTy 32]} initialWriter).
Proof.
  intros Assign w1 B.
  destruct (getLoad_cases opts handlers DL I P T A sep w) as [Hal Hun].
  split; [exact Hal|]. split; [exact Hun|]. exact load_i32_align1.
Qed.

(** C6 as stated fails twice: the line emitted for the unaligned [i32] load
    has no blanks around the OR bars, and a load with alignment 0, which is
    below its size, is a single access and not a decomposition. *)
Lemma load_claim_counterexample :
  (forall text w',
     generateLoad defaultOptions noHandlers sampleDataLayout sample_load
       sample_pointer 1 initialWriter = Ok (text, w') ->
     text <> spec_load_line
     /\ text <> spec_load_line +:+ str1 (ascii_of_N 10))
  /\ (0 < sampleDataLayout (IntegerTy 32)
      /\ getLoad defaultOptions noHandlers sampleDataLayout sample_load
           sample_pointer (IntegerTy 32) 0 ";" initialWriter
         = Ok ("$r = HEAP32[$p>>2]|0",
               with_UsedVars {["$r" := IntegerTy 32]} initialWriter)).
Proof.
  split.
  - intros text w'. rewrite load_i32_align1. intros [= <- _].
    split; intros H; vm_compute in H; discriminate H.
  - split; [done|]. vm_compute. reflexivity.
Qed.

Example store_i32_align0 :
  getStore defaultOptions noHandlers sampleDataLayout
    (Instruction "" VoidTy "entry") sample_pointer (IntegerTy 32) "$v" 0 ";"
    initialWriter
  = Ok ("HEAP32[$p>>2] = $v", initialWriter).
Proof. vm_compute. reflexivity. Qed.

(** ** Phi preludes *)

(** *** The lowering of a value settles *)





Section SettleFacts.

Context (opts : Options) (handlers : string -> option Handler).








End SettleFacts.

Section SettleLowering.

Context (opts : Options) (handlers : string -> option Handler).
















End SettleLowering.

(** ** Phi preludes *)

Lemma contains_here (s before after : string) :
  contains s (before +:+ s +:+ after).
Proof. by exists before, after. Qed.


Lemma smap_insert_perm {A : Type} (k : string) (v : A)
  (m : list (string * A)) :
  k ∉ m.*1 -> smap_insert k v m ≡ₚ (k, v) :: m.
Proof.
  induction m as [|[k' v'] rest IH]; intros Hk; simpl; [done|].
  destruct (String.compare k k') eqn:Hc.
  - apply String.compare_eq_iff in Hc. subst k'.
    exfalso. apply Hk. simpl. left.
  - done.
  - rewrite IH; [apply Permutation_swap|].
    intros Hin. apply Hk. simpl. by right.
Qed.


Section PhiFacts.

Context (opts : Options) (handlers : string -> option Handler).











End PhiFacts.



(** The same block entered from [entry]: the incoming values are constants
    and no temporary is needed. *)
Example swap_block_from_entry :
  match getPhiCode defaultOptions noHandlers "entry" swap_block initialWriter
  with
  | Ok (code, _) => code = "$a = 0;$b = 1;"
  | Fatal _ => False
  end.
Proof. vm_compute. reflexivity. Qed.

Section MangleMoreFacts.
Import Mangle MangleMore.

Lemma sapp_inv_head (s t1 t2 : string) : s +:+ t1 = s +:+ t2 -> t1 = t2.
Proof.
  induction s as [|c s IH]; [done|]. rewrite !sapp_cons. intros [= H].
  by apply IH.
Qed.

Lemma sapp_inj_length (s1 s2 t1 t2 : string) :
  String.length s1 = String.length s2 ->
  s1 +:+ t1 = s2 +:+ t2 -> s1 = s2 /\ t1 = t2.
Proof.
  revert s2. induction s1 as [|c s1 IH]; intros [|c2 s2]; try done.
  rewrite !sapp_cons. intros [= Hlen] [= -> Heq].
  destruct (IH s2 Hlen Heq) as [-> ->]. done.
Qed.

Lemma queuedZ_snoc (q : nat) : queuedZ (S q) = queuedZ q +:+ "Z".
Proof. induction q as [|q IH]; [done|]. simpl in *. by rewrite sapp_cons, <- IH. Qed.

Lemma unhex2_hex2 (c : ascii) : unhex2 (hex2 c) = Some c.
Proof. destruct c as [[] [] [] [] [] [] [] []]; reflexivity. Qed.

Lemma hex2_not_Z (c : ascii) (t u : string) : hex2 c +:+ t <> "Z" +:+ u.
Proof. destruct c as [[] [] [] [] [] [] [] []]; discriminate. Qed.

Lemma hex2_app_inj (c1 c2 : ascii) (t1 t2 : string) :
  hex2 c1 +:+ t1 = hex2 c2 +:+ t2 -> c1 = c2 /\ t1 = t2.
Proof.
  intros H. apply sapp_inj_length in H as [H ->]; [|done].
  split; [|done].
  assert (unhex2 (hex2 c1) = unhex2 (hex2 c2)) as Hu by (by rewrite H).
  rewrite !unhex2_hex2 in Hu. by injection Hu.
Qed.

(** The text appended for a name is empty or starts with the queued ['Z']s. *)
Lemma local_suffix_head (s : string) :
  forall q, local_suffix s q = ""
            \/ exists t, local_suffix s q = queuedZ q +:+ t.
Proof.
  induction s as [|c rest IH]; intros q; simpl; [by left|].
  destruct (illegal c); [|apply IH].
  destruct (Ascii.eqb c dot).
  - destruct (IH (S q)) as [->|[t ->]]; [by left|]. right.
    exists ("Z" +:+ t). by rewrite queuedZ_snoc, sapp_assoc.
  - right. by eexists.
Qed.

Lemma illegal_dollar_body (c : ascii) :
  illegal c = false -> c <> dollar.
Proof. intros H ->. by vm_compute in H. Qed.

Lemma local_suffix_inj (s1 : string) :
  forall s2 q,
    local_body s1 = local_body s2 ->
    local_suffix s1 q = local_suffix s2 q -> s1 = s2.
Proof.
  induction s1 as [|c1 r1 IH]; intros [|c2 r2] q; simpl; try done.
  intros [= Hc Hbody].
  destruct (illegal c1) eqn:Hi1, (illegal c2) eqn:Hi2.
  - destruct (Ascii.eqb_spec c1 dot) as [->|Hd1],
             (Ascii.eqb_spec c2 dot) as [->|Hd2].
    + intros Hs. f_equal. by eapply IH.
    + intros Hs. exfalso.
      destruct (local_suffix_head r1 (S q)) as [He|[t He]]; rewrite He in Hs.
      * destruct (queuedZ q); discriminate Hs.
      * rewrite queuedZ_snoc, sapp_assoc in Hs.
        apply sapp_inv_head in Hs. symmetry in Hs.
        by apply hex2_not_Z in Hs.
    + intros Hs. exfalso.
      destruct (local_suffix_head r2 (S q)) as [He|[t He]]; rewrite He in Hs.
      * destruct (queuedZ q); discriminate Hs.
      * rewrite queuedZ_snoc, sapp_assoc in Hs.
        apply sapp_inv_head in Hs. by apply hex2_not_Z in Hs.
    + intros Hs. apply sapp_inv_head in Hs.
      apply hex2_app_inj in Hs as [-> Hs]. f_equal. by eapply IH.
  - exfalso. by apply (illegal_dollar_body c2).
  - exfalso. by apply (illegal_dollar_body c1).
  - subst c2. intros Hs. f_equal. by eapply IH.
Qed.

(** X1.  The local mangling never sends two names of the same length to the
    same identifier; names of different lengths can collide, as [a$b] and
    [a.b24] do. *)
Theorem sanitizeLocal_collisions :
  (forall s1 s2 : string,
      String.length s1 = String.length s2 ->
      sanitizeLocal s1 = sanitizeLocal s2 -> s1 = s2)
  /\ sanitizeLocal "a$b" = sanitizeLocal "a.b24".
Proof.
  split; [|reflexivity].
  intros s1 s2 Hlen. rewrite !sanitizeLocal_spec. intros [= H].
  apply sapp_inj_length in H as [Hbody Hsuffix].
  - by eapply local_suffix_inj.
  - by rewrite !local_body_length.
Qed.

Lemma legal_identChar (c : ascii) : illegal c = false -> identChar c = true.
Proof.
  unfold illegal, identChar. destruct (isalnum c); [done|].
  destruct (Ascii.eqb c underscore); done.
Qed.

Lemma identChars_app (s t : string) :
  identChars (s +:+ t) = identChars s && identChars t.
Proof.
  induction s as [|c s IH]; [done|]. rewrite sapp_cons. simpl.
  by rewrite IH, andb_assoc.
Qed.

Lemma identChars_hex2 (c : ascii) : identChars (hex2 c) = true.
Proof. destruct c as [[] [] [] [] [] [] [] []]; reflexivity. Qed.

Lemma identChars_queuedZ (q : nat) : identChars (queuedZ q) = true.
Proof. induction q as [|q IH]; [done|]. simpl. by rewrite IH. Qed.

Lemma identChars_local_body (s : string) : identChars (local_body s) = true.
Proof.
  induction s as [|c s IH]; [done|]. simpl. rewrite IH, andb_true_r.
  destruct (illegal c) eqn:Hc; [done|]. by apply legal_identChar.
Qed.

Lemma identChars_local_suffix (s : string) :
  forall q, identChars (local_suffix s q) = true.
Proof.
  induction s as [|c s IH]; intros q; [done|]. simpl.
  destruct (illegal c); [|apply IH]. destruct (Ascii.eqb c dot); [apply IH|].
  by rewrite !identChars_app, identChars_queuedZ, identChars_hex2, IH.
Qed.

Lemma identChars_sanitizeGlobal_loop (s : string) :
  identChars (sanitizeGlobal_loop s) = true.
Proof.
  induction s as [|c s IH]; [done|]. simpl. rewrite IH, andb_true_r.
  destruct (illegal c) eqn:Hc; [done|]. by apply legal_identChar.
Qed.

(** X2.  Every mangled name is a JavaScript identifier that does not start
    with a digit, global names start with ['_'], local
    names start with ['$'], and so no global name is a local name. *)
Theorem mangled_names_are_identifiers (s t : string) :
  isIdentifier (sanitizeGlobal s) = true
  /\ isIdentifier (sanitizeLocal s) = true
  /\ String.get 0 (sanitizeGlobal s) = Some underscore
  /\ String.get 0 (sanitizeLocal s) = Some dollar
  /\ sanitizeGlobal s <> sanitizeLocal t.
Proof.
  rewrite !sanitizeLocal_spec. unfold sanitizeGlobal.
  split; [|split; [|split; [|split]]]; try done.
  - simpl. apply identChars_sanitizeGlobal_loop.
  - simpl.
    by rewrite identChars_app, identChars_local_body, identChars_local_suffix.
Qed.

End MangleMoreFacts.

(** ** More on dispatch tables *)

Lemma replicate_app_zero (a b : nat) :
  replicate a "0" ++ replicate b "0" = replicate (a + b) ("0" : string).
Proof. by rewrite replicate_add. Qed.

Lemma sanitizeGlobal_not_placeholder (name : string) :
  Mangle.sanitizeGlobal name <> "0".
Proof. done. Qed.

Section TableMore.

Context (opts : Options) (CallHandlers : string -> option Handler).

(** [getFunctionIndex] on a function that is not indexed yet: its table is
    extended by placeholders and then by the function. *)
Lemma getFunctionIndex_new (F : Function) (w : JSWriter) :
  let Name := Mangle.sanitizeGlobal (fn_name F) in
  IndexedFunctions w !! Name = None ->
  exists sig (k : nat),
    let Table0 := default [] (FunctionTables w !! sig) in
    let Index := wrap32 (Z.of_nat (length Table0 + k)) in
    (getFunctionIndex opts CallHandlers F w).1 = Index
    /\ FunctionTables (getFunctionIndex opts CallHandlers F w).2
       = <[sig := Table0 ++ replicate k "0" ++ [Name]]> (FunctionTables w)
    /\ IndexedFunctions (getFunctionIndex opts CallHandlers F w).2
       = <[Name := Index]> (IndexedFunctions w)
    /\ (if NoAliasingFunctionPointers opts
        then NextFunctionIndex w <= Z.of_nat (length Table0 + k)
             /\ NextFunctionIndex (getFunctionIndex opts CallHandlers F w).2
                = wrap32 (Index + 1)
        else NextFunctionIndex (getFunctionIndex opts CallHandlers F w).2
             = NextFunctionIndex w).
Proof.
  intros Name Hnone. unfold getFunctionIndex, getJSName_global. fold Name.
  rewrite Hnone.
  pose proof (getFunctionSignature_frame opts CallHandlers F w) as Hs.
  destruct (getFunctionSignature opts F w) as [sig0 w1]. simpl in Hs.
  destruct Hs as (Ht1 & Hi1 & Hn1).
  pose proof (ensureFunctionTable_tables opts CallHandlers F w1) as He.
  destruct (ensureFunctionTable opts F w1) as [sig w2]. simpl in He.
  destruct He as (Ht2 & Hi2 & Hn2).
  cbv beta iota zeta.
  assert (default [] (FunctionTables w2 !! sig)
          = push_until (MinSize opts) (default [] (FunctionTables w !! sig)))
    as ->.
  { rewrite Ht2, lookup_insert_eq. simpl. by rewrite Ht1. }
  rewrite orb_true_r. change (Z.b2z true) with 1.
  set (Table0 := default [] (FunctionTables w !! sig)).
  assert (forall T : list string, push_while_unaligned 1 T = T) as Hal.
  { intros T. unfold push_while_unaligned. rewrite Z.mod_1_r. simpl.
    apply app_nil_r. }
  rewrite Hal.
  assert (forall w5 : JSWriter,
    let w6 := match CallHandlers Name with
              | Some h => runHandler h w5 | None => w5 end in
    FunctionTables w6 = FunctionTables w5
    /\ IndexedFunctions w6 = IndexedFunctions w5
    /\ NextFunctionIndex w6 = NextFunctionIndex w5) as Hh.
  { intros w5. destruct (CallHandlers Name) as [h|]; [|done].
    apply runHandler_frame. }
  destruct (NoAliasingFunctionPointers opts) eqn:Hna.
  - match goal with
    | |- context [match CallHandlers Name with
                  | Some h => runHandler h ?w5 | None => _ end] =>
        destruct (Hh w5) as (Hf & Hi & Hn); cbv zeta in Hf, Hi, Hn
    end.
    cbn [fst snd]. rewrite Hf, Hi, Hn. cbn [FunctionTables IndexedFunctions
      NextFunctionIndex with_NextFunctionIndex with_IndexedFunctions
      with_FunctionTables].
    rewrite Ht2, Ht1, Hi2, Hi1, insert_insert_eq.
    unfold push_until. fold Table0.
    set (a := Z.to_nat (MinSize opts - Z.of_nat (length Table0))).
    set (b := Z.to_nat (NextFunctionIndex w2
                        - Z.of_nat (length (Table0 ++ replicate a "0")))).
    exists sig, (a + b)%nat.
    rewrite <- !(assoc_L (++)), (assoc_L (++) (replicate a "0")),
      replicate_app_zero.
    rewrite !length_app, !length_replicate.
    split; [done|]. split; [done|]. split; [done|].
    split; [|done].
    fold Table0. rewrite <- Hn1, <- Hn2. unfold b.
    rewrite length_app, length_replicate. lia.
  - match goal with
    | |- context [match CallHandlers Name with
                  | Some h => runHandler h ?w5 | None => _ end] =>
        destruct (Hh w5) as (Hf & Hi & Hn); cbv zeta in Hf, Hi, Hn
    end.
    cbn [fst snd]. rewrite Hf, Hi, Hn. cbn [FunctionTables IndexedFunctions
      NextFunctionIndex with_NextFunctionIndex with_IndexedFunctions
      with_FunctionTables].
    rewrite Ht2, Ht1, Hi2, Hi1, insert_insert_eq.
    unfold push_until. fold Table0.
    set (a := Z.to_nat (MinSize opts - Z.of_nat (length Table0))).
    exists sig, a.
    rewrite !length_app, !length_replicate, <- (assoc_L (++)).
    split; [done|]. split; [done|]. split; [done|]. congruence.
Qed.

Lemma getFunctionIndex_old (F : Function) (w : JSWriter) (Index : Z) :
  IndexedFunctions w !! Mangle.sanitizeGlobal (fn_name F) = Some Index ->
  getFunctionIndex opts CallHandlers F w = (Index, w).
Proof. intros H. unfold getFunctionIndex, getJSName_global. by rewrite H. Qed.

Lemma table_step_keeps_indices (w w' : JSWriter) (name : string) (Index : Z) :
  table_step opts CallHandlers w w' ->
  IndexedFunctions w !! name = Some Index ->
  IndexedFunctions w' !! name = Some Index.
Proof.
  intros Hstep Hidx.
  destruct Hstep as [F w|F w|sig Table Table' text w HT He|w w' _ Hi _].
  - destruct (ensureFunctionTable_tables opts CallHandlers F w) as (_ & Hi & _).
    by rewrite Hi.
  - destruct (IndexedFunctions w !! Mangle.sanitizeGlobal (fn_name F))
      as [Index'|] eqn:HF.
    + by rewrite (getFunctionIndex_old F w Index' HF).
    + destruct (getFunctionIndex_new F w HF) as (sig & k & _ & _ & Hi & _).
      rewrite Hi. rewrite lookup_insert_ne; [done|]. congruence.
  - done.
  - by rewrite Hi.
Qed.

Lemma rtc_keeps_indices (w w' : JSWriter) (name : string) (Index : Z) :
  rtc (table_step opts CallHandlers) w w' ->
  IndexedFunctions w !! name = Some Index ->
  IndexedFunctions w' !! name = Some Index.
Proof.
  induction 1 as [|w1 w2 w3 Hstep _ IH]; [done|].
  intros Hidx. apply IH. by eapply table_step_keeps_indices.
Qed.

Lemma getFunctionIndex_records (F : Function) (w : JSWriter) :
  IndexedFunctions (getFunctionIndex opts CallHandlers F w).2
    !! Mangle.sanitizeGlobal (fn_name F)
  = Some (getFunctionIndex opts CallHandlers F w).1.
Proof.
  destruct (IndexedFunctions w !! Mangle.sanitizeGlobal (fn_name F))
    as [Index|] eqn:HF.
  - by rewrite (getFunctionIndex_old F w Index HF).
  - destruct (getFunctionIndex_new F w HF) as (sig & k & HI & _ & Hi & _).
    by rewrite Hi, HI, lookup_insert_eq.
Qed.

(** X3.  Once a function has a dispatch index, every later request for it
    returns that index and changes nothing; so does a request for any
    function whose mangled name is the same, whatever its signature. *)
Theorem function_index_stable (F1 F2 : Function) (w1 w2 : JSWriter) :
  Mangle.sanitizeGlobal (fn_name F1) = Mangle.sanitizeGlobal (fn_name F2) ->
  rtc (table_step opts CallHandlers)
    (getFunctionIndex opts CallHandlers F1 w1).2 w2 ->
  getFunctionIndex opts CallHandlers F2 w2
  = ((getFunctionIndex opts CallHandlers F1 w1).1, w2).
Proof.
  intros Hname Hlater. apply getFunctionIndex_old. rewrite <- Hname.
  eapply rtc_keeps_indices; [done|]. apply getFunctionIndex_records.
Qed.

Lemma table_step_agree (w w' : JSWriter) :
  table_step opts CallHandlers w w' ->
  tables_bounded w' -> tables_agree w -> tables_agree w'.
Proof.
  intros Hstep Hb [Hin Hentry].
  assert (forall name Index, IndexedFunctions w !! name = Some Index ->
            exists sig Table, FunctionTables w' !! sig = Some Table
                              /\ Table !! Z.to_nat Index = Some name) as Hold.
  { intros name Index Hidx.
    destruct (Hin name Index Hidx) as (sig & Table & HT & Hat).
    destruct (table_step_grows opts CallHandlers w w' Hstep sig Table HT)
      as [extra HT'].
    exists sig, (Table ++ extra). split; [done|].
    rewrite lookup_app_l; [done|]. by eapply lookup_lt_Some. }
  destruct Hstep as [F w|F w|sig Table Table' text w HT He|w w' Ht Hi _].
  - destruct (ensureFunctionTable_tables opts CallHandlers F w)
      as (Ht & Hi & _).
    split.
    + intros name Index. rewrite Hi. apply Hold.
    + intros sig Table i name. rewrite Ht, Hi.
      destruct (decide ((ensureFunctionTable opts F w).1 = sig)) as [<-|Hne].
      * rewrite lookup_insert_eq. intros [= <-]. unfold push_until.
        intros Hat Hname.
        apply lookup_app_Some in Hat as [Hat|[_ Hat]].
        -- destruct (FunctionTables w !! (ensureFunctionTable opts F w).1)
             as [Table0|] eqn:HT0; [|done].
           by eapply Hentry.
        -- apply lookup_replicate in Hat as [-> _]. done.
      * rewrite lookup_insert_ne by done. apply Hentry.
  - destruct (IndexedFunctions w !! Mangle.sanitizeGlobal (fn_name F))
      as [Index'|] eqn:HF.
    { by rewrite (getFunctionIndex_old F w Index' HF). }
    destruct (getFunctionIndex_new F w HF) as (sig & k & _ & Ht & Hi & _).
    set (Name := Mangle.sanitizeGlobal (fn_name F)) in *.
    set (Table0 := default [] (FunctionTables w !! sig)) in *.
    assert (Z.of_nat (length Table0 + k) + 1 < 2^32) as Hlen.
    { pose proof (Hb sig (Table0 ++ replicate k "0" ++ [Name])) as Hlen.
      rewrite Ht, lookup_insert_eq in Hlen. specialize (Hlen eq_refl).
      rewrite !length_app, length_replicate in Hlen. simpl in Hlen. lia. }
    assert (wrap32 (Z.of_nat (length Table0 + k))
            = Z.of_nat (length Table0 + k)) as Hwrap.
    { unfold wrap32. apply Z.mod_small. lia. }
    rewrite Hwrap in Hi.
    split.
    + intros name Index. rewrite Hi.
      destruct (decide (Name = name)) as [<-|Hne].
      * rewrite lookup_insert_eq. intros [= <-].
        exists sig, (Table0 ++ replicate k "0" ++ [Name]).
        split; [by rewrite Ht, lookup_insert_eq|].
        rewrite Nat2Z.id, (assoc_L (++)).
        rewrite lookup_app_r; rewrite length_app, length_replicate; [|lia].
        by rewrite Nat.sub_diag.
      * rewrite lookup_insert_ne by done. apply Hold.
    + intros sig' Table i name. rewrite Ht, Hi.
      assert (forall sig0 T0 j, FunctionTables w !! sig0 = Some T0 ->
                T0 !! j = Some name -> name <> "0" ->
                <[Name := Z.of_nat (length Table0 + k)]> (IndexedFunctions w)
                  !! name = Some (Z.of_nat j)) as Hkeep.
      { intros sig0 T0 j HT0 Hat Hname.
        pose proof (Hentry sig0 T0 j name HT0 Hat Hname) as Hidx.
        rewrite lookup_insert_ne; [done|]. intros <-. congruence. }
      destruct (decide (sig = sig')) as [<-|Hne].
      * rewrite lookup_insert_eq. intros [= <-] Hat Hname.
        apply lookup_app_Some in Hat as [Hat|[Hge Hat]].
        -- unfold Table0 in Hat.
           destruct (FunctionTables w !! sig) as [T0|] eqn:HT0; [|done].
           by eapply Hkeep.
        -- apply lookup_app_Some in Hat as [Hat|[Hge' Hat]].
           ++ apply lookup_replicate in Hat as [-> _]. done.
           ++ rewrite length_replicate in Hge', Hat.
              apply list_lookup_singleton_Some in Hat as [Hi0 <-].
              rewrite lookup_insert_eq. f_equal. lia.
      * rewrite lookup_insert_ne by done. apply Hkeep.
  - apply emitTable_spec, padTable_spec in He as (Size & _ & ->).
    split; [apply Hold|].
    intros sig' T i name. simpl.
    destruct (decide (sig = sig')) as [<-|Hne].
    + rewrite lookup_insert_eq. intros [= <-]. unfold push_until.
      intros Hat Hname. apply lookup_app_Some in Hat as [Hat|[_ Hat]].
      * by eapply Hentry.
      * apply lookup_replicate in Hat as [-> _]. done.
    + rewrite lookup_insert_ne by done. apply Hentry.
  - split.
    + intros name Index. rewrite Hi. apply Hold.
    + intros sig T i name. rewrite Ht, Hi. apply Hentry.
Qed.

(** X4.  In every state of the writer the dispatch tables and the index map
    agree: an indexed function sits at its index in a table, and a slot
    that is not a placeholder holds a function whose index is that slot. *)
Theorem dispatch_tables_agree (w : JSWriter) :
  tables_reachable opts CallHandlers w -> tables_bounded w ->
  (forall name Index, IndexedFunctions w !! name = Some Index ->
     exists sig Table,
       FunctionTables w !! sig = Some Table
       /\ Table !! Z.to_nat Index = Some name)
  /\ (forall sig Table (i : nat) name,
        FunctionTables w !! sig = Some Table ->
        Table !! i = Some name -> name <> "0" ->
        IndexedFunctions w !! name = Some (Z.of_nat i)).
Proof.
  unfold tables_reachable. revert w.
  apply (rtc_ind_r (fun w => tables_bounded w -> tables_agree w));
    [|intros y z Hxy Hyz IH]; intros Hb.
  - split.
    + intros name Index. simpl. by rewrite lookup_empty.
    + intros sig Table i name. simpl. by rewrite lookup_empty.
  - eapply table_step_agree; [done|done|].
    apply IH. by eapply table_step_bounded.
Qed.

Lemma table_step_distinct (w w' : JSWriter) :
  NoAliasingFunctionPointers opts = true ->
  table_step opts CallHandlers w w' ->
  tables_bounded w' -> indices_distinct w -> indices_distinct w'.
Proof.
  intros Hna Hstep Hb [Hbelow Hinj].
  destruct Hstep as [F w|F w|sig Table Table' text w HT He|w w' _ Hi Hn].
  - destruct (ensureFunctionTable_tables opts CallHandlers F w)
      as (_ & Hi & Hn).
    split.
    + intros name Index. rewrite Hi, Hn. apply Hbelow.
    + intros n1 n2 Index. rewrite Hi. apply Hinj.
  - destruct (IndexedFunctions w !! Mangle.sanitizeGlobal (fn_name F))
      as [Index'|] eqn:HF.
    { by rewrite (getFunctionIndex_old F w Index' HF). }
    destruct (getFunctionIndex_new F w HF) as (sig & k & _ & Ht & Hi & Hnext).
    rewrite Hna in Hnext. destruct Hnext as [Hle Hnext].
    set (Name := Mangle.sanitizeGlobal (fn_name F)) in *.
    set (Table0 := default [] (FunctionTables w !! sig)) in *.
    assert (Z.of_nat (length Table0 + k) + 1 < 2^32) as Hlen.
    { pose proof (Hb sig (Table0 ++ replicate k "0" ++ [Name])) as Hlen.
      rewrite Ht, lookup_insert_eq in Hlen. specialize (Hlen eq_refl).
      rewrite !length_app, length_replicate in Hlen. simpl in Hlen. lia. }
    assert (wrap32 (Z.of_nat (length Table0 + k))
            = Z.of_nat (length Table0 + k)) as Hwrap.
    { unfold wrap32. apply Z.mod_small. lia. }
    rewrite Hwrap in Hi, Hnext.
    assert (wrap32 (Z.of_nat (length Table0 + k) + 1)
            = Z.of_nat (length Table0 + k) + 1) as Hwrap1.
    { unfold wrap32. apply Z.mod_small. lia. }
    rewrite Hwrap1 in Hnext.
    split.
    + intros name Index. rewrite Hi, Hnext.
      destruct (decide (Name = name)) as [<-|Hne].
      * rewrite lookup_insert_eq. intros [= <-]. lia.
      * rewrite lookup_insert_ne by done. intros Hidx.
        specialize (Hbelow name Index Hidx). lia.
    + intros n1 n2 Index. rewrite Hi.
      destruct (decide (Name = n1)) as [<-|Hne1],
               (decide (Name = n2)) as [<-|Hne2]; [done| | |].
      * rewrite lookup_insert_eq, lookup_insert_ne by done.
        intros [= <-] Hidx. specialize (Hbelow n2 _ Hidx). lia.
      * rewrite lookup_insert_eq, lookup_insert_ne by done.
        intros Hidx [= <-]. specialize (Hbelow n1 _ Hidx). lia.
      * rewrite !lookup_insert_ne by done. apply Hinj.
  - done.
  - split.
    + intros name Index. rewrite Hi, Hn. apply Hbelow.
    + intros n1 n2 Index. rewrite Hi. apply Hinj.
Qed.

(** X5.  With [NoAliasingFunctionPointers] no two functions share a dispatch
    index, whatever their signatures, and every index handed out is below
    [NextFunctionIndex]. *)
Theorem no_aliasing_function_pointers (w : JSWriter) :
  NoAliasingFunctionPointers opts = true ->
  tables_reachable opts CallHandlers w -> tables_bounded w ->
  (forall name Index, IndexedFunctions w !! name = Some Index ->
     0 <= Index < NextFunctionIndex w)
  /\ (forall name1 name2 Index,
        IndexedFunctions w !! name1 = Some Index ->
        IndexedFunctions w !! name2 = Some Index -> name1 = name2).
Proof.
  intros Hna. unfold tables_reachable. revert w.
  apply (rtc_ind_r (fun w => tables_bounded w -> indices_distinct w));
    [|intros y z Hxy Hyz IH]; intros Hb.
  - split.
    + intros name Index. simpl. by rewrite lookup_empty.
    + intros n1 n2 Index. simpl. by rewrite lookup_empty.
  - eapply table_step_distinct; [done|done|done|].
    apply IH. by eapply table_step_bounded.
Qed.

End TableMore.

Lemma function_index_stable_witness :
  let w1 := (getFunctionIndex defaultOptions noHandlers sample_x_dot_a
               initialWriter).2 in
  let w2 := (getFunctionIndex defaultOptions noHandlers sample_g w1).2 in
  Mangle.sanitizeGlobal (fn_name sample_x_dot_a)
  = Mangle.sanitizeGlobal (fn_name sample_x_under_a)
  /\ rtc (table_step defaultOptions noHandlers) w1 w2
  /\ getFunctionIndex defaultOptions noHandlers sample_x_under_a w2 = (1, w2).
Proof.
  assert (Mangle.sanitizeGlobal (fn_name sample_x_dot_a)
          = Mangle.sanitizeGlobal (fn_name sample_x_under_a)) as Hname
    by reflexivity.
  assert (rtc (table_step defaultOptions noHandlers)
            (getFunctionIndex defaultOptions noHandlers sample_x_dot_a
               initialWriter).2
            (getFunctionIndex defaultOptions noHandlers sample_g
               (getFunctionIndex defaultOptions noHandlers sample_x_dot_a
                  initialWriter).2).2) as Hlater
    by (apply rtc_once, ts_index).
  split; [exact Hname|]. split; [exact Hlater|].
  exact (function_index_stable defaultOptions noHandlers sample_x_dot_a
           sample_x_under_a initialWriter _ Hname Hlater).
Defined.

Lemma dispatch_tables_agree_witness :
  let w := (getFunctionIndex defaultOptions noHandlers sample_f initialWriter).2 in
  tables_reachable defaultOptions noHandlers w
  /\ tables_bounded w
  /\ forall name Index, IndexedFunctions w !! name = Some Index ->
       exists sig Table,
         FunctionTables w !! sig = Some Table
         /\ Table !! Z.to_nat Index = Some name.
Proof.
  assert (tables_reachable defaultOptions noHandlers
            (getFunctionIndex defaultOptions noHandlers sample_f initialWriter).2)
    as Hreach by (apply rtc_once, ts_index).
  assert (tables_bounded
            (getFunctionIndex defaultOptions noHandlers sample_f initialWriter).2)
    as Hb.
  { apply tables_bounded_dec. apply (bool_decide_unpack _).
    vm_compute. exact I. }
  split; [exact Hreach|]. split; [exact Hb|].
  exact (proj1 (dispatch_tables_agree defaultOptions noHandlers _ Hreach Hb)).
Defined.

Lemma no_aliasing_function_pointers_witness :
  let w1 := (getFunctionIndex noAliasingOptions noHandlers sample_f
               initialWriter).2 in
  let w := (getFunctionIndex noAliasingOptions noHandlers sample_g w1).2 in
  NoAliasingFunctionPointers noAliasingOptions = true
  /\ tables_reachable noAliasingOptions noHandlers w
  /\ tables_bounded w
  /\ IndexedFunctions w !! "_f" = Some 1
  /\ IndexedFunctions w !! "_g" = Some 2
  /\ (forall name1 name2 Index,
        IndexedFunctions w !! name1 = Some Index ->
        IndexedFunctions w !! name2 = Some Index -> name1 = name2).
Proof.
  assert (tables_reachable noAliasingOptions noHandlers
            (getFunctionIndex noAliasingOptions noHandlers sample_g
               (getFunctionIndex noAliasingOptions noHandlers sample_f
                  initialWriter).2).2) as Hreach.
  { eapply rtc_l; [apply ts_index|]. apply rtc_once, ts_index. }
  assert (tables_bounded
            (getFunctionIndex noAliasingOptions noHandlers sample_g
               (getFunctionIndex noAliasingOptions noHandlers sample_f
                  initialWriter).2).2) as Hb.
  { apply tables_bounded_dec. apply (bool_decide_unpack _).
    vm_compute. exact I. }
  split; [reflexivity|]. split; [exact Hreach|]. split; [exact Hb|].
  split; [vm_compute; reflexivity|]. split; [vm_compute; reflexivity|].
  exact (proj2 (no_aliasing_function_pointers noAliasingOptions noHandlers _
                  eq_refl Hreach Hb)).
Defined.

(** Without the option, functions of different signatures share indices:
    each table is filled from its own first free slot. *)
Example aliasing_function_pointers :
  let w1 := (getFunctionIndex defaultOptions noHandlers sample_f
               initialWriter).2 in
  let w := (getFunctionIndex defaultOptions noHandlers sample_g w1).2 in
  IndexedFunctions w !! "_f" = Some 1 /\ IndexedFunctions w !! "_g" = Some 1.
Proof. split; vm_compute; reflexivity. Qed.

Lemma tableSize_loop_zero (n : Z) (fuel : nat) :
  0 < n -> tableSize_loop fuel 0 n = None.
Proof.
  intros Hn. induction fuel as [|fuel IH]; simpl.
  - by destruct (Z.ltb_spec 0 n); [|lia].
  - destruct (Z.ltb_spec 0 n); [|lia]. exact IH.
Qed.

Lemma tableSize_loop_diverges (n : Z) (Hn : 2^31 < n) (fuel : nat) :
  forall k, 0 <= k <= 31 -> tableSize_loop fuel (2^k) n = None.
Proof.
  induction fuel as [|fuel IH]; intros k Hk; simpl.
  - destruct (Z.ltb_spec (2^k) n) as [|Hge]; [done|].
    assert (2^k <= 2^31) by (apply Z.pow_le_mono_r; lia). lia.
  - destruct (Z.ltb_spec (2^k) n) as [|Hge].
    + destruct (Z.eq_dec k 31) as [->|Hne].
      * change (wrap32 (Z.shiftl (2^31) 1)) with 0.
        apply tableSize_loop_zero. lia.
      * assert (wrap32 (Z.shiftl (2^k) 1) = 2^(k+1)) as ->.
        { rewrite Z.shiftl_mul_pow2 by lia. unfold wrap32.
          rewrite Z.pow_add_r by lia. rewrite Z.mod_small; [lia|].
          assert (2^k <= 2^30) by (apply Z.pow_le_mono_r; lia). lia. }
        apply IH. lia.
    + assert (2^k <= 2^31) by (apply Z.pow_le_mono_r; lia). lia.
Qed.

(** X6.  For a table of more than [2^31] entries the sizing loop of the
    emission never ends: the 32-bit [Size] wraps to 0 and stays below the
    length, however many turns the loop is given. *)
Theorem table_sizing_diverges (n : Z) (fuel : nat) :
  2^31 < n -> tableSize_loop fuel 1 n = None.
Proof. intros Hn. by apply (tableSize_loop_diverges n Hn fuel 0). Qed.

Lemma table_sizing_diverges_witness :
  2^31 < 2^31 + 1 /\ tableSize_loop 100 1 (2^31 + 1) = None.
Proof.
  split; [lia|]. apply (table_sizing_diverges (2^31 + 1) 100). lia.
Defined.

(** ** Block addresses *)

Lemma getBlockAddress_cases (F : Function) (BB : string) (w : JSWriter) :
  let Blocks := default ∅ (BlockAddresses w !! fn_name F) in
  (exists Index, Blocks !! BB = Some Index
                 /\ getBlockAddress F BB w = Ok (Index, w))
  \/ (Blocks !! BB = None
      /\ getBlockAddress F BB w
         = Ok (wrap32 (Z.of_nat (size Blocks)),
               with_BlockAddresses
                 (<[fn_name F := <[BB := wrap32 (Z.of_nat (size Blocks))]>
                                   Blocks]> (BlockAddresses w)) w)).
Proof.
  intros Blocks. unfold getBlockAddress. unfold_M. fold Blocks.
  destruct (Blocks !! BB) as [Index|] eqn:HBB; [left|right]; eauto.
Qed.

Lemma numbering_ok_insert (Blocks : gmap string Z) (BB : string) :
  Blocks !! BB = None -> numbering_ok Blocks ->
  numbering_ok (<[BB := Z.of_nat (size Blocks)]> Blocks).
Proof.
  intros Hnone (Hrange & Hinj & Honto).
  unfold numbering_ok. rewrite map_size_insert_None by done.
  split; [|split].
  - intros BB' i. destruct (decide (BB = BB')) as [<-|Hne].
    + rewrite lookup_insert_eq. intros [= <-]. lia.
    + rewrite lookup_insert_ne by done. intros H.
      specialize (Hrange _ _ H). lia.
  - intros BB1 BB2 i.
    destruct (decide (BB = BB1)) as [<-|Hne1],
             (decide (BB = BB2)) as [<-|Hne2]; [done| | |].
    + rewrite lookup_insert_eq, lookup_insert_ne by done.
      intros [= <-] H. specialize (Hrange _ _ H). lia.
    + rewrite lookup_insert_eq, lookup_insert_ne by done.
      intros H [= <-]. specialize (Hrange _ _ H). lia.
    + rewrite !lookup_insert_ne by done. apply Hinj.
  - intros i Hi. destruct (decide (i = Z.of_nat (size Blocks))) as [->|Hne].
    + exists BB. by rewrite lookup_insert_eq.
    + destruct (Honto i) as [BB' HBB']; [lia|]. exists BB'.
      rewrite lookup_insert_ne; [done|]. intros <-. congruence.
Qed.

Lemma numbering_ok_empty : numbering_ok ∅.
Proof.
  split; [|split].
  - intros BB i. by rewrite lookup_empty.
  - intros BB1 BB2 i. by rewrite lookup_empty.
  - intros i. rewrite map_size_empty. lia.
Qed.

Lemma block_step_bounded (w w' : JSWriter) :
  block_step w w' -> blocks_bounded w' -> blocks_bounded w.
Proof.
  intros Hstep Hb F Blocks HF.
  destruct Hstep as [F' BB Index w w' Hget|w w' Heq].
  - destruct (getBlockAddress_cases F' BB w) as [(I & _ & Hc)|[Hnone Hc]];
      rewrite Hc in Hget; injection Hget as <- <-; [by eapply Hb|].
    destruct (decide (fn_name F' = F)) as [<-|Hne].
    + rewrite HF in Hnone. simpl in Hnone.
      pose proof (Hb (fn_name F')) as H. simpl in H.
      rewrite lookup_insert_eq in H. specialize (H _ eq_refl).
      rewrite HF in H. simpl in H.
      rewrite map_size_insert_None in H by done. lia.
    + eapply (Hb F). simpl. by rewrite lookup_insert_ne.
  - eapply Hb. by rewrite Heq.
Qed.

Lemma block_step_ok (w w' : JSWriter) :
  block_step w w' -> blocks_bounded w' -> blocks_ok w -> blocks_ok w'.
Proof.
  intros Hstep Hb Hok.
  pose proof (block_step_bounded w w' Hstep Hb) as Hbw.
  destruct Hstep as [F' BB Index w w' Hget|w w' Heq].
  - destruct (getBlockAddress_cases F' BB w) as [(I & _ & Hc)|[Hnone Hc]];
      rewrite Hc in Hget; injection Hget as <- <-; [done|].
    intros F Blocks. simpl.
    destruct (decide (fn_name F' = F)) as [<-|Hne].
    + rewrite lookup_insert_eq. intros [= <-].
      set (Blocks := default ∅ (BlockAddresses w !! fn_name F')) in *.
      assert (Z.of_nat (size Blocks) < 2^32) as Hsize.
      { unfold Blocks. destruct (BlockAddresses w !! fn_name F') as [B|] eqn:HB.
        - by eapply Hbw.
        - simpl. rewrite map_size_empty. lia. }
      unfold wrap32. rewrite Z.mod_small by lia.
      apply numbering_ok_insert; [done|].
      unfold Blocks. destruct (BlockAddresses w !! fn_name F') as [B|] eqn:HB.
      * by eapply Hok.
      * apply numbering_ok_empty.
    + rewrite lookup_insert_ne by done. apply Hok.
  - intros F Blocks. rewrite Heq. apply Hok.
Qed.

(** X7.  In every state of the writer the numbering of the blocks of a
    function is one-to-one and onto the numbers below the count of its
    numbered blocks: block addresses start from 0, have no gaps, and no two
    blocks share one. *)
Theorem block_addresses_dense (w : JSWriter) (F : string)
  (Blocks : gmap string Z) :
  blocks_reachable w -> blocks_bounded w ->
  BlockAddresses w !! F = Some Blocks ->
  (forall BB i, Blocks !! BB = Some i -> 0 <= i < Z.of_nat (size Blocks))
  /\ (forall BB1 BB2 i,
        Blocks !! BB1 = Some i -> Blocks !! BB2 = Some i -> BB1 = BB2)
  /\ (forall i, 0 <= i < Z.of_nat (size Blocks) ->
        exists BB, Blocks !! BB = Some i).
Proof.
  intros Hreach Hb HF.
  assert (blocks_ok w) as Hok; [|by eapply Hok].
  clear HF. revert w Hreach Hb. unfold blocks_reachable.
  apply (rtc_ind_r (fun w => blocks_bounded w -> blocks_ok w));
    [|intros y z Hxy Hyz IH]; intros Hb.
  - intros F' B. simpl. by rewrite lookup_empty.
  - eapply block_step_ok; [done|done|].
    apply IH. by eapply block_step_bounded.
Qed.

Lemma blocks_bounded_dec (w : JSWriter) :
  map_Forall (fun _ Blocks => Z.of_nat (size (Blocks : gmap string Z)) < 2^32)
    (BlockAddresses w) ->
  blocks_bounded w.
Proof. intros H F Blocks HF. by apply (H F Blocks). Qed.

Lemma sample_blocks_reachable : blocks_reachable sample_blocks.
Proof.
  apply (rtc_l _ _ (with_BlockAddresses {[ "f" := {[ "then" := 0 ]} ]}
                      initialWriter)).
  - apply (bs_address sample_f "then" 0). vm_compute. reflexivity.
  - apply rtc_once, (bs_address sample_f "else" 1). vm_compute. reflexivity.
Qed.

Lemma block_addresses_dense_witness :
  blocks_reachable sample_blocks /\ blocks_bounded sample_blocks
  /\ BlockAddresses sample_blocks !! "f"
     = Some {[ "then" := 0; "else" := 1 ]}
  /\ forall BB1 BB2 i,
       ({[ "then" := 0; "else" := 1 ]} : gmap string Z) !! BB1 = Some i ->
       ({[ "then" := 0; "else" := 1 ]} : gmap string Z) !! BB2 = Some i ->
       BB1 = BB2.
Proof.
  assert (blocks_bounded sample_blocks) as Hb.
  { apply blocks_bounded_dec. apply (bool_decide_unpack _).
    vm_compute. exact I. }
  assert (BlockAddresses sample_blocks !! "f"
          = Some {[ "then" := 0; "else" := 1 ]}) as HF
    by (vm_compute; reflexivity).
  split; [exact sample_blocks_reachable|]. split; [exact Hb|].
  split; [exact HF|].
  exact (proj1 (proj2 (block_addresses_dense sample_blocks "f" _
                         sample_blocks_reachable Hb HF))).
Defined.

(** ** Global initializers *)

Lemma push_bytes_Heap64 (bytes : list Z) :
  forall w,
    foldl (fun w b => push_back Heap64 b w) w bytes
    = with_GlobalData64 (GlobalData64 w ++ bytes) w.
Proof.
  induction bytes as [|b rest IH]; intros w; simpl.
  - rewrite app_nil_r. by destruct w.
  - rewrite IH. unfold push_back. simpl. by rewrite <- (assoc_L (++)).
Qed.

Lemma allocateBytes_spec (name : string) (bytes : list Z) (w : JSWriter) :
  allocateBytes name bytes w
  = Ok (tt,
        with_GlobalData64 (pad_to_multiple 8 (GlobalData64 w) ++ bytes)
          (with_GlobalAddresses
             (<[name := (wrap32 (Z.of_nat
                           (length (pad_to_multiple 8 (GlobalData64 w)))), 64)]>
                (GlobalAddresses w)) w)).
Proof.
  unfold allocateBytes. unfold bind at 1.
  destruct (allocateAddress name 64 w) as [[r w1]|] eqn:Ha.
  - apply allocateAddress_ok in Ha as (_ & -> & ->).
    unfold modify. by rewrite push_bytes_Heap64.
  - unfold allocateAddress in Ha. unfold_M. by simpl in Ha.
Qed.

Section ConstantFacts.

Context (opts : Options) (CallHandlers : string -> option Handler).

Lemma parseConstant_calculate (name : string) (CV : Initializer)
  (w w' : JSWriter) :
  parseConstant opts CallHandlers name CV true w = Ok (tt, w') ->
  match calculatedBytes name CV with
  | Some bytes => allocateBytes name bytes w = Ok (tt, w')
  | None => w' = w
  end.
Proof.
  destruct CV; simpl; try done.
  - by intros [= <-].
  - destruct isString; [done|done].
  - by destruct (String.eqb name "__init_array_start"); [intros [= <-]|].
Qed.

(** What the calculate loop does to the heap: existing bytes stay, and the
    addresses of the globals it does not visit stay. *)
Lemma calculate_loop_frame (globals : list (string * option Initializer)) :
  forall w w',
    processConstants_loop opts CallHandlers globals true w = Ok (tt, w') ->
    (exists extra, GlobalData64 w' = GlobalData64 w ++ extra)
    /\ (forall name, name ∉ globals.*1 ->
          GlobalAddresses w' !! name = GlobalAddresses w !! name).
Proof.
  induction globals as [|[name init] rest IH]; intros w w'; simpl.
  - intros [= <-]. split; [exists []; by rewrite app_nil_r|done].
  - unfold bind at 1.
    destruct (match init with
              | Some CV => parseConstant opts CallHandlers name CV true
              | None => ret tt
              end w) as [[[] w1]|] eqn:Hhead; [|done].
    intros Hrest. destruct (IH w1 w' Hrest) as ([extra Hdata] & Haddr).
    assert ((exists extra1, GlobalData64 w1 = GlobalData64 w ++ extra1)
            /\ forall name', name' <> name ->
                 GlobalAddresses w1 !! name' = GlobalAddresses w !! name')
      as [[extra1 Hdata1] Haddr1].
    { destruct init as [CV|]; [|injection Hhead as <-].
      - apply parseConstant_calculate in Hhead.
        destruct (calculatedBytes name CV) as [bytes|]; [|subst w1].
        + rewrite allocateBytes_spec in Hhead. injection Hhead as <-.
          simpl. split.
          * unfold pad_to_multiple. rewrite <- (assoc_L (++)). by eexists.
          * intros name' Hne. by rewrite lookup_insert_ne.
        + split; [exists []; by rewrite app_nil_r|done].
      - split; [exists []; by rewrite app_nil_r|done]. }
    split.
    + exists (extra1 ++ extra). by rewrite Hdata, Hdata1, <- (assoc_L (++)).
    + intros name' Hnot. rewrite Haddr, Haddr1; [done| |];
        intros Hin; apply Hnot; [subst; by left|by right].
Qed.

Lemma take_drop_app_middle (a b c : list Z) :
  take (length b) (drop (length a) ((a ++ b) ++ c)) = b.
Proof.
  rewrite <- (assoc_L (++)), drop_app_length. by rewrite take_app_length.
Qed.

(** The layout the calculate loop builds. *)
Lemma calculate_loop_layout (globals : list (string * option Initializer))
  (w w' : JSWriter) :
  NoDup globals.*1 ->
  processConstants_loop opts CallHandlers globals true w = Ok (tt, w') ->
  Z.of_nat (length (GlobalData64 w')) < 2^32 ->
  forall (i : nat) name CV bytes,
    globals !! i = Some (name, Some CV) ->
    calculatedBytes name CV = Some bytes ->
    exists first,
      GlobalAddresses w' !! name = Some (first, 64)
      /\ first mod 8 = 0
      /\ Z.of_nat (length (GlobalData64 w)) <= first
      /\ first + Z.of_nat (length bytes) <= Z.of_nat (length (GlobalData64 w'))
      /\ take (length bytes) (drop (Z.to_nat first) (GlobalData64 w')) = bytes
      /\ forall (j : nat) name2 CV2 bytes2 first2,
           (i < j)%nat ->
           globals !! j = Some (name2, Some CV2) ->
           calculatedBytes name2 CV2 = Some bytes2 ->
           GlobalAddresses w' !! name2 = Some (first2, 64) ->
           first + Z.of_nat (length bytes) <= first2.
Proof.
  revert w. induction globals as [|[name0 init0] rest IH];
    intros w Hnodup Hrun Hsmall i name CV bytes Hi Hbytes; [done|].
  simpl in Hnodup. apply NoDup_cons in Hnodup as [Hfresh Hnodup].
  simpl in Hrun. unfold bind in Hrun at 1.
  destruct (match init0 with
            | Some CV => parseConstant opts CallHandlers name0 CV true
            | None => ret tt
            end w) as [[[] w1]|] eqn:Hhead; [|done].
  destruct (calculate_loop_frame rest w1 w' Hrun) as ([extra Hdata] & Haddr).
  destruct i as [|i].
  - injection Hi as -> ->.
    apply parseConstant_calculate in Hhead. rewrite Hbytes in Hhead.
    rewrite allocateBytes_spec in Hhead. injection Hhead as <-.
    simpl in Hdata, Haddr.
    set (padded := pad_to_multiple 8 (GlobalData64 w)) in *.
    destruct (pad_to_multiple_length (GlobalData64 w)) as [Hmod Hle].
    fold padded in Hmod, Hle.
    assert (Z.of_nat (length padded) + Z.of_nat (length bytes)
            <= Z.of_nat (length (GlobalData64 w'))) as Hin.
    { rewrite Hdata, !length_app. lia. }
    assert (wrap32 (Z.of_nat (length padded)) = Z.of_nat (length padded))
      as Hwrap.
    { unfold wrap32. apply Z.mod_small. lia. }
    exists (Z.of_nat (length padded)).
    split; [by rewrite Haddr, lookup_insert_eq, Hwrap by done|].
    split; [done|]. split; [done|]. split; [done|]. split.
    + rewrite Nat2Z.id, Hdata. apply take_drop_app_middle.
    + intros j name2 CV2 bytes2 first2 Hj Hj2 Hbytes2 Hfirst2.
      destruct j as [|j]; [lia|]. simpl in Hj2.
      destruct (IH _ Hnodup Hrun Hsmall j name2 CV2 bytes2 Hj2 Hbytes2)
        as (first2' & Hf2 & _ & Hge & _).
      rewrite Hfirst2 in Hf2. injection Hf2 as <-.
      simpl in Hge. rewrite length_app in Hge. lia.
  - simpl in Hi.
    destruct (IH w1 Hnodup Hrun Hsmall i name CV bytes Hi Hbytes)
      as (first & Hf & Hmod & Hge & Hin & Htake & Hlater).
    exists first. split; [done|]. split; [done|]. split.
    { assert (exists extra1, GlobalData64 w1 = GlobalData64 w ++ extra1)
        as [extra1 Hdata1].
      { destruct init0 as [CV0|]; [|injection Hhead as <-].
        - apply parseConstant_calculate in Hhead.
          destruct (calculatedBytes name0 CV0) as [bytes0|]; [|subst w1].
          + rewrite allocateBytes_spec in Hhead. injection Hhead as <-.
            simpl. unfold pad_to_multiple. rewrite <- (assoc_L (++)).
            by eexists.
          + exists []. by rewrite app_nil_r.
        - exists []. by rewrite app_nil_r. }
      rewrite Hdata1, length_app in Hge. lia. }
    split; [done|]. split; [done|].
    intros j name2 CV2 bytes2 first2 Hj Hj2.
    destruct j as [|j]; [lia|]. simpl in Hj2.
    apply (Hlater j); [lia|done].
Qed.

(** X8.  The calculate phase lays the globals out one after another: a
    global that is allocated gets an offset that is a multiple of 8 and lies
    past everything that was on the heap before, its bytes stand at that
    offset, and a global calculated later starts past its last byte. *)
Theorem calculate_phase_layout (globals : list (string * option Initializer))
  (w w' : JSWriter) :
  NoDup globals.*1 ->
  processConstants_loop opts CallHandlers globals true w = Ok (tt, w') ->
  Z.of_nat (length (GlobalData64 w')) < 2^32 ->
  forall (i : nat) name CV bytes,
    globals !! i = Some (name, Some CV) ->
    calculatedBytes name CV = Some bytes ->
    exists first,
      GlobalAddresses w' !! name = Some (first, 64)
      /\ first mod 8 = 0
      /\ Z.of_nat (length (GlobalData64 w)) <= first
      /\ first + Z.of_nat (length bytes) <= Z.of_nat (length (GlobalData64 w'))
      /\ take (length bytes) (drop (Z.to_nat first) (GlobalData64 w')) = bytes
      /\ forall (j : nat) name2 CV2 bytes2 first2,
           (i < j)%nat ->
           globals !! j = Some (name2, Some CV2) ->
           calculatedBytes name2 CV2 = Some bytes2 ->
           GlobalAddresses w' !! name2 = Some (first2, 64) ->
           first + Z.of_nat (length bytes) <= first2.
Proof.
  intros Hnodup Hrun Hsmall i name CV bytes Hi Hbytes.
  by eapply calculate_loop_layout.
Qed.


End ConstantFacts.

Lemma calculate_phase_layout_witness :
  match processConstants_loop defaultOptions noHandlers sample_globals true
          initialWriter with
  | Ok (_, w') =>
      NoDup sample_globals.*1
      /\ Z.of_nat (length (GlobalData64 w')) < 2^32
      /\ GlobalData64 w'
         = [104; 105; 0; 0; 0; 0; 0; 0; 2; 1; 0; 0; 0; 0; 0; 0;
            0; 0; 0; 0; 0]
      /\ exists first,
           GlobalAddresses w' !! "n" = Some (first, 64)
           /\ first mod 8 = 0
           /\ take 8 (drop (Z.to_nat first) (GlobalData64 w')) = bytesLE 8 258
  | Fatal _ => False
  end.
Proof.

  destruct (processConstants_loop defaultOptions noHandlers sample_globals
              true initialWriter) as [[[] w']|] eqn:Hrun;
    [|by vm_compute in Hrun].
  assert (NoDup sample_globals.*1) as Hnodup.
  { apply (bool_decide_unpack _). vm_compute. exact I. }
  assert (GlobalData64 w'
          = [104; 105; 0; 0; 0; 0; 0; 0; 2; 1; 0; 0; 0; 0; 0; 0;
             0; 0; 0; 0; 0]) as Hdata.
  { vm_compute in Hrun. by injection Hrun as <-. }
  assert (Z.of_nat (length (GlobalData64 w')) < 2^32) as Hsmall.
  { rewrite Hdata. simpl. lia. }
  split; [exact Hnodup|]. split; [exact Hsmall|]. split; [exact Hdata|].
  destruct (calculate_phase_layout defaultOptions noHandlers sample_globals
              initialWriter w' Hnodup Hrun Hsmall 1%nat "n" (InitInt 258)
              (bytesLE 8 258) eq_refl eq_refl)
    as (first & Hf & Hmod & _ & _ & Htake & _).
  exists first. split; [exact Hf|]. split; [exact Hmod|]. exact Htake.
Defined.

Lemma heap_frame_refl (w : JSWriter) : heap_frame w w.
Proof. done. Qed.

Lemma heap_frame_trans (w1 w2 w3 : JSWriter) :
  heap_frame w1 w2 -> heap_frame w2 w3 -> heap_frame w1 w3.
Proof. unfold heap_frame. intuition congruence. Qed.

Lemma storeBytes_middle (bytes : list Z) :
  forall (pre old post : list Z),
    length old = length bytes ->
    Z.of_nat (length (pre ++ old ++ post)) < 2^32 ->
    storeBytes (Z.of_nat (length pre)) bytes (pre ++ old ++ post)
    = pre ++ bytes ++ post.
Proof.
  induction bytes as [|b bytes IH]; intros pre [|o old] post Hlen Hsmall;
    try done.
  simpl. rewrite Nat2Z.id.
  rewrite insert_app_r_alt, Nat.sub_diag by lia. simpl.
  rewrite !length_app in Hsmall. simpl in Hsmall.
  assert (wrap32 (Z.of_nat (length pre) + 1)
          = Z.of_nat (length (pre ++ [b]))) as ->.
  { rewrite length_app. simpl. unfold wrap32. rewrite Z.mod_small; lia. }
  replace (pre ++ b :: old ++ post) with ((pre ++ [b]) ++ old ++ post)
    by (by rewrite <- (assoc_L (++))).
  rewrite IH.
  - by rewrite <- (assoc_L (++)).
  - simpl in Hlen. lia.
  - rewrite !length_app. simpl. lia.
Qed.

Lemma bytesLE_length (n : nat) (x : Z) : length (bytesLE n x) = n.
Proof. unfold bytesLE. by rewrite length_map, length_seq. Qed.

Section EmitFacts.

Context (opts : Options) (CallHandlers : string -> option Handler).

Lemma getFunctionSignatureLetter_heap_frame (T : Ty) (w : JSWriter) :
  heap_frame w (getFunctionSignatureLetter opts T w).2.
Proof. by destruct T. Qed.

Lemma getFunctionSignature_params_heap_frame (params : list Ty) :
  forall w, heap_frame w (getFunctionSignature_params opts params w).2.
Proof.
  induction params as [|T rest IH]; intros w; simpl; [done|].
  pose proof (getFunctionSignatureLetter_heap_frame T w) as HT.
  destruct (getFunctionSignatureLetter opts T w) as [c w1].
  pose proof (IH w1) as Hrest.
  destruct (getFunctionSignature_params opts rest w1) as [s w2].
  by eapply heap_frame_trans.
Qed.

Lemma getFunctionSignature_heap_frame (F : Function) (w : JSWriter) :
  heap_frame w (getFunctionSignature opts F w).2.
Proof.
  unfold getFunctionSignature.
  pose proof (getFunctionSignatureLetter_heap_frame (fn_ret F) w) as HT.
  destruct (getFunctionSignatureLetter opts (fn_ret F) w) as [c w1].
  pose proof (getFunctionSignature_params_heap_frame (fn_params F) w1)
    as Hrest.
  destruct (getFunctionSignature_params opts (fn_params F) w1) as [s w2].
  by eapply heap_frame_trans.
Qed.

Lemma getFunctionIndex_heap_frame (F : Function) (w : JSWriter) :
  heap_frame w (getFunctionIndex opts CallHandlers F w).2.
Proof.
  unfold getFunctionIndex.
  destruct (IndexedFunctions w !! _); [done|].
  pose proof (getFunctionSignature_heap_frame F w) as H1.
  destruct (getFunctionSignature opts F w) as [sig0 w1].
  unfold ensureFunctionTable.
  pose proof (getFunctionSignature_heap_frame F w1) as H2.
  destruct (getFunctionSignature opts F w1) as [sig w2].
  cbv beta iota zeta. cbn [snd].
  eapply heap_frame_trans; [exact H1|].
  eapply heap_frame_trans; [exact H2|].
  destruct (CallHandlers _) as [h|];
    [unfold runHandler; destruct (h _)|];
    by destruct (NoAliasingFunctionPointers opts).
Qed.

Lemma getGlobalAddress_unchanged (s : string) (w w' : JSWriter) (a : Z) :
  getGlobalAddress opts s w = Ok (a, w') -> w' = w.
Proof.
  unfold getGlobalAddress. unfold_M.
  destruct (GlobalAddresses w !! s) as [[first second]|]; [|done].
  repeat (destruct (_ =? _); simpl; try done); by intros [= _ <-].
Qed.

Lemma getGlobalAddress_fatal (s : string) (w : JSWriter) (msg : string) :
  getGlobalAddress opts s w = Fatal msg ->
  String.get 0 msg <> Some "O"%char.
Proof.
  unfold getGlobalAddress. unfold_M.
  destruct (GlobalAddresses w !! s) as [[first second]|];
    [|by intros [= <-]].
  repeat (destruct (_ =? _); simpl; try done); by intros [= <-].
Qed.

Lemma getConstAsOffset_heap_frame (V : Value) (Target : Z) (w w' : JSWriter)
  (Data : Z) :
  getConstAsOffset opts CallHandlers V Target w = Ok (Data, w') ->
  heap_frame w w'.
Proof.
  unfold getConstAsOffset.
  destruct (resolveFully V) as [| | | | | | |F|F BB|name ty hasInit| |];
    try (by intros ->%getGlobalAddress_unchanged).
  - intros [= H]. apply (f_equal snd) in H. simpl in H. subst w'.
    apply getFunctionIndex_heap_frame.
  - unfold getBlockAddress. unfold_M. destruct (_ !! BB); by intros [= _ <-].
  - destruct hasInit; [by intros ->%getGlobalAddress_unchanged|].
    unfold_M. by intros [= _ <-].
Qed.

Lemma getConstAsOffset_fatal (V : Value) (Target : Z) (w : JSWriter)
  (msg : string) :
  getConstAsOffset opts CallHandlers V Target w = Fatal msg ->
  String.get 0 msg <> Some "O"%char.
Proof.
  unfold getConstAsOffset.
  destruct (resolveFully V) as [| | | | | | |F|F BB|name ty hasInit| |];
    try apply getGlobalAddress_fatal; try done.
  - unfold getBlockAddress. unfold_M. by destruct (_ !! BB).
  - destruct hasInit; [apply getGlobalAddress_fatal|done].
Qed.

(** The emit loop on a struct whose bytes lie within the heap. *)
Lemma emitStruct_loop_spec (OffsetStart Absolute : Z)
  (elems : list StructElem) :
  forall (pre old post : list Z) (w : JSWriter),
    GlobalData64 w = pre ++ old ++ post ->
    Z.of_nat (length old) = structSize elems ->
    Z.of_nat (length (GlobalData64 w)) < 2^32 ->
    match emitStruct_loop opts CallHandlers OffsetStart Absolute elems
            (Z.of_nat (length pre)) w with
    | Ok (_, w') =>
        exists new,
          GlobalData64 w' = pre ++ new ++ post
          /\ struct_image elems old new
          /\ GlobalData8 w' = GlobalData8 w
          /\ GlobalData32 w' = GlobalData32 w
          /\ GlobalAddresses w' = GlobalAddresses w
    | Fatal msg =>
        msg <> "Offset+4 <= GlobalData64.size()"
        /\ msg <> "Offset+Str.size() <= GlobalData64.size()"
    end.
Proof.
  assert (forall msg, String.get 0 msg <> Some "O"%char ->
            msg <> "Offset+4 <= GlobalData64.size()"
            /\ msg <> "Offset+Str.size() <= GlobalData64.size()") as Hmsg.
  { intros msg H. split; intros ->; by apply H. }
  induction elems as [|e rest IH]; intros pre old post w Hdata Hsize Hsmall.
  - simpl. exists []. destruct old; [|done]. split; [done|].
    split; [constructor|done].
  - destruct e as [Bytes|opcode op0|isString Str|]; simpl in Hsize |- *.
    + (* zeros *)
      assert (0 <= wrap32 Bytes) by (apply Z.mod_pos_bound; lia).
      assert (0 <= structSize rest).
      { clear. induction rest as [|e r IHr]; simpl; [lia|].
        assert (0 <= elemSize e); [|lia].
        destruct e; simpl; try lia. apply Z.mod_pos_bound. lia. }
      set (n := Z.to_nat (wrap32 Bytes)).
      assert (old = take n old ++ drop n old) as Hsplit
        by (by rewrite take_drop).
      assert (length (take n old) = n) as Hlen1.
      { rewrite length_take. lia. }
      assert (wrap32 (Z.of_nat (length pre) + wrap32 Bytes)
              = Z.of_nat (length (pre ++ take n old))) as ->.
      { rewrite length_app, Hlen1. unfold wrap32 at 1.
        rewrite Z.mod_small; [lia|].
        rewrite Hdata, !length_app in Hsmall. lia. }
      specialize (IH (pre ++ take n old) (drop n old) post w).
      destruct (emitStruct_loop _ _ _ _ rest _ w) as [[[] w']|].
      * destruct IH as (new & Hnew & Himg & Hrest); [| |done|].
        { rewrite Hdata. rewrite Hsplit at 1.
          by rewrite <- !(assoc_L (++)). }
        { rewrite length_drop. lia. }
        exists (take n old ++ new). split.
        { rewrite Hnew. by rewrite <- !(assoc_L (++)). }
        split; [|done]. rewrite Hsplit at 1.
        constructor; [lia|done].
      * apply IH; [|rewrite length_drop; lia|done].
        rewrite Hdata. rewrite Hsplit at 1. by rewrite <- !(assoc_L (++)).
    + (* constant expression *)
      assert (0 <= structSize rest).
      { clear. induction rest as [|e r IHr]; simpl; [lia|].
        assert (0 <= elemSize e); [|lia].
        destruct e; simpl; try lia. apply Z.mod_pos_bound. lia. }
      unfold bind at 1.
      set (Target := wrap32 (Absolute + Z.of_nat (length pre) - OffsetStart)).
      assert (forall c : M Z,
        (forall D w1, c w = Ok (D, w1) -> heap_frame w w1) ->
        (forall msg, c w = Fatal msg -> String.get 0 msg <> Some "O"%char) ->
        match
          match c w with
          | Ok (Data, w1) =>
              (let* w2 := get in
               let* _ := assert (wrap32 (Z.of_nat (length pre) + 4)
                                 <=? Z.of_nat (length (GlobalData64 w2)))
                           "Offset+4 <= GlobalData64.size()" in
               let* _ := modify (fun w =>
                           with_GlobalData64
                             (storeBytes (Z.of_nat (length pre))
                                (bytesLE 4 Data) (GlobalData64 w)) w) in
               emitStruct_loop opts CallHandlers OffsetStart Absolute rest
                 (wrap32 (Z.of_nat (length pre) + 4))) w1
          | Fatal msg => Fatal msg
          end
        with
        | Ok (_, w') =>
            exists new,
              GlobalData64 w' = pre ++ new ++ post
              /\ struct_image (ElemExpr opcode op0 :: rest) old new
              /\ GlobalData8 w' = GlobalData8 w
              /\ GlobalData32 w' = GlobalData32 w
              /\ GlobalAddresses w' = GlobalAddresses w
        | Fatal msg =>
            msg <> "Offset+4 <= GlobalData64.size()"
            /\ msg <> "Offset+Str.size() <= GlobalData64.size()"
        end) as Hcont.
      { intros c Hframe Hfatal.
        destruct (c w) as [[Data w1]|msg] eqn:Hc; [|by apply Hmsg, Hfatal].
        destruct (Hframe Data w1 eq_refl) as (H8 & H32 & H64 & HA).
        unfold_M. rewrite H64.
        assert (old = take 4 old ++ drop 4 old) as Hsplit
          by (by rewrite take_drop).
        assert (length (take 4 old) = 4%nat) as Hlen1.
        { rewrite length_take. lia. }
        assert (wrap32 (Z.of_nat (length pre) + 4)
                = Z.of_nat (length (pre ++ bytesLE 4 Data))) as ->.
        { rewrite length_app, bytesLE_length. unfold wrap32.
          rewrite Z.mod_small; [lia|].
          rewrite Hdata, !length_app in Hsmall. lia. }
        destruct (Z.leb_spec (Z.of_nat (length (pre ++ bytesLE 4 Data)))
                    (Z.of_nat (length (GlobalData64 w)))) as [_|Hgt].
        2:{ rewrite Hdata, !length_app, bytesLE_length in Hgt. lia. }
        unfold ret. cbv beta iota. rewrite H64.
        match goal with
        | |- context [with_GlobalData64 ?d w1] =>
            set (w2 := with_GlobalData64 d w1)
        end.
        assert (GlobalData64 w2
                = (pre ++ bytesLE 4 Data) ++ drop 4 old ++ post) as Hdata2.
        { unfold w2. cbn [GlobalData64 with_GlobalData64]. rewrite Hdata.
          rewrite Hsplit at 1.
          rewrite <- (assoc_L (++) (take 4 old)).
          rewrite storeBytes_middle.
          - by rewrite <- !(assoc_L (++)).
          - by rewrite Hlen1, bytesLE_length.
          - rewrite (assoc_L (++) (take 4 old)), <- Hsplit, <- Hdata. done. }
        specialize (IH (pre ++ bytesLE 4 Data) (drop 4 old) post w2 Hdata2).
        destruct (emitStruct_loop _ _ _ _ rest _ w2) as [[[] w']|].
        - destruct IH as (new & Hnew & Himg & H8' & H32' & HA').
          { rewrite length_drop. lia. }
          { rewrite Hdata2, !length_app, bytesLE_length, length_drop.
            rewrite Hdata, !length_app in Hsmall. lia. }
          exists (bytesLE 4 Data ++ new). split.
          { rewrite Hnew. by rewrite <- !(assoc_L (++)). }
          split; [rewrite Hsplit at 1; by constructor|].
          unfold w2 in *. simpl in *. split; [congruence|].
          split; congruence.
        - apply IH; [rewrite length_drop; lia|].
          rewrite Hdata2, !length_app, bytesLE_length, length_drop.
          rewrite Hdata, !length_app in Hsmall. lia. }
      destruct opcode as [| | |bits addend]; try by apply Hmsg.
      * apply Hcont.
        -- intros D w1. apply getConstAsOffset_heap_frame.
        -- intros msg. apply getConstAsOffset_fatal.
      * destruct op0 as [| | | | | | | | | | |opc ty V]; try by apply Hmsg.
        apply Hcont.
        -- intros D w1. unfold bind.
           destruct (getConstAsOffset _ _ V Target w) as [[D0 w0]|] eqn:HV;
             [|done].
           intros [= _ <-]. by eapply getConstAsOffset_heap_frame.
        -- intros msg. unfold bind.
           destruct (getConstAsOffset _ _ V Target w) as [[D0 w0]|] eqn:HV;
             [done|].
           intros [= <-]. by eapply getConstAsOffset_fatal.
    + (* string *)
      assert (0 <= structSize rest).
      { clear. induction rest as [|e r IHr]; simpl; [lia|].
        assert (0 <= elemSize e); [|lia].
        destruct e; simpl; try lia. apply Z.mod_pos_bound. lia. }
      destruct isString; [|by apply Hmsg].
      unfold_M. simpl.
      set (n := length Str).
      assert (old = take n old ++ drop n old) as Hsplit
        by (by rewrite take_drop).
      assert (length (take n old) = n) as Hlen1.
      { rewrite length_take. lia. }
      destruct (Z.leb_spec (Z.of_nat (length pre) + Z.of_nat n)
                  (Z.of_nat (length (GlobalData64 w)))) as [_|Hgt].
      2:{ rewrite Hdata, !length_app in Hgt. lia. }
      unfold ret. cbv beta iota.
      assert (wrap32 (Z.of_nat (length pre) + Z.of_nat n)
              = Z.of_nat (length (pre ++ Str))) as ->.
      { rewrite length_app. unfold wrap32. rewrite Z.mod_small; [lia|].
        rewrite Hdata, !length_app in Hsmall. lia. }
      match goal with
      | |- context [with_GlobalData64 ?d w] =>
          set (w2 := with_GlobalData64 d w)
      end.
      assert (GlobalData64 w2 = (pre ++ Str) ++ drop n old ++ post)
        as Hdata2.
      { unfold w2. cbn [GlobalData64 with_GlobalData64]. rewrite Hdata.
          rewrite Hsplit at 1.
        rewrite <- (assoc_L (++) (take n old)).
        rewrite storeBytes_middle.
        - by rewrite <- !(assoc_L (++)).
        - done.
        - rewrite (assoc_L (++) (take n old)), <- Hsplit, <- Hdata. done. }
      specialize (IH (pre ++ Str) (drop n old) post w2 Hdata2).
      destruct (emitStruct_loop _ _ _ _ rest _ w2) as [[[] w']|].
      * destruct IH as (new & Hnew & Himg & H8' & H32' & HA').
        { rewrite length_drop. lia. }
        { rewrite Hdata2, !length_app, length_drop.
          rewrite Hdata, !length_app in Hsmall. lia. }
        exists (Str ++ new). split.
        { rewrite Hnew. by rewrite <- !(assoc_L (++)). }
        split; [rewrite Hsplit at 1; by constructor|done].
      * apply IH; [rewrite length_drop; lia|].
        rewrite Hdata2, !length_app, length_drop.
        rewrite Hdata, !length_app in Hsmall. lia.
    + by apply Hmsg.
Qed.

(** The emit phase on a packed struct whose bytes lie within the heap. *)
Lemma parseConstant_struct_emit (name : string) (isPacked : bool) (Bytes : Z)
  (elems : list StructElem) (w : JSWriter) (pre old post : list Z) :
  String.eqb name "__init_array_start" = false ->
  GlobalAddresses w !! name = Some (Z.of_nat (length pre), 64) ->
  GlobalData64 w = pre ++ old ++ post ->
  Z.of_nat (length old) = structSize elems ->
  Z.of_nat (length (GlobalData64 w)) < 2^32 ->
  match parseConstant opts CallHandlers name
          (InitStruct isPacked Bytes elems) false w with
  | Ok (_, w') =>
      exists new,
        GlobalData64 w' = pre ++ new ++ post
        /\ struct_image elems old new
        /\ length new = length old
        /\ GlobalData8 w' = GlobalData8 w
        /\ GlobalData32 w' = GlobalData32 w
        /\ GlobalAddresses w' = GlobalAddresses w
  | Fatal msg =>
      msg <> "Offset+4 <= GlobalData64.size()"
      /\ msg <> "Offset+Str.size() <= GlobalData64.size()"
  end.
Proof.
  intros Hname HG Hdata Hsize Hsmall. unfold parseConstant. rewrite Hname.
  destruct isPacked; [|done].
  assert (getRelativeGlobalAddress name w = Ok (Z.of_nat (length pre), w))
    as Hrel.
  { unfold getRelativeGlobalAddress. unfold_M. by rewrite HG. }
  unfold bind at 1. change (assert true _ w) with (Ok (tt, w)).
  cbv beta iota. unfold bind at 1. rewrite Hrel. unfold bind at 1.
  destruct (getGlobalAddress opts name w) as [[Absolute w1]|msg] eqn:Ha.
  - apply getGlobalAddress_unchanged in Ha as Hw. subst w1.
    pose proof (emitStruct_loop_spec (Z.of_nat (length pre)) Absolute elems
                  pre old post w Hdata Hsize Hsmall) as Hloop.
    destruct (emitStruct_loop _ _ _ _ elems _ w) as [[[] w']|]; [|done].
    destruct Hloop as (new & Hnew & Himg & Hrest).
    exists new. split; [done|]. split; [done|]. split; [|done].
    clear -Himg. induction Himg; rewrite ?length_app; try lia.
    rewrite bytesLE_length. lia.
  - pose proof (getGlobalAddress_fatal name w msg Ha) as Hmsg.
    split; intros ->; by apply Hmsg.
Qed.



End EmitFacts.


Section ProcessFacts.

Context (opts : Options) (CallHandlers : string -> option Handler).

Lemma not_bounds_message (msg : string) :
  String.get 0 msg <> Some "O"%char ->
  msg <> "Offset+4 <= GlobalData64.size()"
  /\ msg <> "Offset+Str.size() <= GlobalData64.size()".
Proof. intros H. split; intros ->; by apply H. Qed.

Lemma parseConstant_calculate_fatal (name : string) (CV : Initializer)
  (w : JSWriter) (msg : string) :
  parseConstant opts CallHandlers name CV true w = Fatal msg ->
  String.get 0 msg <> Some "O"%char.
Proof.
  destruct CV; unfold parseConstant; cbv beta iota;
    try (destruct isString); try (destruct (String.eqb name _));
    unfold bind, assert, ret, fatal; cbv beta iota;
    rewrite ?allocateBytes_spec; try done; by intros [= <-].
Qed.

Lemma calculate_loop_fatal (globals : list (string * option Initializer)) :
  forall w msg,
    processConstants_loop opts CallHandlers globals true w = Fatal msg ->
    String.get 0 msg <> Some "O"%char.
Proof.
  induction globals as [|[name init] rest IH]; intros w msg; simpl; [done|].
  unfold bind at 1.
  destruct (match init with
            | Some CV => parseConstant opts CallHandlers name CV true
            | None => ret tt
            end w) as [[[] w1]|msg1] eqn:Hhead.
  - apply IH.
  - intros [= <-]. destruct init as [CV|]; [|done].
    by eapply parseConstant_calculate_fatal.
Qed.

Lemma calculate_loop_in_heap (globals : list (string * option Initializer))
  (w w' : JSWriter) :
  NoDup globals.*1 ->
  processConstants_loop opts CallHandlers globals true w = Ok (tt, w') ->
  Z.of_nat (length (GlobalData64 w')) < 2^32 ->
  globals_in_heap globals w'.
Proof.
  intros Hnodup Hrun Hsmall name CV bytes Hin Hbytes.
  apply list_elem_of_lookup in Hin as [i Hi].
  destruct (calculate_loop_layout opts CallHandlers globals w w' Hnodup Hrun
              Hsmall i name CV bytes Hi Hbytes)
    as (first & HG & _ & Hge & Hle & _).
  exists first. split; [done|]. split; [lia|done].
Qed.

(** The emit phase on one global whose bytes lie within the heap. *)
Lemma parseConstant_emit_frame (name : string) (CV : Initializer)
  (w : JSWriter) :
  (forall isPacked Bytes elems bytes,
     CV = InitStruct isPacked Bytes elems ->
     calculatedBytes name CV = Some bytes ->
     wrap32 Bytes = structSize elems
     /\ exists first,
          GlobalAddresses w !! name = Some (first, 64)
          /\ 0 <= first
          /\ first + Z.of_nat (length bytes)
             <= Z.of_nat (length (GlobalData64 w))) ->
  Z.of_nat (length (GlobalData64 w)) < 2^32 ->
  match parseConstant opts CallHandlers name CV false w with
  | Ok (_, w') =>
      length (GlobalData64 w') = length (GlobalData64 w)
      /\ GlobalAddresses w' = GlobalAddresses w
  | Fatal msg =>
      msg <> "Offset+4 <= GlobalData64.size()"
      /\ msg <> "Offset+Str.size() <= GlobalData64.size()"
  end.
Proof.
  intros Hstruct Hsmall.
  destruct CV as [|isString Str|raw| |Bytes|isPacked Bytes elems| | |];
    try done.
  - simpl. by destruct isString.
  - destruct (String.eqb name "__init_array_start") eqn:Hname.
    { simpl. by rewrite Hname. }
    destruct (Hstruct isPacked Bytes elems
                (replicate (Z.to_nat (wrap32 Bytes)) 0) eq_refl)
      as (Hsize & first & HG & Hfirst & Hle).
    { simpl. by rewrite Hname. }
    rewrite length_replicate in Hle.
    assert (0 <= wrap32 Bytes) by (apply Z.mod_pos_bound; lia).
    set (data := GlobalData64 w) in *.
    set (a := Z.to_nat first). set (n := Z.to_nat (wrap32 Bytes)).
    assert (data = take a data ++ take n (drop a data) ++ drop n (drop a data))
      as Hdata by (by rewrite !take_drop).
    assert (length (take a data) = a) as Hlena by (rewrite length_take; lia).
    assert (GlobalAddresses w !! name
            = Some (Z.of_nat (length (take a data)), 64)) as HG'.
    { rewrite Hlena. unfold a. by rewrite Z2Nat.id. }
    pose proof (parseConstant_struct_emit opts CallHandlers name isPacked
                  Bytes elems w _ _ _ Hname HG' Hdata) as Hemit.
    destruct (parseConstant opts CallHandlers name
                (InitStruct isPacked Bytes elems) false w) as [[[] w']|].
    + destruct Hemit as (new & Hnew & _ & Hlen & _ & _ & HA); [|done|].
      { rewrite length_take, length_drop. lia. }
      split; [|done]. rewrite Hnew.
      pose proof (f_equal length Hdata) as Hl.
      rewrite !length_app in Hl |- *. lia.
    + apply Hemit; [|done]. rewrite length_take, length_drop. lia.
Qed.

Lemma emit_loop_frame (all : list (string * option Initializer)) :
  well_sized all ->
  forall globals w,
    globals ⊆ all -> globals_in_heap all w ->
    Z.of_nat (length (GlobalData64 w)) < 2^32 ->
    match processConstants_loop opts CallHandlers globals false w with
    | Ok (_, w') =>
        length (GlobalData64 w') = length (GlobalData64 w)
        /\ GlobalAddresses w' = GlobalAddresses w
    | Fatal msg =>
        msg <> "Offset+4 <= GlobalData64.size()"
        /\ msg <> "Offset+Str.size() <= GlobalData64.size()"
    end.
Proof.
  intros Hsized.
  induction globals as [|[name init] rest IH]; intros w Hsub Hin Hsmall;
    simpl; [done|].
  unfold bind at 1.
  assert (match (match init with
                 | Some CV => parseConstant opts CallHandlers name CV false
                 | None => ret tt
                 end w) with
          | Ok (_, w') =>
              length (GlobalData64 w') = length (GlobalData64 w)
              /\ GlobalAddresses w' = GlobalAddresses w
          | Fatal msg =>
              msg <> "Offset+4 <= GlobalData64.size()"
              /\ msg <> "Offset+Str.size() <= GlobalData64.size()"
          end) as Hhead.
  { destruct init as [CV|]; [|done].
    apply parseConstant_emit_frame; [|done].
    intros isPacked Bytes elems bytes -> Hbytes.
    assert ((name, Some (InitStruct isPacked Bytes elems)) ∈ all) as Hall.
    { apply Hsub. by left. }
    split; [by eapply Hsized|]. by eapply Hin. }
  destruct (match init with
            | Some CV => parseConstant opts CallHandlers name CV false
            | None => ret tt
            end w) as [[[] w1]|msg1]; [|done].
  destruct Hhead as [Hlen HA].
  specialize (IH w1).
  destruct (processConstants_loop opts CallHandlers rest false w1)
    as [[[] w']|].
  - destruct IH as [Hlen' HA'].
    + intros e He. apply Hsub. by right.
    + intros n CV bytes Hn Hb. destruct (Hin n CV bytes Hn Hb)
        as (first & HG & H0 & Hle).
      exists first. rewrite HA, Hlen. done.
    + by rewrite Hlen.
    + split; congruence.
  - apply IH.
    + intros e He. apply Hsub. by right.
    + intros n CV bytes Hn Hb. destruct (Hin n CV bytes Hn Hb)
        as (first & HG & H0 & Hle).
      exists first. rewrite HA, Hlen. done.
    + by rewrite Hlen.
Qed.

(** X10.  [processConstants] on globals with distinct names whose packed
    structs have the store size of their operands: the emit phase never
    fails a bounds assertion, and it leaves the length of the heap and the
    addresses as the calculate phase built them. *)
Theorem process_constants_in_bounds
  (globals : list (string * option Initializer)) (w : JSWriter) :
  NoDup globals.*1 -> well_sized globals ->
  (forall w1,
     processConstants_loop opts CallHandlers globals true w = Ok (tt, w1) ->
     Z.of_nat (length (GlobalData64 w1)) < 2^32) ->
  match processConstants opts CallHandlers globals w with
  | Ok (_, w') =>
      exists w1,
        processConstants_loop opts CallHandlers globals true w = Ok (tt, w1)
        /\ length (GlobalData64 w') = length (GlobalData64 w1)
        /\ GlobalAddresses w' = GlobalAddresses w1
  | Fatal msg =>
      msg <> "Offset+4 <= GlobalData64.size()"
      /\ msg <> "Offset+Str.size() <= GlobalData64.size()"
  end.
Proof.
  intros Hnodup Hsized Hsmall. unfold processConstants, bind.
  destruct (processConstants_loop opts CallHandlers globals true w)
    as [[[] w1]|msg] eqn:Hcalc.
  - specialize (Hsmall w1 eq_refl).
    pose proof (calculate_loop_in_heap globals w w1 Hnodup Hcalc Hsmall)
      as Hin.
    pose proof (emit_loop_frame globals Hsized globals w1
                  (reflexivity _) Hin Hsmall) as Hemit.
    destruct (processConstants_loop opts CallHandlers globals false w1)
      as [[[] w']|]; [|done].
    by exists w1.
  - apply not_bounds_message. by eapply calculate_loop_fatal.
Qed.

End ProcessFacts.

Lemma struct_globals_well_sized : well_sized struct_globals.
Proof.
  intros name isPacked Bytes elems Hin.
  apply elem_of_cons in Hin as [Heq|Hin]; [discriminate Heq|].
  apply list_elem_of_singleton in Hin. injection Hin as _ _ -> ->.
  reflexivity.
Qed.

Lemma process_constants_in_bounds_witness :
  NoDup struct_globals.*1 /\ well_sized struct_globals
  /\ match processConstants defaultOptions noHandlers struct_globals
             initialWriter with
     | Ok (_, w') =>
         GlobalData64 w'
         = [104; 105; 0; 0; 0; 0; 0; 0; 1; 0; 0; 0; 0; 0; 0; 111; 107]
         /\ exists w1,
              processConstants_loop defaultOptions noHandlers struct_globals
                true initialWriter = Ok (tt, w1)
              /\ length (GlobalData64 w') = length (GlobalData64 w1)
              /\ GlobalAddresses w' = GlobalAddresses w1
     | Fatal _ => False
     end.
Proof.
  assert (NoDup struct_globals.*1) as Hnodup.
  { apply (bool_decide_unpack _). vm_compute. exact I. }
  split; [exact Hnodup|]. split; [exact struct_globals_well_sized|].
  pose proof (process_constants_in_bounds defaultOptions noHandlers
                struct_globals initialWriter Hnodup struct_globals_well_sized)
    as Hsafe.
  assert (forall w1,
            processConstants_loop defaultOptions noHandlers struct_globals
              true initialWriter = Ok (tt, w1) ->
            Z.of_nat (length (GlobalData64 w1)) < 2^32) as Hsmall.
  { intros w1 Hrun. vm_compute in Hrun. injection Hrun as <-. simpl. lia. }
  specialize (Hsafe Hsmall).
  destruct (processConstants defaultOptions noHandlers struct_globals
              initialWriter) as [[[] w']|] eqn:Hrun.
  - split; [|exact Hsafe]. vm_compute in Hrun. by injection Hrun as <-.
  - by vm_compute in Hrun.
Defined.

Lemma bytesLE_S (n : nat) (x : Z) :
  bytesLE (S n) x = Z.land x 255 :: bytesLE n (Z.shiftr x 8).
Proof.
  unfold bytesLE. simpl. f_equal.
  rewrite <- seq_shift, map_map. apply map_ext. intros i.
  rewrite Z.shiftr_shiftr by lia. do 2 f_equal. lia.
Qed.

Lemma valueLE_bytesLE (n : nat) :
  forall x, valueLE (bytesLE n x) = x mod 2^(8 * Z.of_nat n).
Proof.
  induction n as [|n IH]; intros x.
  - simpl. by rewrite Z.mod_1_r.
  - rewrite bytesLE_S. simpl valueLE. rewrite IH.
    change 255 with (Z.ones 8). rewrite Z.land_ones by lia.
    rewrite Z.shiftr_div_pow2 by lia.
    replace (8 * Z.of_nat (S n)) with (8 + 8 * Z.of_nat n) by lia.
    rewrite Z.pow_add_r by lia.
    rewrite Z.rem_mul_r; [done|lia|]. apply Z.pow_pos_nonneg; lia.
Qed.

Section IntegerGlobals.

Context (opts : Options) (CallHandlers : string -> option Handler).

(** X11.  An integer global is stored as the eight little-endian bytes of
    its 64-bit value: after the calculate phase, the eight bytes at its
    offset, read back lowest first, are the value, and its offset is a
    multiple of 8. *)
Theorem integer_global_round_trip (name : string) (raw : Z)
  (w w' : JSWriter) :
  0 <= raw < 2^64 ->
  parseConstant opts CallHandlers name (InitInt raw) true w = Ok (tt, w') ->
  Z.of_nat (length (GlobalData64 w')) < 2^32 ->
  exists first,
    getRelativeGlobalAddress name w' = Ok (first, w')
    /\ first mod 8 = 0
    /\ Z.of_nat (length (GlobalData64 w')) = first + 8
    /\ valueLE (take 8 (drop (Z.to_nat first) (GlobalData64 w'))) = raw.
Proof.
  intros Hraw Hrun Hsmall. simpl in Hrun.
  rewrite allocateBytes_spec in Hrun. injection Hrun as <-.
  simpl in Hsmall |- *.
  set (padded := pad_to_multiple 8 (GlobalData64 w)) in *.
  destruct (pad_to_multiple_length (GlobalData64 w)) as [Hmod _].
  fold padded in Hmod.
  rewrite length_app in Hsmall.
  assert (wrap32 (Z.of_nat (length padded)) = Z.of_nat (length padded))
    as Hwrap.
  { unfold wrap32. apply Z.mod_small. lia. }
  exists (Z.of_nat (length padded)). split; [|split; [done|split]].
  - unfold getRelativeGlobalAddress. unfold_M. simpl.
    by rewrite lookup_insert_eq, Hwrap.
  - rewrite length_app, bytesLE_length. lia.
  - rewrite Nat2Z.id, drop_app_length.
    rewrite take_ge by (by rewrite bytesLE_length).
    rewrite valueLE_bytesLE. apply Z.mod_small. simpl. lia.
Qed.

End IntegerGlobals.

Lemma integer_global_round_trip_witness :
  match parseConstant defaultOptions noHandlers "n" (InitInt 258) true
          sample_heap with
  | Ok (_, w') =>
      0 <= 258 < 2^64
      /\ Z.of_nat (length (GlobalData64 w')) < 2^32
      /\ exists first,
           getRelativeGlobalAddress "n" w' = Ok (first, w')
           /\ first mod 8 = 0
           /\ Z.of_nat (length (GlobalData64 w')) = first + 8
           /\ valueLE (take 8 (drop (Z.to_nat first) (GlobalData64 w'))) = 258
  | Fatal _ => False
  end.
Proof.
  destruct (parseConstant defaultOptions noHandlers "n" (InitInt 258) true
              sample_heap) as [[[] w']|] eqn:Hrun.
  - assert (0 <= 258 < 2^64) as Hraw by lia.
    assert (Z.of_nat (length (GlobalData64 w')) < 2^32) as Hsmall.
    { vm_compute in Hrun. injection Hrun as <-. simpl. lia. }
    split; [exact Hraw|]. split; [exact Hsmall|].
    exact (integer_global_round_trip defaultOptions noHandlers "n" 258
             sample_heap w' Hraw Hrun Hsmall).
  - by vm_compute in Hrun.
Defined.

(** ** More on loads and stores *)

Section AccessFacts.

Context (opts : Options) (handlers : string -> option Handler) (DL : Ty -> Z).

Lemma getStore_unfold (I P : Value) (T : Ty) (VS : string) (A : Z)
  (w : JSWriter) :
  getStore opts handlers DL I P T VS A ";" w
  = (if (DL T <=? A) || (A =? 0)
     then getStore_aligned opts handlers DL P VS A
     else getStore_unaligned opts handlers P T VS (DL T) A) w.
Proof. reflexivity. Qed.

Lemma unaligned_test (B A : Z) :
  0 < A < B -> (B <=? A) || (A =? 0) = false.
Proof.
  intros H. destruct (Z.leb_spec B A); [lia|].
  by destruct (Z.eqb_spec A 0); [lia|].
Qed.

(** X12.  An unaligned load or store is lowered only for the sizes 2, 4 and
    8 and for the alignments 1, 2 and 4 below the size; for every other
    size or alignment below the size [getLoad] and [getStore] do not
    return. *)
Theorem unaligned_access_shapes (I P : Value) (T : Ty) (VS sep : string)
  (A : Z) (w : JSWriter) :
  0 < A < DL T ->
  (forall text w',
     getLoad opts handlers DL I P T A sep w = Ok (text, w') ->
     supportedUnaligned (DL T) A)
  /\ (forall text w',
        getStore opts handlers DL I P T VS A ";" w = Ok (text, w') ->
        supportedUnaligned (DL T) A).
Proof.
  intros HA. unfold supportedUnaligned. split; intros text w'.
  - rewrite getLoad_unfold, unaligned_test by done.
    unfold getLoad_unaligned. unfold bind at 1.
    destruct (getValueAsStr _ _ P _ _) as [[PS w2]|]; [|done].
    destruct (Z.eqb_spec (DL T) 8) as [HB|]; [|
      destruct (Z.eqb_spec (DL T) 4) as [HB|]; [|
        destruct (Z.eqb_spec (DL T) 2) as [HB|]; [|done]]];
      rewrite HB in HA |- *.
    + unfold bind.
      destruct (Z.eqb_spec A 4); [lia|]. destruct (Z.eqb_spec A 2); [lia|].
      destruct (Z.eqb_spec A 1); [lia|done].
    + destruct (isIntegerTy T || isPointerTy T).
      * destruct (Z.eqb_spec A 2); [lia|].
        destruct (Z.eqb_spec A 1); [lia|done].
      * unfold bind. destruct (assert _ _ w2) as [[[] w3]|]; [|done].
        destruct (Z.eqb_spec A 2); [lia|].
        destruct (Z.eqb_spec A 1); [lia|done].
    + intros _. lia.
  - rewrite getStore_unfold, unaligned_test by done.
    unfold getStore_unaligned. unfold bind at 1.
    destruct (getValueAsStr _ _ P _ _) as [[PS w2]|]; [|done].
    destruct (Z.eqb_spec (DL T) 8) as [HB|]; [|
      destruct (Z.eqb_spec (DL T) 4) as [HB|]; [|
        destruct (Z.eqb_spec (DL T) 2) as [HB|]; [|done]]];
      rewrite HB in HA |- *.
    + destruct (Z.eqb_spec A 4); [lia|]. destruct (Z.eqb_spec A 2); [lia|].
      destruct (Z.eqb_spec A 1); [lia|done].
    + destruct (isIntegerTy T || isPointerTy T).
      * destruct (Z.eqb_spec A 2); [lia|].
        destruct (Z.eqb_spec A 1); [lia|done].
      * unfold bind. destruct (assert _ _ w2) as [[[] w3]|]; [|done].
        destruct (Z.eqb_spec A 2); [lia|].
        destruct (Z.eqb_spec A 1); [lia|done].
    + intros _. lia.
Qed.

Lemma stageCopy_heapCopy (A : Z) (PS : string) (i : Z) :
  stageCopy A PS i = heapCopy A "tempDoublePtr" PS i.
Proof. reflexivity. Qed.

Lemma unstagedCopies_text (B A : Z) (PS : string) :
  (B = 8 \/ B = 4) -> (A = 4 \/ A = 2 \/ A = 1) -> A < B ->
  unstagedCopies B A PS
  = match B, A with
    | 8, 4 => "HEAP32[" +:+ PS +:+ ">>2]=HEAP32[tempDoublePtr>>2];" +:+
              "HEAP32[" +:+ PS +:+ "+4>>2]=HEAP32[tempDoublePtr+4>>2]"
    | 8, 2 => "HEAP16[" +:+ PS +:+ ">>1]=HEAP16[tempDoublePtr>>1];" +:+
              "HEAP16[" +:+ PS +:+ "+2>>1]=HEAP16[tempDoublePtr+2>>1];" +:+
              "HEAP16[" +:+ PS +:+ "+4>>1]=HEAP16[tempDoublePtr+4>>1];" +:+
              "HEAP16[" +:+ PS +:+ "+6>>1]=HEAP16[tempDoublePtr+6>>1]"
    | 8, _ => "HEAP8[" +:+ PS +:+ ">>0]=HEAP8[tempDoublePtr>>0];" +:+
              "HEAP8[" +:+ PS +:+ "+1>>0]=HEAP8[tempDoublePtr+1>>0];" +:+
              "HEAP8[" +:+ PS +:+ "+2>>0]=HEAP8[tempDoublePtr+2>>0];" +:+
              "HEAP8[" +:+ PS +:+ "+3>>0]=HEAP8[tempDoublePtr+3>>0];" +:+
              "HEAP8[" +:+ PS +:+ "+4>>0]=HEAP8[tempDoublePtr+4>>0];" +:+
              "HEAP8[" +:+ PS +:+ "+5>>0]=HEAP8[tempDoublePtr+5>>0];" +:+
              "HEAP8[" +:+ PS +:+ "+6>>0]=HEAP8[tempDoublePtr+6>>0];" +:+
              "HEAP8[" +:+ PS +:+ "+7>>0]=HEAP8[tempDoublePtr+7>>0]"
    | _, 2 => "HEAP16[" +:+ PS +:+ ">>1]=HEAP16[tempDoublePtr>>1];" +:+
              "HEAP16[" +:+ PS +:+ "+2>>1]=HEAP16[tempDoublePtr+2>>1]"
    | _, _ => "HEAP8[" +:+ PS +:+ ">>0]=HEAP8[tempDoublePtr>>0];" +:+
              "HEAP8[" +:+ PS +:+ "+1>>0]=HEAP8[tempDoublePtr+1>>0];" +:+
              "HEAP8[" +:+ PS +:+ "+2>>0]=HEAP8[tempDoublePtr+2>>0];" +:+
              "HEAP8[" +:+ PS +:+ "+3>>0]=HEAP8[tempDoublePtr+3>>0]"
    end.
Proof.
  intros [-> | ->] [-> | [-> | ->]] Hlt; try lia;
    unfold unstagedCopies, heapCopy, pieceOffset;
    vm_compute (seqZ _ _); cbn [map joinWith]; by string_norm.
Qed.

(** X13.  The unaligned store of an 8-byte value or of a float mirrors the
    unaligned load: the value is written to the scratch area at
    [tempDoublePtr] and then copied out in [B/A] pieces of width [A], the
    same pieces the load copies in, with source and destination
    exchanged. *)
Theorem store_staging_mirrors_load (I P : Value) (T : Ty) (VS PS : string)
  (A : Z) (w w2 : JSWriter) :
  A < DL T -> (A = 4 \/ A = 2 \/ A = 1) ->
  DL T = 8 \/ (DL T = 4 /\ isIntegerTy T || isPointerTy T = false
               /\ isFloatingPointTy T = true) ->
  getValueAsStr opts handlers P ASM_SIGNED w = Ok (PS, w2) ->
  getStore opts handlers DL I P T VS A ";" w
  = Ok ((if DL T =? 8 then "HEAPF64[tempDoublePtr>>3]="
         else "HEAPF32[tempDoublePtr>>2]=") +:+ VS +:+ ";"
        +:+ unstagedCopies (DL T) A PS, w2)
  /\ (forall i, stageCopy A PS i = heapCopy A "tempDoublePtr" PS i).
Proof.
  intros Hlt HA HB HPS. split.
  - rewrite getStore_unfold, unaligned_test by lia.
    unfold getStore_unaligned. unfold bind at 1. rewrite HPS.
    destruct HB as [HB|(HB & Hint & Hfp)]; rewrite HB in Hlt |- *.
    + rewrite unstagedCopies_text by (auto; lia).
      destruct HA as [-> | [-> | ->]]; cbn [Z.eqb Pos.eqb]; unfold ret;
        by rewrite ?sapp_assoc.
    + rewrite unstagedCopies_text by (auto; lia).
      rewrite Hint. unfold bind, assert. rewrite Hfp. unfold ret.
      destruct HA as [-> | [-> | ->]]; [lia| |]; cbn [Z.eqb Pos.eqb];
        by rewrite ?sapp_assoc.
  - done.
Qed.


(** X15.  An access through a global variable is emitted with the index into
    the heap view computed ahead of time: the index is the global's address
    divided by the size of the access, and nothing is lost in the division.
    The access fails when the global has no address, as for a global that is
    only declared. *)
Theorem global_access_folded (name : string) (ty : Ty) (hasInit : bool)
  (w : JSWriter) :
  (forall text w',
     getPtrUse opts handlers DL (GlobalVariable name ty hasInit) w
     = Ok (text, w') ->
     w' = w
     /\ exists t Addr view,
          ty = PointerTy t
          /\ getGlobalAddress opts name w = Ok (Addr, w)
          /\ view ∈ ["HEAPF64"; "HEAP32"; "HEAPF32"; "HEAP16"; "HEAP8"]
          /\ text = view +:+ "[" +:+ utostr (Addr / DL t) +:+ "]"
          /\ Addr = DL t * (Addr / DL t))
  /\ (GlobalAddresses w !! name = None ->
      forall t, ty = PointerTy t ->
        getPtrUse opts handlers DL (GlobalVariable name ty hasInit) w
        = Fatal ("cannot find global address " +:+ name)).
Proof.
  split.
  - intros text w'. unfold getPtrUse, elementType. simpl typeOf.
    destruct ty as [| | | |t| |]; try done.
    unfold bind at 1, ret at 1. cbv beta iota. unfold bind at 1.
    destruct (getGlobalAddress opts name w) as [[Addr w1]|] eqn:Haddr;
      [|done].
    assert (w1 = w /\ Addr mod 8 = 0) as [-> Hmod].
    { revert Haddr. unfold getGlobalAddress. unfold_M.
      destruct (GlobalAddresses w !! name) as [[first second]|]; [|done].
      destruct (Z.eqb_spec second 64); [|done]. cbv beta iota.
      destruct (Z.eqb_spec (wrap32 (first + GlobalBase opts) mod 8) 0);
        [|done].
      by intros [= <- <-]. }
    assert (forall k, (k = 1 \/ k = 2 \/ k = 4 \/ k = 8) ->
              Addr = k * (Addr / k)) as Hexact.
    { intros k Hk. apply Z.div_exact; [lia|].
      assert (Addr = 8 * (Addr / 8)) as Hmul
        by (apply Z.div_exact; [lia|done]).
      destruct Hk as [-> | [-> | [-> | ->]]]; [apply Z.mod_1_r| | |done];
        rewrite Hmul.
      + replace (8 * (Addr / 8)) with (4 * (Addr / 8) * 2) by lia.
        apply Z.mod_mul. lia.
      + replace (8 * (Addr / 8)) with (2 * (Addr / 8) * 4) by lia.
        apply Z.mod_mul. lia. }
    assert (forall view k n,
              DL t = k -> (k = 1 \/ k = 2 \/ k = 4 \/ k = 8) ->
              Z.shiftr Addr n = Addr / k ->
              view ∈ ["HEAPF64"; "HEAP32"; "HEAPF32"; "HEAP16"; "HEAP8"] ->
              Ok ((view +:+ "[") +:+ utostr (Z.shiftr Addr n) +:+ "]", w)
              = Ok (text, w') ->
              w' = w
              /\ exists t0 Addr0 view0,
                   PointerTy t = PointerTy t0
                   /\ Ok (Addr, w) = Ok (Addr0, w)
                   /\ view0 ∈ ["HEAPF64"; "HEAP32"; "HEAPF32"; "HEAP16";
                               "HEAP8"]
                   /\ text = view0 +:+ "[" +:+ utostr (Addr0 / DL t0) +:+ "]"
                   /\ Addr0 = DL t0 * (Addr0 / DL t0)) as Hcase.
    { intros view k n Hk Hk' Hshift Hview [= <- <-]. split; [done|].
      exists t, Addr, view. rewrite Hk, Hshift, ?sapp_assoc.
      repeat split; try done. by apply Hexact. }
    destruct (Z.eqb_spec (DL t) 8) as [HB|].
    { unfold ret.
      apply (Hcase "HEAPF64" 8 3); auto; [by rewrite Z.shiftr_div_pow2|].
      repeat constructor. }
    destruct (Z.eqb_spec (DL t) 4) as [HB|].
    { destruct (isIntegerTy t || isPointerTy t).
      - unfold ret.
        apply (Hcase "HEAP32" 4 2); auto; [by rewrite Z.shiftr_div_pow2|].
        repeat constructor.
      - unfold bind, assert. destruct (isFloatingPointTy t); [|done].
        unfold ret.
        apply (Hcase "HEAPF32" 4 2); auto; [by rewrite Z.shiftr_div_pow2|].
        repeat constructor. }
    destruct (Z.eqb_spec (DL t) 2) as [HB|].
    { unfold ret.
      apply (Hcase "HEAP16" 2 1); auto; [by rewrite Z.shiftr_div_pow2|].
      repeat constructor. }
    destruct (Z.eqb_spec (DL t) 1) as [HB|]; [|done].
    unfold ret.
    replace Addr with (Z.shiftr Addr 0) at 1 by apply Z.shiftr_0_r.
    apply (Hcase "HEAP8" 1 0); auto; [by rewrite Z.shiftr_div_pow2|].
    repeat constructor.
  - intros Hnone t ->.
    assert (getGlobalAddress opts name w
            = Fatal ("cannot find global address " +:+ name)) as Haddr.
    { unfold getGlobalAddress. unfold_M.
      destruct (GlobalAddresses w !! name) eqn:E; [|done].
      by rewrite Hnone in E. }
    unfold getPtrUse, elementType. simpl typeOf.
    unfold bind at 1, ret at 1. cbv beta iota. unfold bind at 1.
    by rewrite Haddr.
Qed.

End AccessFacts.

Lemma store_staging_mirrors_load_witness :
  4 < sampleDataLayout DoubleTy
  /\ getStore defaultOptions noHandlers sampleDataLayout sample_double_store
       sample_double_pointer DoubleTy "$v" 4 ";" initialWriter
     = Ok ("HEAPF64[tempDoublePtr>>3]=$v;HEAP32[$q>>2]=HEAP32[tempDoublePtr>>2];HEAP32[$q+4>>2]=HEAP32[tempDoublePtr+4>>2]",
           initialWriter).
Proof.
  split; [reflexivity|].
  destruct (store_staging_mirrors_load defaultOptions noHandlers
              sampleDataLayout sample_double_store sample_double_pointer
              DoubleTy "$v" "$q" 4 initialWriter initialWriter)
    as [Hstore _].
  - reflexivity.
  - by left.
  - by left.
  - reflexivity.
  - rewrite Hstore. vm_compute. reflexivity.
Defined.

Lemma unaligned_access_shapes_witness :
  0 < 1 < sampleDataLayout (IntegerTy 32)
  /\ supportedUnaligned (sampleDataLayout (IntegerTy 32)) 1.
Proof.
  assert (0 < 1 < sampleDataLayout (IntegerTy 32)) as HA
    by (split; reflexivity).
  split; [exact HA|].
  apply (proj1 (unaligned_access_shapes defaultOptions noHandlers
                  sampleDataLayout sample_load sample_pointer (IntegerTy 32)
                  "$v" ";" 1 initialWriter HA)
           "$r = HEAPU8[$p>>0]|(HEAPU8[$p+1>>0]<<8)|(HEAPU8[$p+2>>0]<<16)|(HEAPU8[$p+3>>0]<<24)"
           (with_UsedVars {["$r" := IntegerTy 32]} initialWriter)).
  vm_compute. reflexivity.
Defined.

(** A 16-byte vector load with alignment 8 is refused. *)
Example unaligned_vector_load_refused :
  forall text w',
    getLoad defaultOptions noHandlers sampleDataLayout
      (Instruction "v" (VectorTy true) "entry")
      (Argument "p" (PointerTy (VectorTy true))) (VectorTy true) 8 ";"
      initialWriter
    <> Ok (text, w').
Proof. intros text w'. vm_compute. discriminate. Qed.


(** An access through a global that is only declared stops, although the
    lowering of the global as a value gives its name. *)
Example declared_global_access :
  getPtrUse defaultOptions noHandlers sampleDataLayout
    (GlobalVariable "stdin" (PointerTy (IntegerTy 32)) false) initialWriter
  = Fatal "cannot find global address stdin"
  /\ getValueAsStr defaultOptions noHandlers
       (GlobalVariable "stdin" (PointerTy (IntegerTy 32)) false) ASM_SIGNED
       initialWriter
     = Ok ("_stdin", with_Externals {["_stdin"]} initialWriter).
Proof. split; vm_compute; reflexivity. Qed.

Lemma global_access_folded_witness :
  getPtrUse defaultOptions noHandlers sampleDataLayout
    (GlobalVariable "t" (PointerTy (IntegerTy 32)) true) sample_heap
  = Ok ("HEAP32[4]", sample_heap)
  /\ exists t Addr view,
       PointerTy (IntegerTy 32) = PointerTy t
       /\ getGlobalAddress defaultOptions "t" sample_heap
          = Ok (Addr, sample_heap)
       /\ view ∈ ["HEAPF64"; "HEAP32"; "HEAPF32"; "HEAP16"; "HEAP8"]
       /\ "HEAP32[4]" = view +:+ "[" +:+ utostr (Addr / sampleDataLayout t)
                          +:+ "]"
       /\ Addr = sampleDataLayout t * (Addr / sampleDataLayout t).
Proof.
  assert (getPtrUse defaultOptions noHandlers sampleDataLayout
            (GlobalVariable "t" (PointerTy (IntegerTy 32)) true) sample_heap
          = Ok ("HEAP32[4]", sample_heap)) as Hrun
    by (vm_compute; reflexivity).
  split; [exact Hrun|].
  exact (proj2 (proj1 (global_access_folded defaultOptions noHandlers
                         sampleDataLayout "t" (PointerTy (IntegerTy 32)) true
                         sample_heap) "HEAP32[4]" sample_heap Hrun)).
Defined.

(** ** Branchings *)

Lemma block_stepping_ret {A : Type} (a : A) : block_stepping (ret a).
Proof. intros w a' w' [= <- <-]. apply rtc_refl. Qed.

Lemma block_stepping_fatal {A : Type} (msg : string) :
  block_stepping (@fatal A msg).
Proof. by intros w a w'. Qed.

Lemma block_stepping_bind {A B : Type} (c : M A) (k : A -> M B) :
  block_stepping c -> (forall a, block_stepping (k a)) ->
  block_stepping (bind c k).
Proof.
  intros Hc Hk w b w2. unfold bind.
  destruct (c w) as [[a w1]|] eqn:Hcw; [|done]. intros Hkw.
  etrans; [by eapply Hc|by eapply Hk].
Qed.

Lemma block_stepping_assert (b : bool) (msg : string) :
  block_stepping (assert b msg).
Proof. destruct b; [apply block_stepping_ret|apply block_stepping_fatal]. Qed.

Lemma block_stepping_liftR {A : Type} (r : result A) :
  block_stepping (liftR r).
Proof.
  intros w a w'. unfold liftR. destruct r; [|done].
  intros [= <- <-]. apply rtc_refl.
Qed.

Lemma block_stepping_modify (f : JSWriter -> JSWriter) :
  (forall w, BlockAddresses (f w) = BlockAddresses w) ->
  block_stepping (modify f).
Proof.
  intros Hf w u w'. unfold modify. intros [= <- <-].
  apply rtc_once, bs_other, Hf.
Qed.

Lemma block_stepping_getBlockAddress (F : Function) (BB : string) :
  block_stepping (getBlockAddress F BB).
Proof. intros w a w' Hget. by eapply rtc_once, bs_address. Qed.

Section BranchingFacts.

Context (opts : Options) (handlers : string -> option Handler).

Lemma getFunctionSignatureLetter_blocks (T : Ty) (w : JSWriter) :
  BlockAddresses (getFunctionSignatureLetter opts T w).2 = BlockAddresses w.
Proof. by destruct T. Qed.

Lemma getFunctionSignature_params_blocks (params : list Ty) :
  forall w,
    BlockAddresses (getFunctionSignature_params opts params w).2
    = BlockAddresses w.
Proof.
  induction params as [|T rest IH]; intros w; simpl; [done|].
  pose proof (getFunctionSignatureLetter_blocks T w) as HT.
  destruct (getFunctionSignatureLetter opts T w) as [c w1].
  pose proof (IH w1) as Hrest.
  destruct (getFunctionSignature_params opts rest w1) as [s w2].
  simpl in *. congruence.
Qed.

Lemma getFunctionSignature_blocks (F : Function) (w : JSWriter) :
  BlockAddresses (getFunctionSignature opts F w).2 = BlockAddresses w.
Proof.
  unfold getFunctionSignature.
  pose proof (getFunctionSignatureLetter_blocks (fn_ret F) w) as HT.
  destruct (getFunctionSignatureLetter opts (fn_ret F) w) as [c w1].
  pose proof (getFunctionSignature_params_blocks (fn_params F) w1) as Hrest.
  destruct (getFunctionSignature_params opts (fn_params F) w1) as [s w2].
  simpl in *. congruence.
Qed.

Lemma getFunctionIndex_blocks (F : Function) (w : JSWriter) :
  BlockAddresses (getFunctionIndex opts handlers F w).2 = BlockAddresses w.
Proof.
  unfold getFunctionIndex.
  destruct (IndexedFunctions w !! _); [done|].
  pose proof (getFunctionSignature_blocks F w) as H1.
  destruct (getFunctionSignature opts F w) as [sig0 w1].
  unfold ensureFunctionTable.
  pose proof (getFunctionSignature_blocks F w1) as H2.
  destruct (getFunctionSignature opts F w1) as [sig w2].
  cbv beta iota zeta. cbn [snd]. simpl in H1, H2.
  rewrite <- H1, <- H2.
  destruct (handlers _) as [h|];
    [unfold runHandler; destruct (h _)|];
    by destruct (NoAliasingFunctionPointers opts).
Qed.

Lemma block_stepping_getFunctionIndex (F : Function) :
  block_stepping (fun w => Ok (getFunctionIndex opts handlers F w)).
Proof.
  intros w Index w' Heq. injection Heq as Heq.
  apply rtc_once, bs_other. rewrite <- (getFunctionIndex_blocks F w).
  by rewrite Heq.
Qed.

Lemma block_stepping_getGlobalAddress (s : string) :
  block_stepping (getGlobalAddress opts s).
Proof.
  intros w a w' Hget.
  apply getGlobalAddress_unchanged in Hget as ->. apply rtc_refl.
Qed.

Lemma block_stepping_checkLegal (T : Ty) : block_stepping (checkLegal T).
Proof.
  unfold checkLegal. destruct T; try apply block_stepping_ret.
  destruct (32 <? bits); [apply block_stepping_fatal|apply block_stepping_ret].
Qed.

Lemma block_stepping_getConstantUndef (ty : Ty) (sign : AsmCast) :
  block_stepping (getConstantUndef opts ty sign).
Proof.
  unfold getConstantUndef.
  destruct ty; try (destruct (_ && _); apply block_stepping_ret).
  apply block_stepping_bind; [by apply block_stepping_modify|].
  intros _. apply block_stepping_ret.
Qed.

(** The lowering of a value moves the block numbering only by asking for
    block addresses. *)
Lemma block_stepping_getValueAsStr (V : Value) :
  forall sign, block_stepping (getValueAsStr opts handlers V sign).
Proof.
  induction V as [name ty|name ty parent|name ty parent op IH
                 |name ty parent op IH|bits val|ty|ty|F|F BB
                 |name ty hasInit|name ty aliasee IH|opcode ty op0 IH];
    intros sign; simpl.
  - apply block_stepping_ret.
  - apply block_stepping_ret.
  - apply block_stepping_ret.
  - destruct (isPointerTy ty); [apply IH|apply block_stepping_ret].
  - apply block_stepping_ret.
  - apply block_stepping_ret.
  - apply block_stepping_getConstantUndef.
  - apply block_stepping_bind; [apply block_stepping_getFunctionIndex|].
    intros Index. apply block_stepping_ret.
  - apply block_stepping_bind; [apply block_stepping_getBlockAddress|].
    intros Index. apply block_stepping_ret.
  - destruct hasInit; simpl.
    + apply block_stepping_bind; [apply block_stepping_getGlobalAddress|].
      intros Addr. apply block_stepping_ret.
    + apply block_stepping_bind; [by apply block_stepping_modify|].
      intros _. apply block_stepping_ret.
  - apply IH.
  - destruct opcode as [| | |bits addend].
    + destruct (isPointerTy ty); [apply IH|].
      apply block_stepping_bind; [apply block_stepping_checkLegal|].
      intros _.
      apply block_stepping_bind; [apply IH|]. intros Str.
      destruct (_ && _).
      { apply block_stepping_bind; [apply block_stepping_assert|]. intros _.
        apply block_stepping_bind; [apply block_stepping_liftR|]. intros c.
        apply block_stepping_ret. }
      destruct (_ && _); [|apply block_stepping_ret].
      apply block_stepping_bind; [apply block_stepping_assert|]. intros _.
      apply block_stepping_ret.
    + apply block_stepping_bind; [apply block_stepping_checkLegal|].
      intros _.
      apply block_stepping_bind; [apply IH|]. intros Str.
      apply block_stepping_ret.
    + apply block_stepping_bind; [apply block_stepping_checkLegal|].
      intros _.
      apply block_stepping_bind; [apply IH|]. intros Str.
      apply block_stepping_ret.
    + apply block_stepping_bind; [apply block_stepping_checkLegal|].
      intros _.
      apply block_stepping_bind; [apply IH|]. intros Str.
      apply block_stepping_bind; [apply block_stepping_liftR|]. intros c.
      apply block_stepping_ret.
Qed.

Lemma block_stepping_getAdHocAssign (s : string) (t : Ty) :
  block_stepping (getAdHocAssign s t).
Proof.
  unfold getAdHocAssign.
  apply block_stepping_bind; [by apply block_stepping_modify|].
  intros _. apply block_stepping_ret.
Qed.

Lemma block_stepping_collect (From : string) (To : BasicBlock)
  (phis : list (string * Ty * list (string * Value))) :
  forall assigns deps,
    block_stepping (getPhiCode_collect opts handlers From To phis assigns deps).
Proof.
  induction phis as [|[[pname pty] incoming] rest IH]; intros assigns deps;
    simpl.
  - apply block_stepping_ret.
  - destruct (incomingFrom From incoming) as [V0|]; [|apply IH].
    apply block_stepping_bind; [apply block_stepping_getAdHocAssign|].
    intros a.
    apply block_stepping_bind; [apply block_stepping_getValueAsStr|].
    intros vname. apply IH.
Qed.

Lemma block_stepping_pass (assigns : list (string * (string * Value))) :
  forall deps emitted pre post,
    block_stepping (getPhiCode_pass opts handlers assigns deps emitted pre post).
Proof.
  induction assigns as [|[curr [a V]] rest IH]; intros deps emitted pre post;
    simpl.
  - apply block_stepping_ret.
  - apply block_stepping_bind; [apply block_stepping_getValueAsStr|].
    intros CV. destruct (deps !! curr) as [depString|]; [|apply IH].
    destruct (negb emitted && bool_decide (rest = [])).
    + apply block_stepping_bind; [apply block_stepping_getAdHocAssign|].
      intros t. apply IH.
    + apply block_stepping_bind; [apply IH|].
      intros [[[[rest' deps'] emitted'] pre'] post'].
      apply block_stepping_ret.
Qed.

Lemma block_stepping_loop (fuel : nat) :
  forall assigns deps pre post,
    block_stepping (getPhiCode_loop opts handlers fuel assigns deps pre post).
Proof.
  induction fuel as [|fuel IH]; intros assigns deps pre post;
    destruct assigns as [|entry rest]; cbn [getPhiCode_loop];
    try apply block_stepping_ret; try apply block_stepping_fatal.
  apply block_stepping_bind; [apply (block_stepping_pass (entry :: rest))|].
  intros [[[[assigns' deps'] emitted'] pre'] post']. apply IH.
Qed.

Lemma block_stepping_getPhiCode (From : string) (To : BasicBlock) :
  block_stepping (getPhiCode opts handlers From To).
Proof.
  unfold getPhiCode.
  apply block_stepping_bind; [apply block_stepping_collect|].
  intros [assigns deps]. apply block_stepping_loop.
Qed.

End BranchingFacts.

(** A block keeps its number. *)
Lemma block_step_keeps (w w' : JSWriter) (F BB : string) (a : Z) :
  block_step w w' -> blockNumber w F BB = Some a ->
  blockNumber w' F BB = Some a.
Proof.
  intros Hstep. unfold blockNumber.
  destruct Hstep as [F' BB' Index w w' Hget|w w' Heq]; [|by rewrite Heq].
  destruct (getBlockAddress_cases F' BB' w) as [(I & _ & Hc)|[Hnone Hc]];
    rewrite Hc in Hget; injection Hget as <- <-; [done|].
  simpl. destruct (decide (fn_name F' = F)) as [<-|Hne].
  - rewrite lookup_insert_eq. simpl.
    destruct (BlockAddresses w !! fn_name F') as [Blocks|]; [|done].
    simpl in *. intros HBB.
    destruct (decide (BB' = BB)) as [<-|Hne]; [congruence|].
    by rewrite lookup_insert_ne.
  - by rewrite lookup_insert_ne.
Qed.

Lemma rtc_block_step_keeps (w w' : JSWriter) (F BB : string) (a : Z) :
  rtc block_step w w' -> blockNumber w F BB = Some a ->
  blockNumber w' F BB = Some a.
Proof.
  induction 1 as [|w w1 w' Hstep _ IH]; [done|].
  intros H. apply IH. by eapply block_step_keeps.
Qed.

Lemma getBlockAddress_number (F : Function) (BB : string) (a : Z)
  (w w' : JSWriter) :
  getBlockAddress F BB w = Ok (a, w') ->
  blockNumber w' (fn_name F) BB = Some a.
Proof.
  intros Hget. unfold blockNumber.
  destruct (getBlockAddress_cases F BB w) as [(I & HI & Hc)|[Hnone Hc]];
    rewrite Hc in Hget; injection Hget as <- <-.
  - destruct (BlockAddresses w !! fn_name F) as [Blocks|]; [done|].
    simpl in HI. by rewrite lookup_empty in HI.
  - simpl. rewrite lookup_insert_eq. simpl. by rewrite lookup_insert_eq.
Qed.

Lemma blocks_ok_reachable (w : JSWriter) :
  blocks_reachable w -> blocks_bounded w -> blocks_ok w.
Proof.
  revert w. unfold blocks_reachable.
  apply (rtc_ind_r (fun w => blocks_bounded w -> blocks_ok w));
    [|intros y z Hxy Hyz IH]; intros Hb.
  - intros F' B. simpl. by rewrite lookup_empty.
  - eapply block_step_ok; [done|done|].
    apply IH. by eapply block_step_bounded.
Qed.

Lemma case_label_inj (a b : Z) :
  0 <= a -> 0 <= b ->
  "case " +:+ utostr a +:+ ": " = "case " +:+ utostr b +:+ ": " -> a = b.
Proof.
  intros Ha Hb Heq. injection Heq as Heq.
  assert (String.length (utostr a) = String.length (utostr b)) as Hlen.
  { apply (f_equal String.length) in Heq. rewrite !slength_app in Heq. lia. }
  destruct (sapp_inj_length _ _ _ _ Hlen Heq) as [Hu _].
  unfold utostr in Hu. apply (inj pretty) in Hu. lia.
Qed.

Section IndirectBranches.

Context (opts : Options) (handlers : string -> option Handler)
  (blockOf : string -> BasicBlock).

(** The branches added after the default has been set. *)
Lemma indirectBr_loop_spec (F : Function) (From : string)
  (Destinations : list string) :
  forall Seen branches w result w',
    indirectBr_loop opts handlers blockOf F From Destinations Seen true
      branches w = Ok (result, w') ->
    rtc block_step w w'
    /\ exists new,
         result = branches ++ new
         /\ NoDup (map branchTarget new)
         /\ (forall S, S ∈ map branchTarget new
                       <-> S ∈ Destinations /\ S ∉ Seen)
         /\ Forall (fun b =>
                      exists a,
                        branchCondition b
                        = Some ("case " +:+ utostr a +:+ ": ")
                        /\ blockNumber w' (fn_name F) (branchTarget b)
                           = Some a) new.
Proof.
  induction Destinations as [|S rest IH]; intros Seen branches w result w';
    simpl.
  - intros [= <- <-]. split; [apply rtc_refl|].
    exists []. rewrite app_nil_r. split; [done|]. split; [apply NoDup_nil_2|].
    split; [|done]. intros S. simpl. split.
    + by intros H%elem_of_nil.
    + by intros [H%elem_of_nil _].
  - destruct (decide (S ∈ Seen)) as [Hseen|Hnew].
    + rewrite bool_decide_true by done. intros Hrun.
      destruct (IH _ _ _ _ _ Hrun) as (Hsteps & new & -> & Hnd & Hin & Hall).
      split; [done|]. exists new. split; [done|]. split; [done|].
      split; [|done]. intros S'. rewrite Hin, elem_of_cons.
      split; [intros [? ?]; auto|].
      intros [[->|?] ?]; [done|auto].
    + rewrite bool_decide_false by done. unfold bind at 1.
      destruct (getPhiCode opts handlers From (blockOf S) w)
        as [[P w1]|] eqn:HP; [|done].
      cbn [negb]. unfold bind at 1. unfold bind at 1.
      destruct (getBlockAddress F S w1) as [[a w2]|] eqn:Ha; [|done].
      unfold ret at 1. cbv beta iota. intros Hrun.
      destruct (IH _ _ _ _ _ Hrun) as (Hsteps & new & -> & Hnd & Hin & Hall).
      split.
      { etrans; [by eapply block_stepping_getPhiCode|].
        etrans; [by eapply block_stepping_getBlockAddress|done]. }
      exists ((S, optText ("case " +:+ utostr a +:+ ": "), optText P) :: new).
      split; [by rewrite <- app_assoc|]. split; [|split].
      * simpl. apply NoDup_cons. split; [|done].
        intros HS. apply Hin in HS as [_ HS].
        apply HS, elem_of_union. left. by apply elem_of_singleton.
      * intros S'. simpl. rewrite elem_of_cons, Hin, elem_of_cons.
        split.
        -- intros [->|[Hr Hn]]; [by split; [left|]|].
           split; [by right|]. intros HS. apply Hn, elem_of_union. by right.
        -- intros [[->|Hr] Hns]; [by left|].
           destruct (decide (S' = S)) as [->|Hne]; [by left|].
           right. split; [done|].
           rewrite elem_of_union, elem_of_singleton. tauto.
      * apply Forall_cons. split; [|done].
        exists a. split; [done|].
        eapply rtc_block_step_keeps; [exact Hsteps|].
        by eapply getBlockAddress_number.
Qed.

Lemma indirect_branchings (F : Function) (From : string)
  (Destinations : list string) (w w' : JSWriter)
  (branches : list Branching) :
  indirectBrBranchings opts handlers blockOf F From Destinations w
  = Ok (branches, w') ->
  rtc block_step w w'
  /\ NoDup (map branchTarget branches)
  /\ (forall S, S ∈ map branchTarget branches <-> S ∈ Destinations)
  /\ head (map branchTarget branches) = head Destinations
  /\ (forall i b, branches !! i = Some b ->
        if decide (i = 0%nat) then branchCondition b = None
        else exists a,
               branchCondition b = Some ("case " +:+ utostr a +:+ ": ")
               /\ blockNumber w' (fn_name F) (branchTarget b) = Some a).
Proof.
  unfold indirectBrBranchings.
  destruct Destinations as [|S rest]; simpl.
  - intros [= <- <-]. split; [apply rtc_refl|]. split; [apply NoDup_nil_2|].
    split; [done|]. split; [done|]. by intros i b.
  - rewrite bool_decide_false by apply not_elem_of_empty. unfold bind at 1.
    destruct (getPhiCode opts handlers From (blockOf S) w)
      as [[P w1]|] eqn:HP; [|done].
    cbn [negb]. unfold bind at 1, ret at 1. cbv beta iota. intros Hrun.
    destruct (indirectBr_loop_spec F From rest _ _ _ _ _ Hrun)
      as (Hsteps & new & -> & Hnd & Hin & Hall).
    split; [etrans; [by eapply block_stepping_getPhiCode|done]|].
    split; [|split; [|split]].
    + simpl. apply NoDup_cons. split; [|done].
      intros HS. apply Hin in HS as [_ HS].
      apply HS, elem_of_union. left. by apply elem_of_singleton.
    + intros S'. simpl. rewrite !elem_of_cons, Hin. split.
      * intros [->|[? ?]]; auto.
      * intros [->|?]; [auto|].
        destruct (decide (S' = S)) as [->|]; [auto|]. right.
        split; [done|].
        rewrite elem_of_union, elem_of_singleton, elem_of_empty. tauto.
    + done.
    + intros [|i] b; simpl.
      * by intros [= <-].
      * intros Hb. by apply (proj1 (Forall_lookup _ _) Hall i b).
Qed.

(** X16.  The branches of an [indirectbr] go to each of its destinations
    once, however often a destination is listed.  The branch to the first
    destination is the default; every other branch is taken on the label
    [case n: ] where [n] is the number of the destination block, and no two
    branches have the same label. *)
Theorem indirect_branch_labels (F : Function) (From : string)
  (Destinations : list string) (w w' : JSWriter)
  (branches : list Branching) :
  blocks_reachable w -> blocks_bounded w' ->
  indirectBrBranchings opts handlers blockOf F From Destinations w
  = Ok (branches, w') ->
  NoDup (map branchTarget branches)
  /\ (forall S, S ∈ map branchTarget branches <-> S ∈ Destinations)
  /\ head (map branchTarget branches) = head Destinations
  /\ (forall i b, branches !! i = Some b ->
        if decide (i = 0%nat) then branchCondition b = None
        else exists a,
               branchCondition b = Some ("case " +:+ utostr a +:+ ": ")
               /\ blockNumber w' (fn_name F) (branchTarget b) = Some a)
  /\ (forall i j b1 b2 label,
        branches !! i = Some b1 -> branches !! j = Some b2 ->
        branchCondition b1 = Some label -> branchCondition b2 = Some label ->
        i = j).
Proof.
  intros Hreach Hb Hrun.
  destruct (indirect_branchings F From Destinations w w' branches Hrun)
    as (Hsteps & Hnd & Hin & Hhead & Hlabels).
  split; [done|]. split; [done|]. split; [done|]. split; [done|].
  assert (blocks_ok w') as Hok.
  { apply blocks_ok_reachable; [|done].
    unfold blocks_reachable in *. by etrans. }
  intros i j b1 b2 label Hi Hj Hc1 Hc2.
  pose proof (Hlabels i b1 Hi) as H1. pose proof (Hlabels j b2 Hj) as H2.
  destruct (decide (i = 0%nat)) as [->|Hi0]; [congruence|].
  destruct (decide (j = 0%nat)) as [->|Hj0]; [congruence|].
  destruct H1 as (a1 & Hl1 & Hn1). destruct H2 as (a2 & Hl2 & Hn2).
  unfold blockNumber in Hn1, Hn2.
  destruct (BlockAddresses w' !! fn_name F) as [Blocks|] eqn:HF; [|done].
  simpl in Hn1, Hn2. destruct (Hok _ _ HF) as (Hrange & Hinj & _).
  assert (a1 = a2) as <-.
  { apply case_label_inj; [by eapply Hrange|by eapply Hrange|congruence]. }
  pose proof (Hinj _ _ _ Hn1 Hn2) as Htarget.
  eapply NoDup_lookup; [exact Hnd| |].
  - rewrite list_lookup_fmap, Hi. reflexivity.
  - rewrite list_lookup_fmap, Hj. simpl. by rewrite Htarget.
Qed.

End IndirectBranches.

Lemma indirect_branch_labels_witness :
  indirectBrBranchings defaultOptions noHandlers plainBlocks sample_f "entry"
    ["then"; "else"; "then"; "exit"] initialWriter
  = Ok ([("then", None, None); ("else", Some "case 0: ", None);
         ("exit", Some "case 1: ", None)],
        with_BlockAddresses {[ "f" := {[ "else" := 0; "exit" := 1 ]} ]}
          initialWriter)
  /\ NoDup (map branchTarget
              [("then", None, None); ("else", Some "case 0: ", None);
               ("exit", Some "case 1: ", @None string)]).
Proof.
  assert (indirectBrBranchings defaultOptions noHandlers plainBlocks sample_f
            "entry" ["then"; "else"; "then"; "exit"] initialWriter
          = Ok ([("then", None, None); ("else", Some "case 0: ", None);
                 ("exit", Some "case 1: ", None)],
                with_BlockAddresses
                  {[ "f" := {[ "else" := 0; "exit" := 1 ]} ]} initialWriter))
    as Hrun by (vm_compute; reflexivity).
  split; [exact Hrun|].
  refine (proj1 (indirect_branch_labels defaultOptions noHandlers plainBlocks
                   sample_f "entry" ["then"; "else"; "then"; "exit"]
                   initialWriter _ _ _ _ Hrun)).
  - apply rtc_refl.
  - apply blocks_bounded_dec. apply map_Forall_insert_2; [|done].
    vm_compute. reflexivity.
Defined.

(** A conditional branch whose two successors are the same block adds two
    branches to it. *)
Example conditional_branch_same_successor :
  brBranchings defaultOptions noHandlers plainBlocks "entry"
    (Some (Argument "c" (IntegerTy 1))) ["next"; "next"] initialWriter
  = Ok ([("next", Some "$c", None); ("next", None, None)], initialWriter).
Proof. vm_compute. reflexivity. Qed.

(** ** Phi code on an edge *)



Lemma sapp_nonempty_l (s t : string) : s <> "" -> s +:+ t <> "".
Proof. destruct s; [done|discriminate]. Qed.


Section PhiPresence.

Context (opts : Options) (handlers : string -> option Handler).



End PhiPresence.


(** ** Conditions of a switch *)

Lemma joinWith_cons (sepr x : string) (l : list string) :
  l <> [] -> joinWith sepr (x :: l) = x +:+ sepr +:+ joinWith sepr l.
Proof. by destruct l. Qed.

Lemma joinWith_head (sepr : string) (c : ascii) (x : string)
  (l : list string) :
  exists rest, joinWith sepr (String c x :: l) = String c rest.
Proof. destruct l; simpl; eauto. Qed.

Lemma joinWith_paren (L : list string) :
  L <> [] -> Forall (fun x => exists x', x = String "(" x') L ->
  exists r, joinWith " | " L = String "(" r.
Proof.
  destruct L as [|x L]; [done|]. intros _ H.
  apply Forall_cons in H as [(x' & ->) _]. apply joinWith_head.
Qed.

Section SwitchConditions.

Context (opts : Options) (handlers : string -> option Handler).

Lemma casesTo_snoc (BB : string) (done : list (Z * string)) (val : Z)
  (BB0 : string) :
  casesTo BB (done ++ [(val, BB0)])
  = casesTo BB done ++ (if decide (BB0 = BB) then [(val, BB0)] else []).
Proof.
  unfold casesTo. by rewrite filter_app.
Qed.

Lemma switchConditions_loop_spec (UseSwitch : bool) (Condition : Value)
  (bits : Z) (c : string) (w : JSWriter)
  (Hpure : UseSwitch = false ->
           getValueAsCastParenStr opts handlers Condition ASM_SIGNED w
           = Ok (c, w)) :
  let sepr := if UseSwitch then "" else " | " in
  forall Cases done BlocksToConditions,
    (forall BB, BlocksToConditions !! BB
                = joinedConditions UseSwitch c bits sepr BB done) ->
    exists result,
      switchConditions_loop opts handlers UseSwitch Condition bits Cases
        BlocksToConditions w = Ok (result, w)
      /\ forall BB, result !! BB
                    = joinedConditions UseSwitch c bits sepr BB
                        (done ++ Cases).
Proof.
  intros sepr. induction Cases as [|[val BB0] rest IH];
    intros done B2C Hacc.
  - exists B2C. split; [done|]. by rewrite app_nil_r.
  - cbn [switchConditions_loop]. unfold bind at 1.
    assert ((if UseSwitch
             then ret ("case " +:+ APInt_toString bits val true +:+ ": ")
             else bind (getValueAsCastParenStr opts handlers Condition
                          ASM_SIGNED)
                    (fun c0 => ret ("(" +:+ c0 +:+ " == "
                                      +:+ APInt_toString bits val true
                                      +:+ ")"))) w
            = Ok (caseCondition UseSwitch c bits val, w)) as ->.
    { unfold caseCondition. destruct UseSwitch; [done|].
      unfold bind. by rewrite Hpure. }
    set (Cond := caseCondition UseSwitch c bits val).
    set (old := default "" (B2C !! BB0)).
    destruct (IH (done ++ [(val, BB0)])
                (<[BB0 := Cond +:+
                     (if negb UseSwitch && negb (String.eqb old "")
                      then " | " else "") +:+ old]> B2C))
      as (result & Hrun & Hresult).
    + intros BB. unfold joinedConditions. rewrite casesTo_snoc.
      destruct (decide (BB0 = BB)) as [<-|Hne].
      * rewrite lookup_insert_eq.
        pose proof (Hacc BB0) as Hold. unfold joinedConditions in Hold.
        destruct (casesTo BB0 done) as [|e l] eqn:Hto.
        -- unfold old. rewrite Hold. simpl.
           rewrite andb_false_r. by rewrite !sapp_nil_r.
        -- assert (e :: l <> []) as Hnil by done.
           revert Hold Hnil. generalize (e :: l). clear Hto e l.
           intros l Hold Hnil.
           assert (B2C !! BB0
                   = Some (joinWith sepr
                             (rev (map (fun cs =>
                                          caseCondition UseSwitch c bits cs.1)
                                     l)))) as Hold'.
           { rewrite Hold. by destruct l. }
           unfold old. rewrite Hold'. simpl default.
           assert (exists e' l', l ++ [(val, BB0)] = e' :: l') as (e' & l' & Heq).
           { destruct l; simpl; eauto. }
           rewrite Heq, <- Heq. clear Heq e' l'.
           rewrite map_app, rev_app_distr. simpl rev. simpl app.
           fold Cond.
           set (L := rev (map (fun cs => caseCondition UseSwitch c bits cs.1)
                            l)) in *.
           assert (L <> []) as HL.
           { unfold L. destruct l as [|e l]; [done|]. simpl.
             intros Hl. by apply app_eq_nil in Hl as [_ Hl]. }
           rewrite joinWith_cons by done. f_equal. f_equal. f_equal.
           unfold sepr. destruct UseSwitch; [done|]. simpl.
           destruct (joinWith_paren L HL) as (r & ->); [|done].
           apply Forall_forall. intros x Hx. unfold L in Hx.
           apply list_elem_of_In in Hx. apply (proj2 (in_rev _ _)) in Hx.
           apply list_elem_of_In, list_elem_of_fmap in Hx as (cs & -> & _).
           unfold caseCondition. eauto.
      * rewrite lookup_insert_ne by done. rewrite app_nil_r. apply Hacc.
    + exists result. split; [exact Hrun|].
      intros BB. rewrite Hresult. by rewrite <- app_assoc.
Qed.

(** X18.  In the map from the successors of a switch to their conditions,
    a block has an entry exactly when some case leads to it, and the entry
    holds the conditions of all those cases, the last case first: case
    labels one after the other when the relooper is given the condition,
    and comparisons joined by [ | ] otherwise.  This holds when the lowering
    of the condition leaves the writer as it is, as it does for an argument
    or an instruction; the writer is then left as it was. *)
Theorem switch_case_conditions (Condition : Value) (DefaultDest : string)
  (Cases : list (Z * string)) (c : string) (w : JSWriter) :
  let UseSwitch :=
    bool_decide (considerConditionVar (SwitchInst Condition DefaultDest Cases)
                 <> None) in
  let bits := integerBitWidth (typeOf Condition) in
  getValueAsCastParenStr opts handlers Condition ASM_SIGNED w = Ok (c, w) ->
  exists BlocksToConditions,
    switchConditions opts handlers Condition DefaultDest Cases w
    = Ok (BlocksToConditions, w)
    /\ forall BB,
         BlocksToConditions !! BB
         = joinedConditions UseSwitch c bits
             (if UseSwitch then "" else " | ") BB Cases.
Proof.
  intros UseSwitch bits Hpure. unfold switchConditions.
  assert ((match considerConditionVar
                   (SwitchInst Condition DefaultDest Cases) with
           | Some _ => true
           | None => false
           end) = UseSwitch) as ->.
  { unfold UseSwitch.
    destruct (considerConditionVar _); [by rewrite bool_decide_true|].
    by rewrite bool_decide_false by (intros H; by apply H). }
  destruct (switchConditions_loop_spec UseSwitch Condition bits c w
              (fun _ => Hpure) Cases [] ∅) as (result & Hrun & Hresult).
  { intros BB. by rewrite lookup_empty. }
  exists result. split; [exact Hrun|]. intros BB. by rewrite Hresult.
Qed.

End SwitchConditions.

Lemma switch_case_conditions_witness :
  exists BlocksToConditions,
    switchConditions defaultOptions noHandlers (Argument "x" (IntegerTy 32))
      "d" sample_switch_cases initialWriter
    = Ok (BlocksToConditions, initialWriter)
    /\ BlocksToConditions !! "a" = Some "(($x|0) == 3) | (($x|0) == 1)"
    /\ BlocksToConditions !! "b" = Some "(($x|0) == 2)"
    /\ BlocksToConditions !! "d" = None.
Proof.
  destruct (switch_case_conditions defaultOptions noHandlers
              (Argument "x" (IntegerTy 32)) "d" sample_switch_cases
              "($x|0)" initialWriter eq_refl)
    as (BlocksToConditions & Hrun & Hresult).
  exists BlocksToConditions. split; [exact Hrun|].
  rewrite !Hresult. repeat split; vm_compute; reflexivity.
Defined.

(** ** Declarations of the local variables *)

Lemma joinWith_snoc (sepr x : string) (l : list string) :
  l <> [] -> joinWith sepr (l ++ [x]) = joinWith sepr l +:+ sepr +:+ x.
Proof.
  induction l as [|y l IH]; [done|]. intros _.
  destruct l as [|z l]; [done|].
  change ((y :: z :: l) ++ [x]) with (y :: ((z :: l) ++ [x])).
  rewrite joinWith_cons by (by destruct l).
  rewrite IH by done. rewrite (joinWith_cons sepr y (z :: l)) by done.
  by rewrite !sapp_assoc.
Qed.

Lemma joinWith_snoc_app (sepr x s : string) (l : list string) :
  joinWith sepr (l ++ [x +:+ s]) = joinWith sepr (l ++ [x]) +:+ s.
Proof.
  destruct l as [|y l]; [done|].
  rewrite !joinWith_snoc by done. by rewrite !sapp_assoc.
Qed.

Lemma smap_insert_fold_perm {A : Type} (l : list (string * A)) :
  NoDup l.*1 ->
  foldr (fun e vars => smap_insert e.1 e.2 vars) [] l ≡ₚ l.
Proof.
  induction l as [|[k v] l IH]; [done|]. simpl.
  intros [Hk Hnd]%NoDup_cons. specialize (IH Hnd).
  rewrite smap_insert_perm; [by rewrite IH|].
  by rewrite IH.
Qed.

Lemma usedVarsInOrder_perm (w : JSWriter) :
  usedVarsInOrder w ≡ₚ map_to_list (UsedVars w).
Proof. apply smap_insert_fold_perm, NoDup_fst_map_to_list. Qed.

Section Declarations.

Context (opts : Options).

Lemma declarationLines_new_line (full : list (list (string * Ty)))
  (last : list (string * Ty)) (e : string * Ty) :
  declarationLines opts ((full ++ [last]) ++ [[e]])
  = declarationLines opts (full ++ [last]) +:+ (";" +:+ str1 (ascii_of_N 10))
      +:+ " var " +:+ declaration opts e.
Proof.
  unfold declarationLines. rewrite (map_app _ (full ++ [last])).
  change (map (declarationLine opts) [[e]]) with [declarationLine opts [e]].
  rewrite joinWith_snoc.
  - reflexivity.
  - rewrite map_app. intros H. by apply app_eq_nil in H as [_ H].
Qed.

Lemma declarationLine_snoc (last : list (string * Ty)) (e : string * Ty) :
  last <> [] ->
  declarationLine opts (last ++ [e])
  = declarationLine opts last +:+ ", " +:+ declaration opts e.
Proof.
  intros Hne. unfold declarationLine. rewrite map_app. simpl map.
  rewrite joinWith_snoc by (by destruct last).
  by rewrite !sapp_assoc.
Qed.

Lemma declarationLines_same_line (full : list (list (string * Ty)))
  (last : list (string * Ty)) (e : string * Ty) :
  last <> [] ->
  declarationLines opts (full ++ [last ++ [e]])
  = declarationLines opts (full ++ [last]) +:+ ", " +:+ declaration opts e.
Proof.
  intros Hne. unfold declarationLines. rewrite !map_app. simpl map.
  rewrite declarationLine_snoc by done. apply joinWith_snoc_app.
Qed.

Lemma emitVars_loop_spec (vars : list (string * Ty)) :
  forall (Count : Z) (Out : string) (full : list (list (string * Ty)))
         (last : list (string * Ty)),
    Forall (fun line => length line = 20%nat) full ->
    Count = Z.of_nat (length last) -> Count <= 20 ->
    (last = [] -> full = [] /\ Out = "") ->
    (last <> [] -> Out = declarationLines opts (full ++ [last])) ->
    (forall text,
       emitVars_loop opts vars Count Out = Ok text ->
       initializable opts vars
       /\ exists full' last',
            concat (full' ++ [last']) = concat (full ++ [last]) ++ vars
            /\ Forall (fun line => length line = 20%nat) full'
            /\ (length last' <= 20)%nat
            /\ (last' = [] -> vars = [] /\ last = [])
            /\ (last' <> [] -> text = declarationLines opts (full' ++ [last'])))
    /\ (initializable opts vars ->
        exists text, emitVars_loop opts vars Count Out = Ok text).
Proof.
  induction vars as [|[name T] rest IH];
    intros Count Out full last Hfull HCount Hle Hstart Hout.
  - split.
    + intros text [= <-]. split; [constructor|].
      exists full, last. rewrite app_nil_r.
      split; [done|]. split; [done|]. split; [lia|]. split; [done|done].
    + intros _. by exists Out.
  - cbn [emitVars_loop].
    destruct (varInitializer opts T) as [init|msg] eqn:Hinit.
    2:{ split; [done|]. intros Hall. apply Forall_cons in Hall as [[i Hi] _].
        simpl in Hi. congruence. }
    assert (declaration opts (name, T) = name +:+ " = " +:+ init) as Hdecl.
    { unfold declaration. simpl. by rewrite Hinit. }
    assert (forall Count' Out' full' last',
              Forall (fun line => length line = 20%nat) full' ->
              Count' = Z.of_nat (length last') -> Count' <= 20 ->
              last' <> [] ->
              Out' = declarationLines opts (full' ++ [last']) ->
              concat (full' ++ [last'])
              = concat (full ++ [last]) ++ [(name, T)] ->
              (forall text,
                 emitVars_loop opts rest Count' Out' = Ok text ->
                 initializable opts ((name, T) :: rest)
                 /\ exists full'' last'',
                      concat (full'' ++ [last''])
                      = concat (full ++ [last]) ++ (name, T) :: rest
                      /\ Forall (fun line => length line = 20%nat) full''
                      /\ (length last'' <= 20)%nat
                      /\ (last'' = [] -> (name, T) :: rest = [] /\ last = [])
                      /\ (last'' <> [] ->
                          text = declarationLines opts (full'' ++ [last''])))
              /\ (initializable opts ((name, T) :: rest) ->
                  exists text, emitVars_loop opts rest Count' Out' = Ok text))
      as Hnext.
    { intros Count' Out' full' last' Hfull' HCount' Hle' Hne' Hout' Hconcat.
      destruct (IH Count' Out' full' last' Hfull' HCount' Hle'
                  (fun H => False_ind _ (Hne' H)) (fun _ => Hout'))
        as [Hok Htotal].
      split.
      - intros text Hrun.
        destruct (Hok text Hrun)
          as (Hall & full'' & last'' & Hc & Hf & Hl & Hempty & Htext).
        split; [apply Forall_cons; split; [by exists init|done]|].
        exists full'', last''. rewrite Hc, Hconcat, <- app_assoc.
        split; [done|]. split; [done|]. split; [done|]. split; [|done].
        intros H. by destruct (Hempty H) as [_ ?].
      - intros Hall. apply Forall_cons in Hall as [_ Hall].
        by apply Htotal. }
    destruct (Z.eqb_spec Count 20) as [H20|H20].
    + (* a new line after twenty declarations *)
      cbn [Z.eqb Z.ltb Z.compare Z.add].
      assert (last <> []) as Hne by (intros ->; simpl in HCount; lia).
      apply (Hnext 1 _ (full ++ [last]) [(name, T)]).
      * apply Forall_app. split; [done|]. apply Forall_singleton. lia.
      * reflexivity.
      * lia.
      * discriminate.
      * rewrite declarationLines_new_line, Hdecl, (Hout Hne).
        by rewrite !sapp_assoc.
      * rewrite (concat_app (full ++ [last])). reflexivity.
    + destruct (Z.eqb_spec Count 0) as [H0|H0].
      * (* the first declaration *)
        assert (last = []) as -> by (destruct last; [done|simpl in *; lia]).
        destruct (Hstart eq_refl) as [-> ->]. subst Count.
        cbn [Z.ltb Z.compare Z.add].
        apply (Hnext 1 _ [] [(name, T)]).
        -- constructor.
        -- reflexivity.
        -- lia.
        -- discriminate.
        -- unfold declarationLines, declarationLine. simpl.
           by rewrite Hdecl.
        -- reflexivity.
      * (* one more declaration on the line *)
        assert (0 < Count) as Hpos by lia.
        destruct (Z.ltb_spec 0 Count); [|lia].
        assert (last <> []) as Hne by (intros ->; simpl in HCount; lia).
        apply (Hnext (Count + 1) _ full (last ++ [(name, T)])).
        -- done.
        -- rewrite length_app. simpl. lia.
        -- lia.
        -- by destruct last.
        -- rewrite declarationLines_same_line by done.
           rewrite Hdecl, (Hout Hne). by rewrite !sapp_assoc.
        -- rewrite !concat_app. simpl. by rewrite !app_nil_r, app_assoc.
Qed.

(** X19.  The declarations of the local variables of a function declare
    every used variable once, the stack pointer [sp] and [label] among
    them, in [var] statements of 20 declarations each but for the last,
    which has from 1 to 20.  They are emitted whenever every used variable
    has an integer, pointer, floating-point or vector type, and only
    then. *)
Theorem local_variables_declared (MaxAlignment : Z) (w : JSWriter) :
  let used :=
    <["label" := IntegerTy 32]>
      ((if STACK_ALIGN <? MaxAlignment
        then <["sp_a" := IntegerTy 32]> else id)
         (<["sp" := IntegerTy 32]> (UsedVars w))) in
  let w1 := with_UsedVars used w in
  (forall name T, (name, T) ∈ usedVarsInOrder w1 <-> used !! name = Some T)
  /\ NoDup (usedVarsInOrder w1).*1
  /\ (initializable opts (usedVarsInOrder w1)
      <-> exists text, emitLocalVariables opts MaxAlignment w = Ok (text, w1))
  /\ (forall text w',
        emitLocalVariables opts MaxAlignment w = Ok (text, w') ->
        w' = w1
        /\ exists full last,
             concat (full ++ [last]) = usedVarsInOrder w1
             /\ Forall (fun line => length line = 20%nat) full
             /\ (1 <= length last <= 20)%nat
             /\ text = declarationLines opts (full ++ [last]) +:+ ";"
                         +:+ str1 (ascii_of_N 10)).
Proof.
  intros used w1.
  assert (forall name T,
            (name, T) ∈ usedVarsInOrder w1 <-> used !! name = Some T) as Hin.
  { intros name T. rewrite usedVarsInOrder_perm.
    apply (elem_of_map_to_list used). }
  assert (NoDup (usedVarsInOrder w1).*1) as Hnd.
  { rewrite usedVarsInOrder_perm. apply NoDup_fst_map_to_list. }
  assert (usedVarsInOrder w1 <> []) as Hne.
  { intros Hnil.
    assert (("label", IntegerTy 32) ∈ usedVarsInOrder w1) as Hl
      by (apply Hin; unfold used; apply lookup_insert_eq).
    rewrite Hnil in Hl. by apply elem_of_nil in Hl. }
  assert (emitLocalVariables opts MaxAlignment w
          = match emitVars_loop opts (usedVarsInOrder w1) 0 "" with
            | Ok text => Ok (text +:+ ";" +:+ str1 (ascii_of_N 10), w1)
            | Fatal msg => Fatal msg
            end) as Hrun.
  { unfold emitLocalVariables. unfold bind at 1, modify at 1. cbv beta iota.
    unfold bind at 1.
    assert ((if STACK_ALIGN <? MaxAlignment
             then modify (fun w0 =>
                    with_UsedVars (<["sp_a" := IntegerTy 32]> (UsedVars w0)) w0)
             else ret tt)
              (with_UsedVars (<["sp" := IntegerTy 32]> (UsedVars w)) w)
            = Ok (tt, with_UsedVars
                        ((if STACK_ALIGN <? MaxAlignment
                          then <["sp_a" := IntegerTy 32]> else id)
                           (<["sp" := IntegerTy 32]> (UsedVars w))) w)) as ->.
    { destruct (STACK_ALIGN <? MaxAlignment); [done|].
      unfold ret. simpl. by destruct w. }
    unfold bind at 1, modify at 1. cbv beta iota.
    unfold bind at 1, get at 1. cbv beta iota.
    change (with_UsedVars _ (with_UsedVars _ w)) with w1.
    rewrite bool_decide_false.
    2:{ change (UsedVars w1) with used. unfold used.
        apply insert_non_empty. }
    unfold bind, liftR.
    by destruct (emitVars_loop opts (usedVarsInOrder w1) 0 ""). }
  destruct (emitVars_loop_spec (usedVarsInOrder w1) 0 "" [] [])
    as [Hok Htotal]; try done.
  split; [exact Hin|]. split; [exact Hnd|]. split; [split|].
  - intros Hall. destruct (Htotal Hall) as [text Htext].
    rewrite Hrun, Htext. eauto.
  - intros [text Htext]. rewrite Hrun in Htext.
    destruct (emitVars_loop opts (usedVarsInOrder w1) 0 "") as [t|] eqn:Hloop;
      [|done].
    by destruct (Hok t eq_refl) as [Hall _].
  - intros text w' Htext. rewrite Hrun in Htext.
    destruct (emitVars_loop opts (usedVarsInOrder w1) 0 "") as [t|] eqn:Hloop;
      [|done].
    injection Htext as <- <-. split; [done|].
    destruct (Hok t eq_refl)
      as (_ & full & last & Hc & Hf & Hl & Hempty & Htext).
    exists full, last. simpl in Hc.
    split; [done|]. split; [done|].
    assert (last <> []) as Hlast.
    { intros H. by destruct (Hempty H) as [? _]. }
    split; [split; [destruct last; [done|simpl; lia]|done]|].
    by rewrite (Htext Hlast).
Qed.

End Declarations.

Lemma local_variables_declared_witness :
  let w1 :=
    with_UsedVars
      (<["label" := IntegerTy 32]>
         ((if STACK_ALIGN <? 32 then <["sp_a" := IntegerTy 32]> else id)
            (<["sp" := IntegerTy 32]> (UsedVars initialWriter))))
      initialWriter in
  let text := " var label = 0, sp = 0, sp_a = 0;" +:+ str1 (ascii_of_N 10) in
  emitLocalVariables defaultOptions 32 initialWriter = Ok (text, w1)
  /\ exists full last,
       concat (full ++ [last]) = usedVarsInOrder w1
       /\ Forall (fun line => length line = 20%nat) full
       /\ (1 <= length last <= 20)%nat
       /\ text = declarationLines defaultOptions (full ++ [last]) +:+ ";"
                   +:+ str1 (ascii_of_N 10).
Proof.
  intros w1 text.
  assert (emitLocalVariables defaultOptions 32 initialWriter = Ok (text, w1))
    as Hrun by (vm_compute; reflexivity).
  split; [exact Hrun|].
  exact (proj2 (proj2 (proj2 (proj2 (local_variables_declared defaultOptions
                                       32 initialWriter)))
                  text w1 Hrun)).
Defined.

(** With 24 variables the declarations take two statements. *)
Example declarations_of_24_variables :
  match emitLocalVariables defaultOptions 0 sample_vars with
  | Ok (text, _) =>
      text
      = " var $0 = 0, $1 = 0, $10 = 0, $11 = 0, $12 = 0, $13 = 0, $14 = 0, $15 = 0, $16 = 0, $17 = 0, $18 = 0, $19 = 0, $2 = 0, $20 = 0, $3 = 0, $4 = 0, $5 = 0, $6 = 0, $7 = 0, $8 = 0;"
        +:+ str1 (ascii_of_N 10)
        +:+ " var $9 = 0, $d = +0, label = 0, sp = 0;"
        +:+ str1 (ascii_of_N 10)
  | Fatal _ => False
  end.
Proof. vm_compute. reflexivity. Qed.

(** ** Lowering a value again *)


